(** * Steuersoftware: reconciliation, link synchronisation and analysis
    normalisation, embedded from the TypeScript sources.

  The development follows the source modules:
  - [Js]: the JavaScript primitives the code relies on (truthiness,
    numbers, [Math.round], [toFixed], [String.prototype.includes]);
  - [Types]: the enums and interfaces of [types.ts];
  - [Lexoffice]: [upsertTransactionsFromLexoffice] (lexofficeService.ts);
  - [App]: the three reactive passes of [App.tsx] (transaction-side and
    document-side link synchroniser, missing-receipt task generator);
  - [Gemini]: [clampConfidence], [deriveDefaultWarnings] and
    [ensureExtendedAnalysisData] (geminiService.ts);
  - [DocumentStore]: [addDocument] and [updateDocument] of the server-side
    document store;
  - [JsText]: the string replacements and splits of the sanitisers;
  - [StoreOps]: [getDocument], [deleteDocument] and the routes of
    [documentsRouter.ts] that go through the store;
  - [ImportFlow]: [buildDocumentFromLexoffice] and
    [handleImportFromLexoffice];
  - [GeminiMore]: [createSuggestedFileName], [applyRules],
    [getDocumentStatusFromAnalysis] and [buildOcrMetadataFromAnalysis]. *)

From Stdlib Require Import ZArith QArith Qround Qabs Lia Lqa DecimalString.
From stdpp Require Import base option list gmap strings fin_maps.

Close Scope Q_scope.
Open Scope string_scope.
Open Scope list_scope.
Open Scope nat_scope.

(* ===================================================================== *)
(** ** JavaScript primitives *)
(* ===================================================================== *)

Module Js.

(** A JavaScript [number]: the finite values are kept as exact rationals,
    next to [NaN] and the two infinities. *)
Inductive number : Type :=
| NaN
| PosInf
| NegInf
| Fin (q : Q).

Definition num (z : Z) : number := Fin (inject_Z z).

(** A [Date] is kept symbolically: either built from a string
    ([new Date(s)]) or from a millisecond count. *)
Inductive Date : Type :=
| DateOfString (s : string)
| DateOfMs (ms : Z).

(** Truthiness of a string: every string but the empty one. *)
Definition truthy_string (s : string) : bool :=
  match s with
  | EmptyString => false
  | String _ _ => true
  end.

(** Truthiness of [string | undefined]. *)
Definition truthy (o : option string) : bool :=
  match o with
  | Some s => truthy_string s
  | None => false
  end.

(** Truthiness of a number: everything but [0] and [NaN]. *)
Definition truthy_number (n : number) : bool :=
  match n with
  | NaN => false
  | PosInf | NegInf => true
  | Fin q => negb (Qeq_bool q 0)
  end.

(** [a <= b], [a < b], [a >= b]: false as soon as one side is [NaN]. *)
Definition le (a b : number) : bool :=
  match a, b with
  | NaN, _ | _, NaN => false
  | NegInf, _ => true
  | _, PosInf => true
  | PosInf, _ => false
  | _, NegInf => false
  | Fin x, Fin y => Qle_bool x y
  end.

Definition lt (a b : number) : bool :=
  match a, b with
  | NaN, _ | _, NaN => false
  | PosInf, _ => false
  | _, NegInf => false
  | NegInf, _ => true
  | _, PosInf => true
  | Fin x, Fin y => negb (Qle_bool y x)
  end.

Definition ge (a b : number) : bool := le b a.

(** [Math.round]: the nearest integer, halves going up. *)
Definition Math_round (n : number) : number :=
  match n with
  | Fin q => Fin (inject_Z (Qfloor (q + (1 # 2))))
  | other => other
  end.

Definition Math_min (a b : number) : number :=
  match a, b with
  | NaN, _ | _, NaN => NaN
  | _, _ => if le a b then a else b
  end.

Definition Math_max (a b : number) : number :=
  match a, b with
  | NaN, _ | _, NaN => NaN
  | _, _ => if le a b then b else a
  end.

Definition Math_abs (n : number) : number :=
  match n with
  | NaN => NaN
  | PosInf | NegInf => PosInf
  | Fin q => Fin (Qabs q)
  end.

Definition add (a b : number) : number :=
  match a, b with
  | NaN, _ | _, NaN => NaN
  | PosInf, NegInf | NegInf, PosInf => NaN
  | PosInf, _ | _, PosInf => PosInf
  | NegInf, _ | _, NegInf => NegInf
  | Fin x, Fin y => Fin (Qred (x + y))
  end.

(** Division by a positive count (an array length). *)
Definition div_count (a : number) (n : nat) : number :=
  match a, n with
  | NaN, _ => NaN
  | Fin q, O => if Qeq_bool q 0 then NaN
                else if Qle_bool 0 q then PosInf else NegInf
  | PosInf, _ => PosInf
  | NegInf, _ => NegInf
  | Fin q, S _ => Fin (Qred (q / inject_Z (Z.of_nat n)))
  end.

(** The integer [n] that [x.toFixed(2)] prints, for [x >= 0]: the one
    closest to [100 * x], the larger of two candidates. *)
Definition hundredths (q : Q) : Z := Qfloor (q * 100 + (1 # 2)).

Definition digits (z : Z) : string :=
  NilZero.string_of_uint (N.to_uint (Z.to_N z)).

Definition two_digits (z : Z) : string :=
  if (z <? 10)%Z then "0" +:+ digits z else digits z.

(** [x.toFixed(2)], for [|x| < 1e21] (beyond that JavaScript switches to
    the exponent form). *)
Definition toFixed2 (n : number) : string :=
  match n with
  | NaN => "NaN"
  | PosInf => "Infinity"
  | NegInf => "-Infinity"
  | Fin q =>
      let h := hundredths (Qabs q) in
      let body := digits (h / 100) +:+ "." +:+ two_digits (h mod 100) in
      if Qle_bool 0 q then body else "-" +:+ body
  end.

(** [Number(x.toFixed(2))]: the printed decimal read back. *)
Definition Number_toFixed2 (n : number) : number :=
  match n with
  | Fin q =>
      let h := hundredths (Qabs q) in
      if Qle_bool 0 q then Fin (Qred (inject_Z h / 100))
      else Fin (Qred (- (inject_Z h / 100)))
  | other => other
  end.

(** [s.startsWith(p)] and [s.includes(p)]. *)
Fixpoint startsWith (p s : string) : bool :=
  match p, s with
  | EmptyString, _ => true
  | String _ _, EmptyString => false
  | String a p', String b s' => if Ascii.eqb a b then startsWith p' s' else false
  end.

Fixpoint includes (s p : string) : bool :=
  if startsWith p s then true
  else match s with
       | EmptyString => false
       | String _ s' => includes s' p
       end.

End Js.

(* ===================================================================== *)
(** ** The shared types of [types.ts] *)
(* ===================================================================== *)

Module Types.

Inductive DocumentSource : Type :=
| DS_MANUAL | DS_LOCAL | DS_EMAIL | DS_WHATSAPP | DS_LEXOFFICE.

Inductive DocumentStatus : Type :=
| OK | MISSING_INVOICE | SCREENSHOT | ANALYZING
| POTENTIAL_DUPLICATE | ARCHIVED | ERROR.

Inductive InvoiceType : Type := INCOMING | OUTGOING.

Inductive LexofficeStatus : Type := NOT_SENT | SUCCESS | FAILED.

Inductive TransactionStatus : Type := COMPLETE | MISSING_RECEIPT | DRAFT.

Inductive TransactionSource : Type := MANUAL | LEXOFFICE | AI.

Inductive TaskStatus : Type := OPEN | IN_PROGRESS | DONE.

Inductive TaskPriority : Type := LOW | MEDIUM | HIGH.

#[global] Instance TransactionStatus_eq_dec : EqDecision TransactionStatus.
Proof. solve_decision. Defined.

#[global] Instance TaskStatus_eq_dec : EqDecision TaskStatus.
Proof. solve_decision. Defined.

#[global] Instance DocumentStatus_eq_dec : EqDecision DocumentStatus.
Proof. solve_decision. Defined.

Record AccountingTransaction : Type := mkTransaction {
  tx_id : string;
  tx_externalId : option string;
  tx_date : Js.Date;
  tx_description : string;
  tx_amount : Js.number;
  tx_invoiceType : InvoiceType;
  tx_taxCategory : string;
  tx_documentId : option string;
  tx_status : TransactionStatus;
  tx_source : TransactionSource;
  tx_notes : option string;
  tx_createdAt : Js.Date;
  tx_updatedAt : Js.Date;
}.

Record TaskItem : Type := mkTask {
  task_id : string;
  task_title : string;
  task_description : option string;
  task_status : TaskStatus;
  task_priority : TaskPriority;
  task_relatedTransactionId : option string;
  task_relatedDocumentId : option string;
  task_dueDate : option Js.Date;
  task_createdAt : Js.Date;
  task_completedAt : option Js.Date;
}.

Record OcrFieldConfidence : Type := mkField {
  fc_field : string;
  fc_value : string;
  (* typed [number]; [clampConfidence] also admits [undefined] *)
  fc_confidence : option Js.number;
  fc_confidenceDescription : option string;
}.

Record DocumentOcrMetadata : Type := mkOcrMetadata {
  ocr_averageConfidence : Js.number;
  ocr_analysedAt : Js.Date;
  ocr_engineVersion : string;
  ocr_pageCount : option Js.number;
  ocr_fields : list OcrFieldConfidence;
  ocr_warnings : option (list string);
}.

(** The client-side [Document]; the browser [File] handle is kept only
    by its name. *)
Record Document : Type := mkDocument {
  doc_id : string;
  doc_name : string;
  doc_date : Js.Date;
  doc_year : Z;
  doc_quarter : Z;
  doc_source : DocumentSource;
  doc_status : DocumentStatus;
  doc_fileUrl : string;
  doc_file : option string;
  doc_textContent : option string;
  doc_vendor : option string;
  doc_totalAmount : option Js.number;
  doc_vatAmount : option Js.number;
  doc_invoiceNumber : option string;
  doc_invoiceType : InvoiceType;
  doc_taxCategory : option string;
  doc_lexoffice : option (LexofficeStatus * Js.Date);
  doc_errorMessage : option string;
  doc_storageLocationId : option string;
  doc_tags : option (list string);
  doc_linkedTransactionIds : option (list string);
  doc_ocrMetadata : option DocumentOcrMetadata;
}.

Record GeminiAnalysisResult : Type := mkAnalysis {
  isInvoice : bool;
  isOrderConfirmation : bool;
  isEmailBody : bool;
  documentDate : string;
  textContent : string;
  vendor : string;
  totalAmount : Js.number;
  vatAmount : Js.number;
  invoiceNumber : string;
  invoiceType : InvoiceType;
  taxCategory : string;
  averageConfidence : option Js.number;
  fieldConfidences : option (list OcrFieldConfidence);
  warnings : option (list string);
  suggestedStorageLocationId : option string;
  pageCount : option Js.number;
}.

Definition DEFAULT_DIGITAL_STORAGE_ID : string := "storage-default-digital".

End Types.

(* ===================================================================== *)
(** ** The reconciliation engine of [lexofficeService.ts] *)
(* ===================================================================== *)

Module Lexoffice.
Import Types.

Record LexofficeTransactionPayload : Type := mkPayload {
  p_id : string;
  p_description : string;
  p_amount : Js.number;
  p_date : string;
  p_invoiceType : InvoiceType;
  p_taxCategory : string;
  p_invoiceNumber : option string;
  p_hasDocument : bool;
  p_voucherId : option string;
  p_fileIds : option (list string);
  p_vendor : option string;
}.

(** The double quote of the notification templates. *)
Definition dq : string := String (Ascii.ascii_of_nat 34) EmptyString.

(** One round of [updatedTransactions.forEach((tx, index) => ...)]: a truthy
    [externalId] is recorded at its position, a later one overwriting an
    earlier one. *)
Definition index_step (m : gmap string nat)
    (entry : nat * AccountingTransaction) : gmap string nat :=
  match tx_externalId entry.2 with
  | Some e => if Js.truthy_string e then <[e := entry.1]> m else m
  | None => m
  end.

Definition indexByExternalId (txs : list AccountingTransaction) : gmap string nat :=
  foldl index_step ∅ (imap pair txs).

(** The local state of one call: the working copy of the list and the
    counters. *)
Record UpsertResult : Type := mkUpsert {
  updatedTransactions : list AccountingTransaction;
  notifications : list string;
  imported : nat;
  updated : nat;
  skipped : nat;
  missingReceipts : nat;
}.

(** [payload.invoiceNumber ? linkedByInvoice.get(payload.invoiceNumber) : undefined] *)
Definition lookupDocumentId (linkedByInvoice : gmap string string)
    (payload : LexofficeTransactionPayload) : option string :=
  match p_invoiceNumber payload with
  | Some n => if Js.truthy_string n then linkedByInvoice !! n else None
  | None => None
  end.

(** [documentId ? COMPLETE : MISSING_RECEIPT] *)
Definition statusOf (documentId : option string) : TransactionStatus :=
  if Js.truthy documentId then COMPLETE else MISSING_RECEIPT.

(** [a ?? b] on [string | undefined]. *)
Definition nullish (a b : option string) : option string :=
  match a with
  | Some s => Some s
  | None => b
  end.

Definition updateExisting (existing : AccountingTransaction)
    (payload : LexofficeTransactionPayload) (documentId : option string)
    (status : TransactionStatus) (now : Js.Date) : AccountingTransaction :=
  {| tx_id := tx_id existing;
     tx_externalId := tx_externalId existing;
     tx_date := Js.DateOfString (p_date payload);
     tx_description := p_description payload;
     tx_amount := p_amount payload;
     tx_invoiceType := p_invoiceType payload;
     tx_taxCategory := p_taxCategory payload;
     tx_documentId := nullish documentId (tx_documentId existing);
     tx_status := status;
     tx_source := LEXOFFICE;
     tx_notes := tx_notes existing;
     tx_createdAt := tx_createdAt existing;
     tx_updatedAt := now |}.

Definition newTransaction (payload : LexofficeTransactionPayload)
    (documentId : option string) (status : TransactionStatus)
    (now : Js.Date) : AccountingTransaction :=
  {| tx_id := "tx-" +:+ p_id payload;
     tx_externalId := Some (p_id payload);
     tx_date := Js.DateOfString (p_date payload);
     tx_description := p_description payload;
     tx_amount := p_amount payload;
     tx_invoiceType := p_invoiceType payload;
     tx_taxCategory := p_taxCategory payload;
     tx_documentId := documentId;
     tx_status := status;
     tx_source := LEXOFFICE;
     tx_notes :=
       match p_invoiceNumber payload with
       | Some n => if Js.truthy_string n then Some ("Lexoffice Nr. " +:+ n) else None
       | None => None
       end;
     tx_createdAt := now;
     tx_updatedAt := now |}.

(** The body of [incoming.forEach(payload => ...)]. Reading
    [existing.documentId] off a position outside the array is a
    [TypeError]: [None]. *)
Definition upsert_payload (index_map : gmap string nat)
    (linkedByInvoice : gmap string string) (now : Js.Date)
    (st : UpsertResult) (payload : LexofficeTransactionPayload)
    : option UpsertResult :=
  let documentId := lookupDocumentId linkedByInvoice payload in
  let status := statusOf documentId in
  let missing :=
    if decide (status = MISSING_RECEIPT) then S (missingReceipts st)
    else missingReceipts st in
  match index_map !! p_id payload with
  | Some index =>
      existing ← updatedTransactions st !! index;
      Some {| updatedTransactions :=
                <[index := updateExisting existing payload documentId status now]>
                  (updatedTransactions st);
              notifications :=
                notifications st ++
                ["Transaktion " +:+ dq +:+ p_description payload +:+ dq +:+ " aktualisiert."];
              imported := imported st;
              updated := S (updated st);
              skipped := skipped st;
              missingReceipts := missing |}
  | None =>
      Some {| updatedTransactions :=
                updatedTransactions st ++ [newTransaction payload documentId status now];
              notifications :=
                notifications st ++
                ["Neue Transaktion " +:+ dq +:+ p_description payload +:+ dq +:+ " importiert."];
              imported := S (imported st);
              updated := updated st;
              skipped := skipped st;
              missingReceipts := missing |}
  end.

Definition upsert_loop (index_map : gmap string nat)
    (linkedByInvoice : gmap string string) (now : Js.Date)
    (st : UpsertResult) (incoming : list LexofficeTransactionPayload)
    : option UpsertResult :=
  foldl (λ acc payload, st' ← acc; upsert_payload index_map linkedByInvoice now st' payload)
        (Some st) incoming.

(** [upsertTransactionsFromLexoffice({ incoming, existingTransactions,
    linkedByInvoice })], the clock reading [now] made explicit. *)
Definition upsertTransactionsFromLexoffice
    (incoming : list LexofficeTransactionPayload)
    (existingTransactions : list AccountingTransaction)
    (linkedByInvoice : gmap string string) (now : Js.Date)
    : option UpsertResult :=
  upsert_loop (indexByExternalId existingTransactions) linkedByInvoice now
    {| updatedTransactions := existingTransactions;
       notifications := [];
       imported := 0;
       updated := 0;
       skipped := 0;
       missingReceipts := 0 |}
    incoming.

(** The payloads of a batch that the index does not know: those the loop
    inserts. *)
Definition inserts (index_map : gmap string nat)
    (incoming : list LexofficeTransactionPayload) : list LexofficeTransactionPayload :=
  filter (λ p, index_map !! p_id p = None) incoming.

(** How many transactions of a list carry [e] as their [externalId]. *)
Definition countExternalId (e : string) (txs : list AccountingTransaction) : nat :=
  length (filter (λ o, o = Some e) (tx_externalId <$> txs)).

(** How many payloads of a batch carry the id [e]. *)
Definition countPayloadId (e : string) (incoming : list LexofficeTransactionPayload) : nat :=
  length (filter (λ p, p_id p = e) incoming).

End Lexoffice.

(* ===================================================================== *)
(** ** The reactive passes of [App.tsx] *)
(* ===================================================================== *)

(** A [Set<string>] as the list of its members in insertion order. *)
Module JsSet.

Definition add (x : string) (s : list string) : list string :=
  if decide (x ∈ s) then s else s ++ [x].

Definition of_list (l : list string) : list string :=
  foldl (λ s x, add x s) [] l.

Definition has (x : string) (s : list string) : bool := bool_decide (x ∈ s).

Definition delete (x : string) (s : list string) : list string :=
  filter (λ y, y ≠ x) s.

End JsSet.

Module App.
Import Types.

(** *** Transaction-side pass: [useEffect(..., [documents])] *)

(** [tx.documentId && !documentIds.has(tx.documentId)] *)
Definition dangling (documentIds : gset string) (tx : AccountingTransaction) : bool :=
  match tx_documentId tx with
  | Some d => Js.truthy_string d && bool_decide (d ∉ documentIds)
  | None => false
  end.

Definition resetLink (now : Js.Date) (tx : AccountingTransaction) : AccountingTransaction :=
  {| tx_id := tx_id tx;
     tx_externalId := tx_externalId tx;
     tx_date := tx_date tx;
     tx_description := tx_description tx;
     tx_amount := tx_amount tx;
     tx_invoiceType := tx_invoiceType tx;
     tx_taxCategory := tx_taxCategory tx;
     tx_documentId := None;
     tx_status := MISSING_RECEIPT;
     tx_source := tx_source tx;
     tx_notes := tx_notes tx;
     tx_createdAt := tx_createdAt tx;
     tx_updatedAt := now |}.

(** The updater handed to [setTransactions]; [hasChange] is raised by the
    mapping callback exactly when some transaction is reset. *)
Definition syncTransactionLinks (documents : list Document)
    (prevTransactions : list AccountingTransaction) (now : Js.Date)
    : list AccountingTransaction :=
  let documentIds : gset string := list_to_set (doc_id <$> documents) in
  let hasChange := existsb (dangling documentIds) prevTransactions in
  let updatedTransactions :=
    (λ tx, if dangling documentIds tx then resetLink now tx else tx)
      <$> prevTransactions in
  if hasChange then updatedTransactions else prevTransactions.

(** *** Document-side pass: [useEffect(..., [transactions, setDocuments])] *)

Definition link_step (linkedByDoc : gmap string (list string))
    (tx : AccountingTransaction) : gmap string (list string) :=
  match tx_documentId tx with
  | Some d =>
      if Js.truthy_string d
      then <[d := default [] (linkedByDoc !! d) ++ [tx_id tx]]> linkedByDoc
      else linkedByDoc
  | None => linkedByDoc
  end.

Definition linkedByDoc (transactions : list AccountingTransaction)
    : gmap string (list string) :=
  foldl link_step ∅ transactions.

(** [sameLength && currentIds.every(id => linkedIds.includes(id))] *)
Definition sameMembers (currentIds linkedIds : list string) : bool :=
  bool_decide (length currentIds = length linkedIds)
  && forallb (λ id, bool_decide (id ∈ linkedIds)) currentIds.

Definition withLinks (doc : Document) (linkedIds : list string) : Document :=
  {| doc_id := doc_id doc;
     doc_name := doc_name doc;
     doc_date := doc_date doc;
     doc_year := doc_year doc;
     doc_quarter := doc_quarter doc;
     doc_source := doc_source doc;
     doc_status := doc_status doc;
     doc_fileUrl := doc_fileUrl doc;
     doc_file := doc_file doc;
     doc_textContent := doc_textContent doc;
     doc_vendor := doc_vendor doc;
     doc_totalAmount := doc_totalAmount doc;
     doc_vatAmount := doc_vatAmount doc;
     doc_invoiceNumber := doc_invoiceNumber doc;
     doc_invoiceType := doc_invoiceType doc;
     doc_taxCategory := doc_taxCategory doc;
     doc_lexoffice := doc_lexoffice doc;
     doc_errorMessage := doc_errorMessage doc;
     doc_storageLocationId := doc_storageLocationId doc;
     doc_tags := doc_tags doc;
     doc_linkedTransactionIds := Some linkedIds;
     doc_ocrMetadata := doc_ocrMetadata doc |}.

(** Whether the pass leaves [doc] as it is. *)
Definition linksInSync (byDoc : gmap string (list string)) (doc : Document) : bool :=
  sameMembers (default [] (doc_linkedTransactionIds doc))
              (default [] (byDoc !! doc_id doc)).

Definition syncDocumentLinks (transactions : list AccountingTransaction)
    (prevDocs : list Document) : list Document :=
  let byDoc := linkedByDoc transactions in
  let changed := existsb (λ doc, negb (linksInSync byDoc doc)) prevDocs in
  let updatedDocs :=
    (λ doc, if linksInSync byDoc doc then doc
            else withLinks doc (default [] (byDoc !! doc_id doc)))
      <$> prevDocs in
  if changed then updatedDocs else prevDocs.

(** *** Missing-receipt tasks: [useEffect(..., [transactions])] *)

Section Tasks.

(** [date.toLocaleDateString('de-DE')], a formatting service of the host. *)
Variable toLocaleDateString : Js.Date → string.

Record TaskPass : Type := mkPass {
  nextTasks : list TaskItem;
  missingIds : list string;
  changed : bool;
}.

Definition push (st : TaskPass) (task : TaskItem) : TaskPass :=
  {| nextTasks := nextTasks st ++ [task];
     missingIds := missingIds st;
     changed := changed st |}.

Definition markDone (now : Z) (task : TaskItem) : TaskItem :=
  {| task_id := task_id task;
     task_title := task_title task;
     task_description := task_description task;
     task_status := DONE;
     task_priority := task_priority task;
     task_relatedTransactionId := task_relatedTransactionId task;
     task_relatedDocumentId := task_relatedDocumentId task;
     task_dueDate := task_dueDate task;
     task_createdAt := task_createdAt task;
     task_completedAt :=
       match task_completedAt task with
       | Some d => Some d
       | None => Some (Js.DateOfMs now)
       end |}.

(** The body of [prevTasks.forEach(task => ...)]. *)
Definition task_step (now : Z) (st : TaskPass) (task : TaskItem) : TaskPass :=
  match task_relatedTransactionId task with
  | Some r =>
      if Js.truthy_string r then
        if JsSet.has r (missingIds st) then
          {| nextTasks := nextTasks st ++ [task];
             missingIds := JsSet.delete r (missingIds st);
             changed := changed st |}
        else if decide (task_status task ≠ DONE) then
          {| nextTasks := nextTasks st ++ [markDone now task];
             missingIds := missingIds st;
             changed := true |}
        else push st task
      else push st task
  | None => push st task
  end.

Definition receiptTask (now : Z) (tx : AccountingTransaction) : TaskItem :=
  {| task_id := "task-" +:+ tx_id tx;
     task_title :=
       "Beleg für " +:+
       (if Js.truthy_string (tx_description tx) then tx_description tx
        else "Transaktion") +:+ " beschaffen";
     task_description :=
       Some ("Bitte laden Sie den fehlenden Beleg für die Transaktion vom "
             +:+ toLocaleDateString (tx_date tx) +:+ " ("
             +:+ Js.toFixed2 (tx_amount tx) +:+ " €) nach.");
     task_status := OPEN;
     task_priority :=
       if Js.ge (Js.Math_abs (tx_amount tx)) (Js.num 1000) then HIGH else MEDIUM;
     task_relatedTransactionId := Some (tx_id tx);
     task_relatedDocumentId := None;
     task_dueDate := Some (Js.DateOfMs (now + 7 * 24 * 60 * 60 * 1000));
     task_createdAt := Js.DateOfMs now;
     task_completedAt := None |}.

(** The body of [missingIds.forEach(txId => ...)]. *)
Definition missing_step (transactions : list AccountingTransaction) (now : Z)
    (st : TaskPass) (txId : string) : TaskPass :=
  match find (λ t, bool_decide (tx_id t = txId)) transactions with
  | None => st
  | Some tx =>
      {| nextTasks := nextTasks st ++ [receiptTask now tx];
         missingIds := missingIds st;
         changed := true |}
  end.

Definition regenerateTasks (transactions : list AccountingTransaction)
    (prevTasks : list TaskItem) (now : Z) : list TaskItem :=
  let missingTransactions :=
    filter (λ tx, tx_status tx = MISSING_RECEIPT) transactions in
  let walked :=
    foldl (task_step now)
      {| nextTasks := [];
         missingIds := JsSet.of_list (tx_id <$> missingTransactions);
         changed := false |}
      prevTasks in
  let final := foldl (missing_step transactions now) walked (missingIds walked) in
  if changed final then nextTasks final else prevTasks.

End Tasks.

End App.

(* ===================================================================== *)
(** ** The analysis normaliser of [geminiService.ts] *)
(* ===================================================================== *)

Module Gemini.
Import Types.

Definition clampConfidence (value : option Js.number) : Js.number :=
  match value with
  | None => Js.num 65
  | Some Js.NaN => Js.num 65
  | Some v => Js.Math_max (Js.num 10) (Js.Math_min (Js.num 100) (Js.Math_round v))
  end.

Definition describeConfidence (value : Js.number) : string :=
  if Js.ge value (Js.num 90) then "Sehr hoch"
  else if Js.ge value (Js.num 75) then "Stark"
  else if Js.ge value (Js.num 60) then "Mittel"
  else "Gering".

(** [s || fallback] on strings. *)
Definition or_string (s fallback : string) : string :=
  if Js.truthy_string s then s else fallback.

Definition describeField (field : OcrFieldConfidence) : OcrFieldConfidence :=
  {| fc_field := fc_field field;
     fc_value := fc_value field;
     fc_confidence := fc_confidence field;
     fc_confidenceDescription :=
       Some (describeConfidence (default Js.NaN (fc_confidence field))) |}.

Definition defaultField (name value : string) (score : Z) : OcrFieldConfidence :=
  {| fc_field := name;
     fc_value := value;
     fc_confidence := Some (clampConfidence (Some (Js.num score)));
     fc_confidenceDescription := None |}.

Definition buildDefaultFieldConfidences (result : GeminiAnalysisResult)
    : list OcrFieldConfidence :=
  describeField <$>
  [ defaultField "vendor" (or_string (vendor result) EmptyString)
      (if Js.truthy_string (vendor result) then 92 else 65);
    defaultField "invoiceNumber" (or_string (invoiceNumber result) EmptyString)
      (if Js.truthy_string (invoiceNumber result) then 88 else 60);
    defaultField "documentDate" (or_string (documentDate result) EmptyString)
      (if Js.truthy_string (documentDate result) then 87 else 60);
    defaultField "totalAmount" (Js.toFixed2 (totalAmount result))
      (if Js.truthy_number (totalAmount result) then 90 else 58);
    defaultField "vatAmount" (Js.toFixed2 (vatAmount result))
      (if Js.truthy_number (vatAmount result) then 82 else 55);
    defaultField "invoiceType"
      (match invoiceType result with
       | INCOMING => "Eingangsrechnung"
       | OUTGOING => "Ausgangsrechnung"
       end)
      86;
    defaultField "taxCategory" (or_string (taxCategory result) "Sonstiges")
      (if Js.truthy_string (taxCategory result)
          && negb (String.eqb (taxCategory result) "Sonstiges")
       then 78 else 65) ].

(** [warnings.some(w => w.includes(needle))] *)
Definition mentions (ws : list string) (needle : string) : bool :=
  existsb (λ w, Js.includes w needle) ws.

Definition W_ORDER : string :=
  "Analyse deutet auf eine Bestellbestätigung ohne Rechnung hin.".
Definition W_EMAIL : string :=
  "Dokument wirkt wie eine E-Mail – bitte prüfen, ob ein offizieller Beleg vorliegt.".
Definition W_NUMBER : string :=
  "Keine eindeutige Rechnungsnummer erkannt.".
Definition W_AMOUNT : string :=
  "Kein gültiger Bruttobetrag erkannt.".
Definition W_QUALITY : string :=
  "OCR-Qualität liegt unter 75 %. Felder bitte manuell prüfen.".

(** [if (cond) warnings.push(w)] *)
Definition pushWhen (cond : bool) (w : string) (ws : list string) : list string :=
  if cond then ws ++ [w] else ws.

Definition deriveDefaultWarnings (result : GeminiAnalysisResult)
    (averageConfidence : Js.number) : list string :=
  let w0 := default [] (warnings result) in
  let w1 :=
    pushWhen (isOrderConfirmation result && negb (isInvoice result)
              && negb (mentions w0 "Bestell")) W_ORDER w0 in
  let w2 :=
    pushWhen (isEmailBody result && negb (isInvoice result)
              && negb (mentions w1 "E-Mail")) W_EMAIL w1 in
  let w3 :=
    pushWhen (negb (Js.truthy_string (invoiceNumber result))
              && negb (mentions w2 "Rechnungsnummer")) W_NUMBER w2 in
  let w4 :=
    pushWhen (negb (Js.truthy_number (totalAmount result))
              || Js.le (totalAmount result) (Js.num 0)) W_AMOUNT w3 in
  pushWhen (Js.lt averageConfidence (Js.num 75)) W_QUALITY w4.

(** The first [map] of [ensureExtendedAnalysisData]. *)
Definition clampField (field : OcrFieldConfidence) : OcrFieldConfidence :=
  {| fc_field := fc_field field;
     fc_value := fc_value field;
     fc_confidence := Some (clampConfidence (fc_confidence field));
     fc_confidenceDescription :=
       match fc_confidenceDescription field with
       | Some d =>
           if Js.truthy_string d then Some d
           else Some (describeConfidence (clampConfidence (fc_confidence field)))
       | None => Some (describeConfidence (clampConfidence (fc_confidence field)))
       end |}.

Definition withValue (field : OcrFieldConfidence) (value : string) : OcrFieldConfidence :=
  {| fc_field := fc_field field;
     fc_value := value;
     fc_confidence := fc_confidence field;
     fc_confidenceDescription := fc_confidenceDescription field |}.

(** The [switch (field.field)] of the second [map]. *)
Definition synchronizeField (result : GeminiAnalysisResult)
    (field : OcrFieldConfidence) : OcrFieldConfidence :=
  if String.eqb (fc_field field) "vendor" then
    withValue field (or_string (vendor result) EmptyString)
  else if String.eqb (fc_field field) "invoiceNumber" then
    withValue field (or_string (invoiceNumber result) EmptyString)
  else if String.eqb (fc_field field) "documentDate" then
    withValue field (or_string (documentDate result) EmptyString)
  else if String.eqb (fc_field field) "totalAmount" then
    withValue field (Js.toFixed2 (totalAmount result))
  else if String.eqb (fc_field field) "vatAmount" then
    withValue field (Js.toFixed2 (vatAmount result))
  else if String.eqb (fc_field field) "invoiceType" then
    withValue field
      (match invoiceType result with
       | INCOMING => "Eingangsrechnung"
       | OUTGOING => "Ausgangsrechnung"
       end)
  else if String.eqb (fc_field field) "taxCategory" then
    withValue field (or_string (taxCategory result) "Sonstiges")
  else field.

Definition sumConfidence (fields : list OcrFieldConfidence) : Js.number :=
  foldl (λ sum field, Js.add sum (default Js.NaN (fc_confidence field)))
        (Js.num 0) fields.

Definition ensureExtendedAnalysisData (result : GeminiAnalysisResult)
    : GeminiAnalysisResult :=
  let baseFields :=
    match fieldConfidences result with
    | Some (f :: fs) => clampField <$> (f :: fs)
    | _ => buildDefaultFieldConfidences result
    end in
  let synchronizedFields := synchronizeField result <$> baseFields in
  let avg :=
    if bool_decide (0 < length synchronizedFields)
    then Js.Number_toFixed2
           (Js.div_count (sumConfidence synchronizedFields) (length synchronizedFields))
    else clampConfidence (averageConfidence result) in
  let average :=
    match averageConfidence result with
    | Some n => Js.Number_toFixed2 n
    | None => avg
    end in
  {| isInvoice := isInvoice result;
     isOrderConfirmation := isOrderConfirmation result;
     isEmailBody := isEmailBody result;
     documentDate := documentDate result;
     textContent := textContent result;
     vendor := vendor result;
     totalAmount := totalAmount result;
     vatAmount := vatAmount result;
     invoiceNumber := invoiceNumber result;
     invoiceType := invoiceType result;
     taxCategory := taxCategory result;
     averageConfidence := Some average;
     fieldConfidences := Some synchronizedFields;
     warnings := Some (deriveDefaultWarnings result average);
     suggestedStorageLocationId :=
       match suggestedStorageLocationId result with
       | Some s => if Js.truthy_string s then Some s else Some DEFAULT_DIGITAL_STORAGE_ID
       | None => Some DEFAULT_DIGITAL_STORAGE_ID
       end;
     pageCount := pageCount result |}.

(** A confidence as the normaliser is meant to hand it out: an integer
    from 10 to 100. *)
Definition clamped (n : Js.number) : Prop :=
  ∃ z : Z, n = Js.num z ∧ (10 ≤ z ≤ 100)%Z.

End Gemini.

(* ===================================================================== *)
(** ** The server-side document store *)
(* ===================================================================== *)

Module DocumentStore.
Import Types.

Inductive DocumentType : Type :=
| Rechnung | Angebot | Bestellbestaetigung | Unbekannt.

Record StoredDocumentRecord : Type := mkStored {
  sd_id : string;
  sd_name : string;
  sd_originalName : string;
  sd_date : string;
  sd_year : Z;
  sd_quarter : Z;
  sd_source : DocumentSource;
  sd_status : DocumentStatus;
  sd_fileUrl : string;
  sd_invoiceType : InvoiceType;
  sd_documentType : option DocumentType;
  sd_createdAt : string;
  sd_updatedAt : string;
  sd_vendor : option string;
  sd_totalAmount : option Js.number;
  sd_vatAmount : option Js.number;
  sd_invoiceNumber : option string;
  sd_taxCategory : option string;
  sd_tags : option (list string);
  sd_errorMessage : option string;
  sd_storageLocationId : option string;
  sd_linkedTransactionIds : option (list string);
  sd_textContent : option string;
  sd_fileHash : option string;
  sd_duplicateOfId : option string;
  sd_duplicateIgnored : option bool;
}.

(** [Partial<StoredDocumentRecord>]: [None] is a key the patch does not
    carry; a carried key of an optional field may itself hold [undefined]. *)
Record StoredDocumentPatch : Type := mkPatch {
  pt_id : option string;
  pt_name : option string;
  pt_originalName : option string;
  pt_date : option string;
  pt_year : option Z;
  pt_quarter : option Z;
  pt_source : option DocumentSource;
  pt_status : option DocumentStatus;
  pt_fileUrl : option string;
  pt_invoiceType : option InvoiceType;
  pt_documentType : option (option DocumentType);
  pt_createdAt : option string;
  pt_updatedAt : option string;
  pt_vendor : option (option string);
  pt_totalAmount : option (option Js.number);
  pt_vatAmount : option (option Js.number);
  pt_invoiceNumber : option (option string);
  pt_taxCategory : option (option string);
  pt_tags : option (option (list string));
  pt_errorMessage : option (option string);
  pt_storageLocationId : option (option string);
  pt_linkedTransactionIds : option (option (list string));
  pt_textContent : option (option string);
  pt_fileHash : option (option string);
  pt_duplicateOfId : option (option string);
  pt_duplicateIgnored : option (option bool);
}.

(** What [new Date()] is asked for at creation. *)
Record Clock : Type := mkClock {
  toISOString : string;
  getFullYear : Z;
  getMonth : Z;
}.

Record AddParams : Type := mkAddParams {
  originalName : string;
  storedFilename : string;
  source : DocumentSource;
  mimeType : string;
}.

(** [cache.findIndex(pred)], [None] for [-1]. *)
Fixpoint findIndex {A : Type} (pred : A → bool) (l : list A) : option nat :=
  match l with
  | [] => None
  | x :: l' => if pred x then Some 0 else S <$> findIndex pred l'
  end.

Section Store.

(** [createHash('sha256').update(buf).digest('hex')] *)
Variable sha256_hex : list Byte.byte → string.

(** [join(UPLOAD_DIR, name)] *)
Variable uploadPath : string → string.

(** [hashFile]: a file that cannot be read gives [undefined]. *)
Definition hashFile (files : gmap string (list Byte.byte)) (full : string)
    : option string :=
  sha256_hex <$> files !! full.

(** [d.fileHash === fileHash && !d.duplicateIgnored] *)
Definition sameHash (fileHash : string) (d : StoredDocumentRecord) : bool :=
  bool_decide (sd_fileHash d = Some fileHash)
  && negb (default false (sd_duplicateIgnored d)).

(** [addDocument], up to the [persist()]: the new record and the cache
    after [cache.push(record)]. [id] is the outcome of [genId()], [files]
    the upload directory as [hashFile] reads it. *)
Definition addDocument (cache : list StoredDocumentRecord)
    (files : gmap string (list Byte.byte)) (now : Clock) (id : string)
    (params : AddParams) : StoredDocumentRecord * list StoredDocumentRecord :=
  let fullPath := uploadPath (storedFilename params) in
  let fileHash := hashFile files fullPath in
  let existing :=
    match fileHash with
    | Some h => if Js.truthy_string h then find (sameHash h) cache else None
    | None => None
    end in
  let duplicateOfId := sd_id <$> existing in
  let status :=
    match existing with
    | Some _ => POTENTIAL_DUPLICATE
    | None => ANALYZING
    end in
  let record :=
    {| sd_id := id;
       sd_name := originalName params;
       sd_originalName := originalName params;
       sd_date := toISOString now;
       sd_year := getFullYear now;
       sd_quarter := ((getMonth now + 3) / 3)%Z;
       sd_source := source params;
       sd_status := status;
       sd_fileUrl := "/uploads/" +:+ storedFilename params;
       sd_invoiceType := INCOMING;
       sd_documentType := Some Unbekannt;
       sd_createdAt := toISOString now;
       sd_updatedAt := toISOString now;
       sd_vendor := None;
       sd_totalAmount := None;
       sd_vatAmount := None;
       sd_invoiceNumber := None;
       sd_taxCategory := None;
       sd_tags := Some [];
       sd_errorMessage := None;
       sd_storageLocationId := None;
       sd_linkedTransactionIds := Some [];
       sd_textContent := None;
       sd_fileHash := fileHash;
       sd_duplicateOfId := duplicateOfId;
       sd_duplicateIgnored := None |} in
  (record, cache ++ [record]).

End Store.

(** [{ ...old, ...patch, id, updatedAt: now }] *)
Definition applyPatch (old : StoredDocumentRecord) (patch : StoredDocumentPatch)
    (id now : string) : StoredDocumentRecord :=
  {| sd_id := id;
     sd_name := default (sd_name old) (pt_name patch);
     sd_originalName := default (sd_originalName old) (pt_originalName patch);
     sd_date := default (sd_date old) (pt_date patch);
     sd_year := default (sd_year old) (pt_year patch);
     sd_quarter := default (sd_quarter old) (pt_quarter patch);
     sd_source := default (sd_source old) (pt_source patch);
     sd_status := default (sd_status old) (pt_status patch);
     sd_fileUrl := default (sd_fileUrl old) (pt_fileUrl patch);
     sd_invoiceType := default (sd_invoiceType old) (pt_invoiceType patch);
     sd_documentType := default (sd_documentType old) (pt_documentType patch);
     sd_createdAt := default (sd_createdAt old) (pt_createdAt patch);
     sd_updatedAt := now;
     sd_vendor := default (sd_vendor old) (pt_vendor patch);
     sd_totalAmount := default (sd_totalAmount old) (pt_totalAmount patch);
     sd_vatAmount := default (sd_vatAmount old) (pt_vatAmount patch);
     sd_invoiceNumber := default (sd_invoiceNumber old) (pt_invoiceNumber patch);
     sd_taxCategory := default (sd_taxCategory old) (pt_taxCategory patch);
     sd_tags := default (sd_tags old) (pt_tags patch);
     sd_errorMessage := default (sd_errorMessage old) (pt_errorMessage patch);
     sd_storageLocationId :=
       default (sd_storageLocationId old) (pt_storageLocationId patch);
     sd_linkedTransactionIds :=
       default (sd_linkedTransactionIds old) (pt_linkedTransactionIds patch);
     sd_textContent := default (sd_textContent old) (pt_textContent patch);
     sd_fileHash := default (sd_fileHash old) (pt_fileHash patch);
     sd_duplicateOfId := default (sd_duplicateOfId old) (pt_duplicateOfId patch);
     sd_duplicateIgnored :=
       default (sd_duplicateIgnored old) (pt_duplicateIgnored patch) |}.

(** [updateDocument(id, patch)] on the cache: the returned value ([None]
    for [null]) and the cache afterwards. [now] is
    [new Date().toISOString()]. *)
Definition updateDocument (cache : list StoredDocumentRecord) (id : string)
    (patch : StoredDocumentPatch) (now : string)
    : option StoredDocumentRecord * list StoredDocumentRecord :=
  match findIndex (λ d, bool_decide (sd_id d = id)) cache with
  | None => (None, cache)
  | Some idx =>
      match cache !! idx with
      | None => (None, cache) (* not reached: [idx] is a position of [cache] *)
      | Some old =>
          let updated := applyPatch old patch id now in
          (Some updated, <[idx := updated]> cache)
      end
  end.

End DocumentStore.

Module Scenarios.
Import Types Lexoffice.

Definition epoch : Js.Date := Js.DateOfMs 0.

Definition payload (id : string) (invoiceNumber : option string)
    : LexofficeTransactionPayload :=
  {| p_id := id;
     p_description := "Lexoffice Buchung";
     p_amount := Js.num 100;
     p_date := "2025-01-15";
     p_invoiceType := OUTGOING;
     p_taxCategory := "Unkategorisiert";
     p_invoiceNumber := invoiceNumber;
     p_hasDocument := false;
     p_voucherId := None;
     p_fileIds := None;
     p_vendor := None |}.

Definition document (id : string) (invoiceNumber : option string)
    (linked : option (list string)) : Document :=
  {| doc_id := id;
     doc_name := "Beleg.pdf";
     doc_date := epoch;
     doc_year := 2025;
     doc_quarter := 1;
     doc_source := DS_MANUAL;
     doc_status := OK;
     doc_fileUrl := "/uploads/beleg.pdf";
     doc_file := None;
     doc_textContent := None;
     doc_vendor := None;
     doc_totalAmount := None;
     doc_vatAmount := None;
     doc_invoiceNumber := invoiceNumber;
     doc_invoiceType := OUTGOING;
     doc_taxCategory := None;
     doc_lexoffice := None;
     doc_errorMessage := None;
     doc_storageLocationId := None;
     doc_tags := None;
     doc_linkedTransactionIds := linked;
     doc_ocrMetadata := None |}.

Definition transaction (id : string) (externalId documentId : option string)
    (status : TransactionStatus) : AccountingTransaction :=
  {| tx_id := id;
     tx_externalId := externalId;
     tx_date := epoch;
     tx_description := "Buchung";
     tx_amount := Js.num 100;
     tx_invoiceType := OUTGOING;
     tx_taxCategory := "Unkategorisiert";
     tx_documentId := documentId;
     tx_status := status;
     tx_source := LEXOFFICE;
     tx_notes := None;
     tx_createdAt := epoch;
     tx_updatedAt := epoch |}.

(** A re-import that meets a transaction which an earlier import linked
    to its document through the invoice number: the list, the documents
    and the invoice lookup before the import. *)
Definition linkedTransactions : list AccountingTransaction :=
  [transaction "tx-A" (Some "A") (Some "D1") COMPLETE].

Definition linkedDocuments : list Document :=
  [document "D1" (Some "INV-1") (Some ["tx-A"])].

Definition invoiceMap : gmap string string := {["INV-1" := "D1"]}.

(** Two imports in a row, the first holding the provider id "A" twice. *)
Definition twoDocuments : list Document :=
  [document "D" (Some "INV-1") (Some []); document "D2" (Some "INV-2") (Some [])].

Definition twoInvoices : gmap string string :=
  {["INV-1" := "D"; "INV-2" := "D2"]}.

Definition firstBatch : list LexofficeTransactionPayload :=
  [payload "A" (Some "INV-1"); payload "A" (Some "INV-1")].

Definition secondBatch : list LexofficeTransactionPayload :=
  [payload "A" (Some "INV-2"); payload "B" (Some "INV-1")].

(** A list with one open transaction, and a fixed date format. *)
Definition openTransactions : list AccountingTransaction :=
  [transaction "tx-A" (Some "A") None MISSING_RECEIPT].

Definition germanDate (d : Js.Date) : string := "15.1.2025".

(** A raw extraction without a total amount, as the model returns it. *)
Definition rawAnalysis : GeminiAnalysisResult :=
  {| isInvoice := true;
     isOrderConfirmation := false;
     isEmailBody := false;
     documentDate := "2025-01-15";
     textContent := "Rechnung";
     vendor := "Bauhaus";
     totalAmount := Js.num 0;
     vatAmount := Js.num 0;
     invoiceNumber := "RE-1";
     invoiceType := INCOMING;
     taxCategory := "Sonstiges";
     averageConfidence := None;
     fieldConfidences := None;
     warnings := None;
     suggestedStorageLocationId := None;
     pageCount := None |}.

(** The same extraction, with an average confidence of 150 supplied. *)
Definition overconfidentAnalysis : GeminiAnalysisResult :=
  {| isInvoice := true;
     isOrderConfirmation := false;
     isEmailBody := false;
     documentDate := "2025-01-15";
     textContent := "Rechnung";
     vendor := "Bauhaus";
     totalAmount := Js.num 0;
     vatAmount := Js.num 0;
     invoiceNumber := "RE-1";
     invoiceType := INCOMING;
     taxCategory := "Sonstiges";
     averageConfidence := Some (Js.num 150);
     fieldConfidences := None;
     warnings := None;
     suggestedStorageLocationId := None;
     pageCount := None |}.

(** Three uploads of the same bytes; the digest function is a stand-in
    with the shape of a SHA-256 hex digest. *)
Definition digest (bytes : list Byte.byte) : string :=
  "9f86d081884c7d659a2feaa0c55ad015a3bf4f1b2b0b822cd15d6c15b0f00a08".

Definition inUploads (name : string) : string := "server/uploads/" +:+ name.

Definition upload (name : string) : DocumentStore.AddParams :=
  {| DocumentStore.originalName := "Rechnung.pdf";
     DocumentStore.storedFilename := name;
     DocumentStore.source := DS_LOCAL;
     DocumentStore.mimeType := "application/pdf" |}.

Definition uploadedFiles : gmap string (list Byte.byte) :=
  {[ "server/uploads/a.pdf" := [Byte.x25; Byte.x50];
     "server/uploads/b.pdf" := [Byte.x25; Byte.x50];
     "server/uploads/c.pdf" := [Byte.x25; Byte.x50] ]}.

Definition clock : DocumentStore.Clock :=
  {| DocumentStore.toISOString := "2025-01-15T10:00:00.000Z";
     DocumentStore.getFullYear := 2025;
     DocumentStore.getMonth := 0 |}.

(** The cache after the first two uploads. *)
Definition afterTwoUploads : list DocumentStore.StoredDocumentRecord :=
  (DocumentStore.addDocument digest inUploads
     (DocumentStore.addDocument digest inUploads [] uploadedFiles clock "doc-1"
        (upload "a.pdf")).2
     uploadedFiles clock "doc-2" (upload "b.pdf")).2.

Definition emptyPatch : DocumentStore.StoredDocumentPatch :=
  {| DocumentStore.pt_id := None;
     DocumentStore.pt_name := None;
     DocumentStore.pt_originalName := None;
     DocumentStore.pt_date := None;
     DocumentStore.pt_year := None;
     DocumentStore.pt_quarter := None;
     DocumentStore.pt_source := None;
     DocumentStore.pt_status := None;
     DocumentStore.pt_fileUrl := None;
     DocumentStore.pt_invoiceType := None;
     DocumentStore.pt_documentType := None;
     DocumentStore.pt_createdAt := None;
     DocumentStore.pt_updatedAt := None;
     DocumentStore.pt_vendor := None;
     DocumentStore.pt_totalAmount := None;
     DocumentStore.pt_vatAmount := None;
     DocumentStore.pt_invoiceNumber := None;
     DocumentStore.pt_taxCategory := None;
     DocumentStore.pt_tags := None;
     DocumentStore.pt_errorMessage := None;
     DocumentStore.pt_storageLocationId := None;
     DocumentStore.pt_linkedTransactionIds := None;
     DocumentStore.pt_textContent := None;
     DocumentStore.pt_fileHash := None;
     DocumentStore.pt_duplicateOfId := None;
     DocumentStore.pt_duplicateIgnored := None |}.

End Scenarios.


(* ===================================================================== *)
(** ** More string primitives *)
(* ===================================================================== *)

Module JsText.

(** [s.slice(n)] *)
Fixpoint slice_from (n : nat) (s : string) : string :=
  match n, s with
  | O, _ => s
  | S _, EmptyString => EmptyString
  | S n', String _ s' => slice_from n' s'
  end.

(** [s.replace(pattern, replacement)] with a string pattern (first
    occurrence only) and a replacement free of [$] patterns. *)
Fixpoint replaceFirst (s pattern replacement : string) : string :=
  if Js.startsWith pattern s
  then replacement +:+ slice_from (String.length pattern) s
  else match s with
       | EmptyString => EmptyString
       | String a s' => String a (replaceFirst s' pattern replacement)
       end.

(** The character classes of the two sanitising patterns. *)
Definition isDigit (a : Ascii.ascii) : bool :=
  let n := Ascii.nat_of_ascii a in (48 <=? n) && (n <=? 57).

Definition isUpper (a : Ascii.ascii) : bool :=
  let n := Ascii.nat_of_ascii a in (65 <=? n) && (n <=? 90).

Definition isLower (a : Ascii.ascii) : bool :=
  let n := Ascii.nat_of_ascii a in (97 <=? n) && (n <=? 122).

(** [[a-zA-Z0-9]] *)
Definition isAlnum (a : Ascii.ascii) : bool := isDigit a || isUpper a || isLower a.

(** [[a-zA-Z0-9_.-]] *)
Definition underscore : Ascii.ascii := Ascii.ascii_of_nat 95.
Definition dot : Ascii.ascii := Ascii.ascii_of_nat 46.
Definition hyphen : Ascii.ascii := Ascii.ascii_of_nat 45.
Definition comma : Ascii.ascii := Ascii.ascii_of_nat 44.

Definition isFileChar (a : Ascii.ascii) : bool :=
  isAlnum a || Ascii.eqb a underscore || Ascii.eqb a dot || Ascii.eqb a hyphen.

(** [s.replace(/[^a-zA-Z0-9]/g, '')] *)
Fixpoint keepAlnum (s : string) : string :=
  match s with
  | EmptyString => EmptyString
  | String a s' => if isAlnum a then String a (keepAlnum s') else keepAlnum s'
  end.

(** [toLowerCase] on a string of letters and digits. *)
Definition lowerAscii (a : Ascii.ascii) : Ascii.ascii :=
  if isUpper a then Ascii.ascii_of_nat (Ascii.nat_of_ascii a + 32) else a.

Fixpoint lowerAlnum (s : string) : string :=
  match s with
  | EmptyString => EmptyString
  | String a s' => String (lowerAscii a) (lowerAlnum s')
  end.

(** [s.replace(/[^a-zA-Z0-9_.-]+/g, '_')]: every maximal run of other
    characters becomes one underscore. [inRun] tells that the character
    before belonged to such a run. *)
Fixpoint collapseRuns (inRun : bool) (s : string) : string :=
  match s with
  | EmptyString => EmptyString
  | String a s' =>
      if isFileChar a then String a (collapseRuns false s')
      else if inRun then collapseRuns true s'
      else String underscore (collapseRuns true s')
  end.

(** [s.split(',')] *)
Fixpoint splitComma (current : string) (s : string) : list string :=
  match s with
  | EmptyString => [current]
  | String a s' =>
      if Ascii.eqb a comma
      then current :: splitComma EmptyString s'
      else splitComma (current +:+ String a EmptyString) s'
  end.

(** [[a-z0-9]] *)
Definition isLowerAlnum (a : Ascii.ascii) : bool := isDigit a || isLower a.

(** Whether every character of [s] passes [p]. *)
Fixpoint all (p : Ascii.ascii → bool) (s : string) : bool :=
  match s with
  | EmptyString => true
  | String a s' => p a && all p s'
  end.

(** [s.replace('.', ',')] *)
Definition dotToComma (s : string) : string := replaceFirst s "." ",".

End JsText.

(* ===================================================================== *)
(** ** The rest of the document store and its router *)
(* ===================================================================== *)

Module StoreOps.
Import Types DocumentStore.

(** [getDocument]: [cache.find(d => d.id === id) || null] *)
Definition getDocument (cache : list StoredDocumentRecord) (id : string)
    : option StoredDocumentRecord :=
  find (λ d, bool_decide (sd_id d = id)) cache.

(** [deleteDocument], on the cache and on the upload directory as a map
    from paths to contents: the answer, the cache after the [splice] and
    the files after the [unlinkSync]. [uploadPath] is [join(UPLOAD_DIR, .)]. *)
Definition deleteDocument (uploadPath : string → string)
    (cache : list StoredDocumentRecord) (files : gmap string (list Byte.byte))
    (id : string)
    : bool * list StoredDocumentRecord * gmap string (list Byte.byte) :=
  match findIndex (λ d, bool_decide (sd_id d = id)) cache with
  | None => (false, cache, files)
  | Some idx =>
      match cache !! idx with
      | None => (false, cache, files) (* not reached *)
      | Some removed =>
          let filename :=
            JsText.replaceFirst (sd_fileUrl removed) "/uploads/" EmptyString in
          (true, delete idx cache, delete (uploadPath filename) files)
      end
  end.

(** The patch of the [ignore-duplicate] route:
    [{ duplicateIgnored: true, status: ... }]. *)
Definition ignorePatch (status : DocumentStatus) : StoredDocumentPatch :=
  {| pt_id := None;
     pt_name := None;
     pt_originalName := None;
     pt_date := None;
     pt_year := None;
     pt_quarter := None;
     pt_source := None;
     pt_status := Some status;
     pt_fileUrl := None;
     pt_invoiceType := None;
     pt_documentType := None;
     pt_createdAt := None;
     pt_updatedAt := None;
     pt_vendor := None;
     pt_totalAmount := None;
     pt_vatAmount := None;
     pt_invoiceNumber := None;
     pt_taxCategory := None;
     pt_tags := None;
     pt_errorMessage := None;
     pt_storageLocationId := None;
     pt_linkedTransactionIds := None;
     pt_textContent := None;
     pt_fileHash := None;
     pt_duplicateOfId := None;
     pt_duplicateIgnored := Some (Some true) |}.

(** [POST /:id/ignore-duplicate]: [None] is the 404 answer. *)
Definition ignoreDuplicate (cache : list StoredDocumentRecord) (id now : string)
    : option StoredDocumentRecord * list StoredDocumentRecord :=
  match getDocument cache id with
  | None => (None, cache)
  | Some doc =>
      updateDocument cache (sd_id doc)
        (ignorePatch (if decide (sd_status doc = POTENTIAL_DUPLICATE) then OK
                      else sd_status doc))
        now
  end.

(** An entry of the body of [PATCH /batch]: [{ id?, patch? }]. *)
Record BatchItem : Type := mkBatchItem {
  bi_id : option string;
  bi_patch : option StoredDocumentPatch;
}.

Definition noPatch : StoredDocumentPatch :=
  {| pt_id := None;
     pt_name := None;
     pt_originalName := None;
     pt_date := None;
     pt_year := None;
     pt_quarter := None;
     pt_source := None;
     pt_status := None;
     pt_fileUrl := None;
     pt_invoiceType := None;
     pt_documentType := None;
     pt_createdAt := None;
     pt_updatedAt := None;
     pt_vendor := None;
     pt_totalAmount := None;
     pt_vatAmount := None;
     pt_invoiceNumber := None;
     pt_taxCategory := None;
     pt_tags := None;
     pt_errorMessage := None;
     pt_storageLocationId := None;
     pt_linkedTransactionIds := None;
     pt_textContent := None;
     pt_fileHash := None;
     pt_duplicateOfId := None;
     pt_duplicateIgnored := None |}.

(** One round of [body.map(item => ...)]: the entry of [results] and the
    cache afterwards. *)
Definition batch_item (now : string) (cache : list StoredDocumentRecord)
    (item : BatchItem)
    : (option string * bool) * list StoredDocumentRecord :=
  match bi_id item with
  | Some id =>
      if Js.truthy_string id then
        let '(updated, cache') :=
          updateDocument cache id (default noPatch (bi_patch item)) now in
        ((Some id, bool_decide (is_Some updated)), cache')
      else ((None, false), cache)
  | None => ((None, false), cache)
  end.

(** [PATCH /batch]: the [results] array and the cache afterwards. *)
Definition batchPatch (now : string) (cache : list StoredDocumentRecord)
    (body : list BatchItem)
    : list (option string * bool) * list StoredDocumentRecord :=
  foldl (λ st item,
           let '(entry, cache') := batch_item now st.2 item in
           (st.1 ++ [entry], cache'))
        ([], cache) body.

(** The [filename] callback of the upload storage: [stamp] is
    [Date.now()] and [random] the random suffix, both as printed. *)
Definition safeName (originalname : string) : string :=
  JsText.collapseRuns false originalname.

Definition storedName (stamp random originalname : string) : string :=
  stamp +:+ "-" +:+ random +:+ "-" +:+ safeName originalname.

End StoreOps.

(* ===================================================================== *)
(** ** The import handler of [App.tsx] and what it calls *)
(* ===================================================================== *)

Module ImportFlow.
Import Types Lexoffice App.

Record LexofficeDocumentPayload : Type := mkDocPayload {
  dp_id : string;
  dp_transactionExternalId : option string;
  dp_filename : string;
  dp_url : string;
  dp_issuedDate : string;
  dp_vendor : string;
  dp_totalAmount : Js.number;
  dp_vatAmount : option Js.number;
  dp_taxCategory : option string;
  dp_invoiceType : InvoiceType;
  dp_invoiceNumber : option string;
  dp_file : option string;
}.

(** What [importFromLexoffice] resolves to, as far as the handler reads
    it. *)
Record ImportResult : Type := mkImportResult {
  ir_transactions : list LexofficeTransactionPayload;
  ir_documents : option (list LexofficeDocumentPayload);
}.

Section Build.

(** [new Date(s).getFullYear()] and [new Date(s).getMonth()], for a date
    string that parses. *)
Variable yearOf : string → Z.
Variable monthOf : string → Z.

(** [buildDocumentFromLexoffice(payload, storageLocationId)]; [now] is the
    [new Date()] of [sentAt]. *)
Definition buildDocumentFromLexoffice (payload : LexofficeDocumentPayload)
    (storageLocationId : string) (now : Js.Date) : Document :=
  {| doc_id := "lexoffice-doc-" +:+ dp_id payload;
     doc_name := dp_filename payload;
     doc_date := Js.DateOfString (dp_issuedDate payload);
     doc_year := yearOf (dp_issuedDate payload);
     doc_quarter := ((monthOf (dp_issuedDate payload) + 3) / 3)%Z;
     doc_source := DS_LEXOFFICE;
     doc_status := OK;
     doc_fileUrl := dp_url payload;
     doc_file := dp_file payload;
     doc_textContent := None;
     doc_vendor := Some (dp_vendor payload);
     doc_totalAmount := Some (dp_totalAmount payload);
     doc_vatAmount := dp_vatAmount payload;
     doc_invoiceNumber := dp_invoiceNumber payload;
     doc_invoiceType := dp_invoiceType payload;
     doc_taxCategory := dp_taxCategory payload;
     doc_lexoffice := Some (SUCCESS, now);
     doc_errorMessage := None;
     doc_storageLocationId := Some storageLocationId;
     doc_tags :=
       Some (omap (λ o, if Js.truthy o then o else None)
               [Some (dp_vendor payload); dp_taxCategory payload]);
     doc_linkedTransactionIds :=
       Some (if Js.truthy (dp_transactionExternalId payload)
             then default [] ((λ e, [e]) <$> dp_transactionExternalId payload)
             else []);
     doc_ocrMetadata := None |}.

(** [if (doc.invoiceNumber) invoiceMap.set(doc.invoiceNumber, doc.id)] *)
Definition invoice_step (m : gmap string string) (doc : Document)
    : gmap string string :=
  match doc_invoiceNumber doc with
  | Some n => if Js.truthy_string n then <[n := doc_id doc]> m else m
  | None => m
  end.

(** The invoice lookup: the documents at hand first, then the candidates. *)
Definition buildInvoiceMap (documents candidateDocuments : list Document)
    : gmap string string :=
  foldl invoice_step (foldl invoice_step ∅ documents) candidateDocuments.

(** The callback of [candidateDocuments.filter(...)]. *)
Definition isAddition (existingIds existingInvoiceNumbers : gset string)
    (doc : Document) : bool :=
  if bool_decide (doc_id doc ∈ existingIds) then false
  else match doc_invoiceNumber doc with
       | Some n =>
           if Js.truthy_string n && bool_decide (n ∈ existingInvoiceNumbers)
           then false else true
       | None => true
       end.

(** The candidates that are appended to the documents. *)
Definition additions (documents candidateDocuments : list Document)
    : list Document :=
  let existingIds : gset string := list_to_set (doc_id <$> documents) in
  let existingInvoiceNumbers : gset string :=
    list_to_set (omap (λ doc, if Js.truthy (doc_invoiceNumber doc)
                              then doc_invoiceNumber doc else None) documents) in
  filter (λ doc, isAddition existingIds existingInvoiceNumbers doc = true)
         candidateDocuments.

(** [handleImportFromLexoffice], after the import has resolved: the
    transactions handed to [setTransactions] and the documents after
    [setDocuments]. [None] stands for an exception of the engine. *)
Definition handleImportFromLexoffice (documents : list Document)
    (transactions : list AccountingTransaction) (importResult : ImportResult)
    (now : Js.Date) : option (list AccountingTransaction * list Document) :=
  let candidateDocuments :=
    (λ payload, buildDocumentFromLexoffice payload DEFAULT_DIGITAL_STORAGE_ID now)
      <$> default [] (ir_documents importResult) in
  let invoiceMap := buildInvoiceMap documents candidateDocuments in
  r ← upsertTransactionsFromLexoffice (ir_transactions importResult) transactions
         invoiceMap now;
  Some (updatedTransactions r, documents ++ additions documents candidateDocuments).

End Build.

End ImportFlow.

(* ===================================================================== *)
(** ** More of [geminiService.ts] *)
(* ===================================================================== *)

Module GeminiMore.
Import Types Gemini.

Inductive ConditionType : Type := ByVendor | ByTextContent.

Record Rule : Type := mkRule {
  rule_id : string;
  rule_conditionType : ConditionType;
  rule_conditionValue : string;
  rule_invoiceType : InvoiceType;
  rule_resultCategory : string;
}.

(** The file-name part made of the vendor:
    [(vendor || 'unbekannt').replace(/[^a-zA-Z0-9]/g, '').toLowerCase() || 'unbekannt'] *)
Definition cleanVendor (vendor : string) : string :=
  or_string (JsText.lowerAlnum (JsText.keepAlnum (or_string vendor "unbekannt")))
            "unbekannt".

Section Host.

(** String and date services of the host: [s.trim()], [s.toLowerCase()],
    [s.length], [new Date(s).toDateString()], [d.toDateString()], and the
    two date parts of the file name as they are printed,
    [(date.getMonth() + 1).toString().padStart(2, '0')] and
    [date.getFullYear()] for [date = new Date(s)]. *)
Variable trim : string → string.
Variable toLowerCase : string → string.
Variable codeUnits : string → nat.
Variable dateStringOfIso : string → string.
Variable toDateString : Js.Date → string.
Variable monthText : string → string.
Variable yearText : string → string.

Definition createSuggestedFileName (result : GeminiAnalysisResult)
    (originalExtension : string) : string :=
  "re_" +:+ cleanVendor (vendor result) +:+ "_"
  +:+ JsText.dotToComma (Js.toFixed2 (totalAmount result)) +:+ "€_"
  +:+ monthText (documentDate result) +:+ "_"
  +:+ yearText (documentDate result) +:+ "."
  +:+ originalExtension.

(** [rule.conditionValue.split(',').map(k => k.trim().toLowerCase()).filter(Boolean)] *)
Definition keywords (rule : Rule) : list string :=
  filter (λ k, Js.truthy_string k = true)
    ((λ k, toLowerCase (trim k))
       <$> JsText.splitComma EmptyString (rule_conditionValue rule)).

(** [keywords.some(keyword => targetText.includes(keyword))] *)
Definition ruleMatches (result : GeminiAnalysisResult) (rule : Rule) : bool :=
  let targetText :=
    match rule_conditionType rule with
    | ByVendor => toLowerCase (or_string (vendor result) EmptyString)
    | ByTextContent => toLowerCase (textContent result)
    end in
  existsb (λ keyword, Js.includes targetText keyword) (keywords rule).

(** [result.invoiceType = rule.invoiceType; result.taxCategory = rule.resultCategory] *)
Definition withRule (result : GeminiAnalysisResult) (rule : Rule)
    : GeminiAnalysisResult :=
  {| isInvoice := isInvoice result;
     isOrderConfirmation := isOrderConfirmation result;
     isEmailBody := isEmailBody result;
     documentDate := documentDate result;
     textContent := textContent result;
     vendor := vendor result;
     totalAmount := totalAmount result;
     vatAmount := vatAmount result;
     invoiceNumber := invoiceNumber result;
     invoiceType := rule_invoiceType rule;
     taxCategory := rule_resultCategory rule;
     averageConfidence := averageConfidence result;
     fieldConfidences := fieldConfidences result;
     warnings := warnings result;
     suggestedStorageLocationId := suggestedStorageLocationId result;
     pageCount := pageCount result |}.

(** [applyRules]: the loop returns at the first rule that matches. *)
Fixpoint applyRules (result : GeminiAnalysisResult) (rules : list Rule)
    : GeminiAnalysisResult :=
  match rules with
  | [] => result
  | rule :: rest =>
      if ruleMatches result rule then withRule result rule
      else applyRules result rest
  end.

(** The first test of the loop of [getDocumentStatusFromAnalysis]. *)
Definition invoiceNumberClash (analysis : GeminiAnalysisResult) (doc : Document)
    : bool :=
  match doc_invoiceNumber doc with
  | Some number =>
      Js.truthy_string (invoiceNumber analysis)
      && Js.truthy_string number
      && bool_decide (2 < codeUnits (trim (invoiceNumber analysis)))
      && String.eqb (toLowerCase (trim (invoiceNumber analysis)))
                    (toLowerCase (trim number))
  | None => false
  end.

(** The second test: same printed amount on the same calendar day. *)
Definition amountDateClash (analysis : GeminiAnalysisResult) (doc : Document)
    : bool :=
  match doc_totalAmount doc with
  | Some amount =>
      Js.truthy_number amount
      && Js.truthy_number (totalAmount analysis)
      && String.eqb (Js.toFixed2 amount) (Js.toFixed2 (totalAmount analysis))
      && String.eqb (toDateString (doc_date doc))
                    (dateStringOfIso (documentDate analysis))
  | None => false
  end.

(** The [for] loop, which returns at the first clash. *)
Fixpoint findsDuplicate (analysis : GeminiAnalysisResult)
    (existingDocuments : list Document) : bool :=
  match existingDocuments with
  | [] => false
  | doc :: rest =>
      if invoiceNumberClash analysis doc then true
      else if amountDateClash analysis doc then true
      else findsDuplicate analysis rest
  end.

Definition getDocumentStatusFromAnalysis (analysis : GeminiAnalysisResult)
    (existingDocuments : list Document) : DocumentStatus :=
  if findsDuplicate analysis existingDocuments then POTENTIAL_DUPLICATE
  else if isOrderConfirmation analysis && negb (isInvoice analysis)
  then MISSING_INVOICE
  else if isEmailBody analysis && negb (isInvoice analysis) then SCREENSHOT
  else OK.

End Host.

(** [buildOcrMetadataFromAnalysis]; [now] is the [new Date()] of
    [analysedAt]. *)
Definition GEMINI_MODEL : string := "gemini-2.5-pro".

Definition buildOcrMetadataFromAnalysis (analysis : GeminiAnalysisResult)
    (now : Js.Date) : DocumentOcrMetadata :=
  let enriched := ensureExtendedAnalysisData analysis in
  {| ocr_averageConfidence := default (Js.num 85) (averageConfidence enriched);
     ocr_analysedAt := now;
     ocr_engineVersion := GEMINI_MODEL;
     ocr_pageCount := pageCount enriched;
     ocr_fields := default [] (fieldConfidences enriched);
     ocr_warnings := warnings enriched |}.

End GeminiMore.

(** What the task generator may do to a task it walks over: keep it, or
    close it if it was not closed yet. *)
Module TaskSpec.
Import Types App.

Definition kept_or_closed (now : Z) (old new : TaskItem) : Prop :=
  new = old ∨ (new = markDone now old ∧ task_status old ≠ DONE).

End TaskSpec.

Module MoreScenarios.
Import Types DocumentStore StoreOps Scenarios.

(** The cache after the first upload of [Scenarios], and its record. *)
Definition afterOneUpload : list StoredDocumentRecord :=
  (addDocument digest inUploads [] uploadedFiles clock "doc-1" (upload "a.pdf")).2.

Definition firstRecord : StoredDocumentRecord :=
  (addDocument digest inUploads [] uploadedFiles clock "doc-1" (upload "a.pdf")).1.

Definition secondRecord : StoredDocumentRecord :=
  (addDocument digest inUploads afterOneUpload uploadedFiles clock "doc-2"
     (upload "b.pdf")).1.

(** The second upload after its duplicate flag was dismissed. *)
Definition dismissedSecond : StoredDocumentRecord :=
  applyPatch secondRecord (ignorePatch OK) "doc-2" "later".

(** A voucher document of the provider that repeats the invoice number of
    the local document "D1", and date readers for the sample dates. *)
Definition voucherCopy : ImportFlow.LexofficeDocumentPayload :=
  {| ImportFlow.dp_id := "F1";
     ImportFlow.dp_transactionExternalId := Some "B";
     ImportFlow.dp_filename := "Beleg.pdf";
     ImportFlow.dp_url := "blob:1";
     ImportFlow.dp_issuedDate := "2025-01-15";
     ImportFlow.dp_vendor := "Bauhaus";
     ImportFlow.dp_totalAmount := Js.num 100;
     ImportFlow.dp_vatAmount := None;
     ImportFlow.dp_taxCategory := None;
     ImportFlow.dp_invoiceType := OUTGOING;
     ImportFlow.dp_invoiceNumber := Some "INV-1";
     ImportFlow.dp_file := None |}.

Definition sampleYear (s : string) : Z := 2025.
Definition sampleMonth (s : string) : Z := 0.

(** A task list that already holds a closed task for "tx-A". *)
Definition closedTask : TaskItem :=
  {| task_id := "task-tx-A";
     task_title := "Beleg beschaffen";
     task_description := None;
     task_status := DONE;
     task_priority := MEDIUM;
     task_relatedTransactionId := Some "tx-A";
     task_relatedDocumentId := None;
     task_dueDate := None;
     task_createdAt := epoch;
     task_completedAt := Some epoch |}.

(** Two user rules on the vendor; the second one names two keywords. The
    sample host lower-cases ASCII letters and trims nothing. *)
Definition gardenRule : GeminiMore.Rule :=
  {| GeminiMore.rule_id := "rule-1";
     GeminiMore.rule_conditionType := GeminiMore.ByVendor;
     GeminiMore.rule_conditionValue := "obi";
     GeminiMore.rule_invoiceType := INCOMING;
     GeminiMore.rule_resultCategory := "Garten" |}.

Definition toolRule : GeminiMore.Rule :=
  {| GeminiMore.rule_id := "rule-2";
     GeminiMore.rule_conditionType := GeminiMore.ByVendor;
     GeminiMore.rule_conditionValue := "hornbach,bauhaus";
     GeminiMore.rule_invoiceType := INCOMING;
     GeminiMore.rule_resultCategory := "Werkzeug" |}.

Definition textRule : GeminiMore.Rule :=
  {| GeminiMore.rule_id := "rule-3";
     GeminiMore.rule_conditionType := GeminiMore.ByTextContent;
     GeminiMore.rule_conditionValue := "rechnung";
     GeminiMore.rule_invoiceType := OUTGOING;
     GeminiMore.rule_resultCategory := "Einnahmen" |}.

Definition sampleTrim (s : string) : string := s.
Definition sampleLower (s : string) : string := JsText.lowerAlnum s.

End MoreScenarios.

(* ===================================================================== *)
(** ** The primitives on sample values *)
(* ===================================================================== *)

Module JsExamples.

Example Math_round_half_up :
  Js.Math_round (Js.Fin (5 # 2)) = Js.num 3
  ∧ Js.Math_round (Js.Fin (- 5 # 2)) = Js.num (-2)
  ∧ Js.Math_round (Js.Fin (749 # 10)) = Js.num 75
  ∧ Js.Math_round Js.PosInf = Js.PosInf.
Proof. repeat split; vm_compute; reflexivity. Qed.

Example toFixed2_samples :
  Js.toFixed2 (Js.Fin (12345 # 100)) = "123.45"
  ∧ Js.toFixed2 (Js.Fin (1 # 200)) = "0.01"
  ∧ Js.toFixed2 (Js.Fin (- 1 # 1000)) = "-0.00"
  ∧ Js.toFixed2 (Js.num 100) = "100.00"
  ∧ Js.toFixed2 Js.NaN = "NaN".
Proof. repeat split; vm_compute; reflexivity. Qed.

Example includes_samples :
  Js.includes "Keine eindeutige Rechnungsnummer erkannt." "Rechnungsnummer" = true
  ∧ Js.includes "Kein gültiger Bruttobetrag erkannt." "Bestell" = false
  ∧ Js.includes "abc" EmptyString = true.
Proof. repeat split; vm_compute; reflexivity. Qed.

Example truthiness_samples :
  Js.truthy (Some EmptyString) = false
  ∧ Js.truthy (Some "D1") = true
  ∧ Js.truthy None = false
  ∧ Js.truthy_number (Js.num 0) = false
  ∧ Js.truthy_number Js.NaN = false
  ∧ Js.truthy_number (Js.num (-3)) = true.
Proof. repeat split; vm_compute; reflexivity. Qed.

Example JsSet_samples :
  JsSet.of_list ["b"; "a"; "b"; "c"; "a"] = ["b"; "a"; "c"]
  ∧ JsSet.delete "a" ["b"; "a"; "c"] = ["b"; "c"]
  ∧ JsSet.has "c" ["b"; "a"; "c"] = true.
Proof. repeat split; vm_compute; reflexivity. Qed.

End JsExamples.

(* ===================================================================== *)
(** ** Facts about the reconciliation engine *)
(* ===================================================================== *)

Module LexofficeFacts.
Import Types Lexoffice.

Lemma truthy_string_nonempty (s : string) :
  Js.truthy_string s = true ↔ s ≠ EmptyString.
Proof. destruct s; simpl; split; intros; congruence. Qed.

Lemma indexByExternalId_snoc (txs : list AccountingTransaction) tx :
  indexByExternalId (txs ++ [tx])
  = index_step (indexByExternalId txs) (length txs, tx).
Proof.
  unfold indexByExternalId.
  rewrite imap_app, foldl_app. simpl.
  rewrite Nat.add_0_r. reflexivity.
Qed.

(** An indexed id points at a transaction of the list that carries it. *)
Lemma indexByExternalId_Some (txs : list AccountingTransaction) e i :
  indexByExternalId txs !! e = Some i →
  ∃ tx, txs !! i = Some tx ∧ tx_externalId tx = Some e ∧ e ≠ EmptyString.
Proof.
  induction txs as [|tx txs IH] using rev_ind; intros H.
  - unfold indexByExternalId in H. simpl in H. rewrite lookup_empty in H. done.
  - rewrite indexByExternalId_snoc in H. unfold index_step in H. simpl in H.
    assert (Hold : indexByExternalId txs !! e = Some i →
                   ∃ tx0, (txs ++ [tx]) !! i = Some tx0
                          ∧ tx_externalId tx0 = Some e ∧ e ≠ EmptyString).
    { intros H0. destruct (IH H0) as (tx0 & Hl & He & Hne).
      exists tx0. split; [|done].
      rewrite lookup_app_l; [done|]. by eapply lookup_lt_Some. }
    destruct (tx_externalId tx) as [e'|] eqn:Hext; [|by apply Hold].
    destruct (Js.truthy_string e') eqn:Ht; [|by apply Hold].
    destruct (decide (e' = e)) as [->|Hne].
    + rewrite lookup_insert_eq in H. simplify_eq.
      exists tx. split_and!; [|done|by apply truthy_string_nonempty].
      rewrite lookup_app_r; [|lia]. by rewrite Nat.sub_diag.
    + rewrite lookup_insert_ne in H by done. by apply Hold.
Qed.

(** An id is missing from the index exactly when no transaction carries it
    as a truthy [externalId]. *)
Lemma indexByExternalId_None (txs : list AccountingTransaction) e :
  indexByExternalId txs !! e = None ↔
  (e = EmptyString ∨ ∀ tx, tx ∈ txs → tx_externalId tx ≠ Some e).
Proof.
  induction txs as [|tx txs IH] using rev_ind.
  - unfold indexByExternalId. simpl. rewrite lookup_empty.
    split; [|done]. intros _. right. intros tx Htx. by apply elem_of_nil in Htx.
  - rewrite indexByExternalId_snoc. unfold index_step. simpl.
    assert (Hkeep : tx_externalId tx ≠ Some e ∨ e = EmptyString →
              (indexByExternalId txs !! e = None ↔
               (e = EmptyString ∨ ∀ tx0, tx0 ∈ txs ++ [tx] → tx_externalId tx0 ≠ Some e))).
    { intros Hk. rewrite IH. split.
      - intros [->|Hall]; [by left|].
        destruct Hk as [Hk| ->]; [|by left].
        right. intros tx0 [Hin|Hin%list_elem_of_singleton]%elem_of_app; [by apply Hall|by subst].
      - intros [->|Hall]; [by left|]. right. intros tx0 Hin. apply Hall.
        apply elem_of_app. by left. }
    destruct (tx_externalId tx) as [e'|] eqn:Hext; [|by apply Hkeep; left].
    destruct (Js.truthy_string e') eqn:Ht.
    + destruct (decide (e' = e)) as [->|Hne].
      * rewrite lookup_insert_eq. split; [done|].
        intros [->|Hall]; [done|]. exfalso. apply (Hall tx); [|done].
        apply elem_of_app. right. by apply list_elem_of_singleton.
      * rewrite lookup_insert_ne by done. apply Hkeep. left. congruence.
    + destruct (decide (e' = e)) as [->|Hne].
      * apply Hkeep. right. by destruct e.
      * apply Hkeep. left. congruence.
Qed.

(** The index points at the last transaction that carries the id. *)
Lemma indexByExternalId_last (txs : list AccountingTransaction) e i :
  indexByExternalId txs !! e = Some i →
  ∀ j t, i < j → txs !! j = Some t → tx_externalId t ≠ Some e.
Proof.
  induction txs as [|tx txs IH] using rev_ind; intros H j t Hij Hj.
  - by rewrite lookup_nil in Hj.
  - pose proof (indexByExternalId_Some _ _ _ H) as (_ & _ & _ & Hne).
    rewrite indexByExternalId_snoc in H. unfold index_step in H. simpl in H.
    assert (Hold : indexByExternalId txs !! e = Some i →
                   tx_externalId tx ≠ Some e → tx_externalId t ≠ Some e).
    { intros H0 Htx.
      destruct (indexByExternalId_Some _ _ _ H0) as (t0 & Hl0 & _).
      apply lookup_lt_Some in Hl0.
      destruct (decide (j < length txs)) as [Hlt|Hge].
      - rewrite lookup_app_l in Hj by done. exact (IH H0 j t Hij Hj).
      - assert (j = length txs) as ->.
        { apply lookup_lt_Some in Hj. rewrite length_app in Hj. simpl in Hj. lia. }
        rewrite lookup_app_r, Nat.sub_diag in Hj by lia. simpl in Hj.
        by simplify_eq. }
    destruct (tx_externalId tx) as [e'|] eqn:Hext; [|by apply Hold].
    destruct (Js.truthy_string e') eqn:Ht.
    + destruct (decide (e' = e)) as [->|Hd].
      * rewrite lookup_insert_eq in H. simplify_eq.
        apply lookup_lt_Some in Hj. rewrite length_app in Hj. simpl in Hj. lia.
      * rewrite lookup_insert_ne in H by done. apply Hold; [done|congruence].
    + apply Hold; [done|]. intros [= ->].
      apply truthy_string_nonempty in Hne. congruence.
Qed.

(** A non-empty id is indexed at the last transaction that carries it. *)
Lemma indexByExternalId_lookup (txs : list AccountingTransaction) e i t :
  e ≠ EmptyString →
  txs !! i = Some t →
  tx_externalId t = Some e →
  (∀ j t', i < j → txs !! j = Some t' → tx_externalId t' ≠ Some e) →
  indexByExternalId txs !! e = Some i.
Proof.
  intros Hne Hi He Hlast.
  destruct (indexByExternalId txs !! e) as [i'|] eqn:Hidx.
  - destruct (indexByExternalId_Some _ _ _ Hidx) as (t' & Hi' & He' & _).
    pose proof (indexByExternalId_last _ _ _ Hidx) as Hlast'.
    destruct (Nat.lt_trichotomy i i') as [Hlt|[->|Hgt]]; [|done|].
    + exfalso. by apply (Hlast i' t').
    + exfalso. by apply (Hlast' i t).
  - apply indexByExternalId_None in Hidx as [?|Hnone]; [done|].
    exfalso. apply (Hnone t); [|done]. by eapply list_elem_of_lookup_2.
Qed.

End LexofficeFacts.

Module LexofficeLoop.
Import Types Lexoffice LexofficeFacts.

Lemma upsert_loop_cons index_map linked now st p ps :
  upsert_loop index_map linked now st (p :: ps)
  = upsert_payload index_map linked now st p
      ≫= λ st1, upsert_loop index_map linked now st1 ps.
Proof.
  unfold upsert_loop. simpl.
  destruct (upsert_payload index_map linked now st p) as [st1|]; simpl; [done|].
  induction ps as [|q qs IH]; simpl; done.
Qed.

Lemma upsert_payload_insert index_map linked now st p :
  index_map !! p_id p = None →
  ∃ st1, upsert_payload index_map linked now st p = Some st1
    ∧ updatedTransactions st1
      = updatedTransactions st
        ++ [newTransaction p (lookupDocumentId linked p)
              (statusOf (lookupDocumentId linked p)) now]
    ∧ imported st1 = S (imported st) ∧ updated st1 = updated st
    ∧ skipped st1 = skipped st.
Proof.
  intros H. unfold upsert_payload. rewrite H. eexists. split; [done|]. done.
Qed.

Lemma upsert_payload_update index_map linked now st p i existing :
  index_map !! p_id p = Some i →
  updatedTransactions st !! i = Some existing →
  ∃ st1, upsert_payload index_map linked now st p = Some st1
    ∧ updatedTransactions st1
      = <[i := updateExisting existing p (lookupDocumentId linked p)
                 (statusOf (lookupDocumentId linked p)) now]>
          (updatedTransactions st)
    ∧ imported st1 = imported st ∧ updated st1 = S (updated st)
    ∧ skipped st1 = skipped st.
Proof.
  intros H Hl. unfold upsert_payload. rewrite H, Hl. simpl.
  eexists. split; [done|]. done.
Qed.

(** The loop never fails on a working copy that covers the index, and its
    outcome is the old list, corrected in place, followed by one fresh
    record per payload the index does not know. *)
Lemma upsert_loop_spec index_map linked now incoming :
  ∀ st,
    (∀ e i, index_map !! e = Some i → i < length (updatedTransactions st)) →
    ∃ st', upsert_loop index_map linked now st incoming = Some st'
      ∧ imported st' = imported st + length (inserts index_map incoming)
      ∧ imported st' + updated st' = imported st + updated st + length incoming
      ∧ skipped st' = skipped st
      ∧ tx_id <$> updatedTransactions st'
        = (tx_id <$> updatedTransactions st)
          ++ ((λ p, "tx-" +:+ p_id p) <$> inserts index_map incoming)
      ∧ tx_externalId <$> updatedTransactions st'
        = (tx_externalId <$> updatedTransactions st)
          ++ ((λ p, Some (p_id p)) <$> inserts index_map incoming).
Proof.
  induction incoming as [|p ps IH]; intros st Hcover.
  - exists st. unfold upsert_loop, inserts. simpl.
    rewrite !app_nil_r. split_and!; try done; lia.
  - rewrite upsert_loop_cons. unfold inserts. rewrite filter_cons.
    destruct (index_map !! p_id p) as [i|] eqn:Hidx.
    + destruct (lookup_lt_is_Some_2 (updatedTransactions st) i) as [existing Hex];
        [by eapply Hcover|].
      destruct (upsert_payload_update index_map linked now st p i existing Hidx Hex)
        as (st1 & -> & Htx & Himp & Hupd & Hskip).
      simpl.
      destruct (IH st1) as (st' & Hrun & Hi & Hsum & Hs & Hids & Hexts).
      { intros e j Hj. rewrite Htx, length_insert. by eapply Hcover. }
      exists st'.
      split; [done|]. fold (inserts index_map ps).
      rewrite Hi, Hs, Hids, Hexts, Htx, Himp, Hskip, !list_fmap_insert.
      simpl. rewrite !list_insert_id by (by rewrite list_lookup_fmap, Hex).
      split_and!; try done. simpl. lia.
    + destruct (upsert_payload_insert index_map linked now st p Hidx)
        as (st1 & -> & Htx & Himp & Hupd & Hskip).
      simpl.
      destruct (IH st1) as (st' & Hrun & Hi & Hsum & Hs & Hids & Hexts).
      { intros e j Hj. rewrite Htx, length_app. specialize (Hcover e j Hj). lia. }
      exists st'.
      split; [done|]. fold (inserts index_map ps).
      rewrite Hi, Hs, Hids, Hexts, Htx, Himp, Hskip, !fmap_app.
      simpl. rewrite <- !app_assoc. simpl.
      split_and!; try done; simpl; lia.
Qed.

(** The engine proper: it always returns. *)
Lemma upsert_spec incoming existing linked now :
  ∃ r, upsertTransactionsFromLexoffice incoming existing linked now = Some r
    ∧ imported r = length (inserts (indexByExternalId existing) incoming)
    ∧ imported r + updated r = length incoming
    ∧ skipped r = 0
    ∧ tx_id <$> updatedTransactions r
      = (tx_id <$> existing)
        ++ ((λ p, "tx-" +:+ p_id p) <$> inserts (indexByExternalId existing) incoming)
    ∧ tx_externalId <$> updatedTransactions r
      = (tx_externalId <$> existing)
        ++ ((λ p, Some (p_id p)) <$> inserts (indexByExternalId existing) incoming).
Proof.
  unfold upsertTransactionsFromLexoffice.
  destruct (upsert_loop_spec (indexByExternalId existing) linked now incoming
              {| updatedTransactions := existing; notifications := [];
                 imported := 0; updated := 0; skipped := 0; missingReceipts := 0 |})
    as (r & Hrun & Hi & Hsum & Hs & Hids & Hexts).
  { intros e i Hi. simpl.
    destruct (indexByExternalId_Some existing e i Hi) as (tx & Hl & _).
    by eapply lookup_lt_Some. }
  exists r. simpl in *. split_and!; try done.
Qed.

End LexofficeLoop.

Module LexofficeCounts.
Import Types Lexoffice LexofficeFacts LexofficeLoop.

Lemma upsert_loop_frame index_map linked now incoming :
  ∀ st st' i,
    upsert_loop index_map linked now st incoming = Some st' →
    i < length (updatedTransactions st) →
    (∀ p, p ∈ incoming → index_map !! p_id p ≠ Some i) →
    updatedTransactions st' !! i = updatedTransactions st !! i.
Proof.
  induction incoming as [|p ps IH]; intros st st' i Hrun Hi Hfree.
  - unfold upsert_loop in Hrun. simpl in Hrun. by simplify_eq.
  - rewrite upsert_loop_cons in Hrun.
    destruct (upsert_payload index_map linked now st p) as [st1|] eqn:Hstep;
      simpl in Hrun; [|done].
    assert (Hp : index_map !! p_id p ≠ Some i) by (apply Hfree; left).
    assert (Hrest : ∀ q, q ∈ ps → index_map !! p_id q ≠ Some i)
      by (intros q Hq; apply Hfree; by right).
    unfold upsert_payload in Hstep.
    destruct (index_map !! p_id p) as [j|] eqn:Hidx.
    + destruct (updatedTransactions st !! j) as [existing|] eqn:Hex;
        simpl in Hstep; [|done].
      simplify_eq.
      rewrite (IH _ st' i Hrun); simpl.
      * apply list_lookup_insert_ne. congruence.
      * by rewrite length_insert.
      * done.
    + simplify_eq.
      rewrite (IH _ st' i Hrun); simpl.
      * by apply lookup_app_l.
      * rewrite length_app. lia.
      * done.
Qed.

Lemma countExternalId_none e (txs : list AccountingTransaction) :
  (∀ tx, tx ∈ txs → tx_externalId tx ≠ Some e) → countExternalId e txs = 0.
Proof.
  unfold countExternalId. induction txs as [|tx txs IH]; intros H; [done|].
  rewrite fmap_cons, filter_cons.
  rewrite decide_False by (apply H; left).
  apply IH. intros tx0 Hin. apply H. by right.
Qed.

Lemma countExternalId_some e (txs : list AccountingTransaction) tx :
  tx ∈ txs → tx_externalId tx = Some e → 1 ≤ countExternalId e txs.
Proof.
  unfold countExternalId. induction txs as [|tx0 txs IH]; intros Hin He.
  - by apply elem_of_nil in Hin.
  - rewrite fmap_cons, filter_cons.
    apply elem_of_cons in Hin as [->|Hin].
    + rewrite decide_True by done. simpl. lia.
    + specialize (IH Hin He). case_decide; simpl; lia.
Qed.

Lemma countExternalId_pos e (txs : list AccountingTransaction) :
  1 ≤ countExternalId e txs → ∃ tx, tx ∈ txs ∧ tx_externalId tx = Some e.
Proof.
  unfold countExternalId. induction txs as [|tx0 txs IH]; simpl; [lia|].
  rewrite filter_cons. case_decide as Hd.
  - intros _. exists tx0. split; [left|done].
  - intros H. destruct (IH H) as (tx & Hin & He). exists tx. split; [by right|done].
Qed.

(** Of the fresh records of one call, those that carry the id [e]. *)
Lemma count_inserts index_map e (batch : list LexofficeTransactionPayload) :
  length (filter (λ o, o = Some e) ((λ p, Some (p_id p)) <$> inserts index_map batch))
  = match index_map !! e with
    | Some _ => 0
    | None => countPayloadId e batch
    end.
Proof.
  unfold inserts, countPayloadId.
  induction batch as [|q qs IH].
  - simpl. by destruct (index_map !! e).
  - rewrite !filter_cons.
    destruct (decide (p_id q = e)) as [<-|Hne].
    + destruct (index_map !! p_id q) as [j|] eqn:Hq.
      * rewrite decide_False by done. exact IH.
      * rewrite decide_True by done. rewrite fmap_cons, filter_cons.
        rewrite decide_True by done. simpl. by rewrite IH.
    + case_decide.
      * rewrite fmap_cons, filter_cons.
        rewrite decide_False by congruence. exact IH.
      * exact IH.
Qed.

(** The census of an id after one call of the engine. *)
Lemma countExternalId_upsert e incoming existing linked now r :
  upsertTransactionsFromLexoffice incoming existing linked now = Some r →
  countExternalId e (updatedTransactions r)
  = countExternalId e existing
    + match indexByExternalId existing !! e with
      | Some _ => 0
      | None => countPayloadId e incoming
      end.
Proof.
  intros Hrun.
  destruct (upsert_spec incoming existing linked now)
    as (r' & Hrun' & _ & _ & _ & _ & Hexts).
  rewrite Hrun in Hrun'. simplify_eq.
  unfold countExternalId at 1. rewrite Hexts, filter_app, length_app.
  by rewrite count_inserts.
Qed.

End LexofficeCounts.

Module LexofficeExact.
Import Types Lexoffice LexofficeFacts LexofficeLoop.

Lemma filter_is_nil {A} (P : A → Prop) `{∀ x, Decision (P x)} (l : list A) :
  (∀ x, x ∈ l → ¬ P x) → filter P l = [].
Proof.
  induction l as [|x l IH]; intros Hnone; [done|].
  rewrite filter_cons, decide_False by (apply Hnone; left).
  apply IH. intros y Hy. apply Hnone. by right.
Qed.

Lemma filter_same {A} (P Q : A → Prop) `{∀ x, Decision (P x)}
    `{∀ x, Decision (Q x)} (l : list A) :
  (∀ x, x ∈ l → P x ↔ Q x) → filter P l = filter Q l.
Proof.
  induction l as [|x l IH]; intros Hiff; [done|].
  rewrite !filter_cons.
  assert (Hx : P x ↔ Q x) by (apply Hiff; left).
  assert (Hl : filter P l = filter Q l)
    by (apply IH; intros y Hy; apply Hiff; by right).
  destruct (decide (P x)), (decide (Q x)); rewrite ?Hl; tauto.
Qed.

Lemma inserts_known index_map (p : LexofficeTransactionPayload) ps i :
  index_map !! p_id p = Some i →
  inserts index_map (p :: ps) = inserts index_map ps.
Proof.
  intros H. unfold inserts. rewrite filter_cons, decide_False; [done|].
  by rewrite H.
Qed.

Lemma inserts_unknown_cons index_map (p : LexofficeTransactionPayload) ps :
  index_map !! p_id p = None →
  inserts index_map (p :: ps) = p :: inserts index_map ps.
Proof.
  intros H. unfold inserts. by rewrite filter_cons, decide_True.
Qed.

Section Corrections.
Variable linked : gmap string string.
Variable now : Js.Date.

(** One correction of a known transaction by a payload, and the record a
    payload is inserted as. *)
Let correct (tx : AccountingTransaction) (p : LexofficeTransactionPayload) :=
  updateExisting tx p (lookupDocumentId linked p)
    (statusOf (lookupDocumentId linked p)) now.

Let fresh (p : LexofficeTransactionPayload) :=
  newTransaction p (lookupDocumentId linked p)
    (statusOf (lookupDocumentId linked p)) now.

Lemma corrections_keep (ps : list LexofficeTransactionPayload) :
  ∀ tx,
    tx_id (foldl correct tx ps) = tx_id tx
    ∧ tx_externalId (foldl correct tx ps) = tx_externalId tx
    ∧ tx_notes (foldl correct tx ps) = tx_notes tx
    ∧ tx_createdAt (foldl correct tx ps) = tx_createdAt tx
    ∧ tx_documentId (foldl correct tx ps)
      = foldl (λ d q, match lookupDocumentId linked q with
                      | Some s => Some s
                      | None => d
                      end) (tx_documentId tx) ps.
Proof.
  induction ps as [|p ps IH]; intros tx; [done|].
  simpl. destruct (IH (correct tx p)) as (-> & -> & -> & -> & ->). done.
Qed.

(** The loop, exactly: every position of the working copy is corrected by
    the payloads the index sends there, in batch order, and one fresh
    record per payload the index does not know is appended. *)
Lemma upsert_loop_exact index_map incoming :
  ∀ st,
    (∀ e i, index_map !! e = Some i → i < length (updatedTransactions st)) →
    ∃ st', upsert_loop index_map linked now st incoming = Some st'
      ∧ updatedTransactions st'
        = imap (λ i tx,
                  foldl correct tx
                    (filter (λ p, index_map !! p_id p = Some i) incoming))
               (updatedTransactions st)
          ++ (fresh <$> inserts index_map incoming).
Proof.
  induction incoming as [|p ps IH]; intros st Hcover.
  - exists st. split; [done|]. unfold inserts. rewrite !filter_nil. simpl.
    rewrite app_nil_r. apply list_eq. intros i.
    rewrite list_lookup_imap. by destruct (updatedTransactions st !! i).
  - rewrite upsert_loop_cons.
    destruct (index_map !! p_id p) as [i|] eqn:Hidx.
    + destruct (lookup_lt_is_Some_2 (updatedTransactions st) i) as [existing Hex];
        [by eapply Hcover|].
      destruct (upsert_payload_update index_map linked now st p i existing Hidx Hex)
        as (st1 & -> & Htx & _).
      simpl.
      destruct (IH st1) as (st' & Hrun & Hlist).
      { intros e j Hj. rewrite Htx, length_insert. by eapply Hcover. }
      exists st'. split; [done|]. rewrite Hlist, Htx.
      rewrite (inserts_known _ _ _ _ Hidx). f_equal.
      apply list_eq. intros j. rewrite !list_lookup_imap.
      destruct (decide (j = i)) as [->|Hji].
      * rewrite list_lookup_insert_eq by (by eapply lookup_lt_Some).
        rewrite Hex. simpl. rewrite filter_cons, decide_True by done. done.
      * rewrite list_lookup_insert_ne by done.
        destruct (updatedTransactions st !! j) as [tx|]; [|done]. simpl.
        rewrite filter_cons, decide_False by congruence. done.
    + destruct (upsert_payload_insert index_map linked now st p Hidx)
        as (st1 & -> & Htx & _).
      simpl.
      destruct (IH st1) as (st' & Hrun & Hlist).
      { intros e j Hj. rewrite Htx, length_app. specialize (Hcover e j Hj). lia. }
      exists st'. split; [done|]. rewrite Hlist, Htx.
      rewrite (inserts_unknown_cons _ _ _ Hidx).
      rewrite imap_app. simpl. rewrite <- app_assoc. simpl. f_equal.
      * apply imap_ext. intros j tx _. simpl.
        rewrite filter_cons, decide_False by congruence. done.
      * f_equal. rewrite filter_is_nil; [done|].
        intros q _ Hq. specialize (Hcover _ _ Hq). lia.
Qed.

(** The engine, exactly. *)
Lemma upsert_exact incoming existing :
  ∃ r, upsertTransactionsFromLexoffice incoming existing linked now = Some r
    ∧ updatedTransactions r
      = imap (λ i tx,
                foldl correct tx
                  (filter (λ p, indexByExternalId existing !! p_id p = Some i)
                     incoming))
             existing
        ++ (fresh <$> inserts (indexByExternalId existing) incoming).
Proof.
  unfold upsertTransactionsFromLexoffice.
  destruct (upsert_loop_exact (indexByExternalId existing) incoming
              {| updatedTransactions := existing; notifications := [];
                 imported := 0; updated := 0; skipped := 0; missingReceipts := 0 |})
    as (r & Hrun & Hlist).
  { intros e i Hi. simpl.
    destruct (indexByExternalId_Some existing e i Hi) as (tx & Hl & _).
    by eapply lookup_lt_Some. }
  exists r. split; [done|]. exact Hlist.
Qed.

(** The payloads the engine inserts are those with an empty id or an id
    that no transaction of the list carries. *)
Lemma inserts_unknown incoming existing :
  inserts (indexByExternalId existing) incoming
  = filter (λ p, p_id p = EmptyString
                 ∨ Forall (λ tx, tx_externalId tx ≠ Some (p_id p)) existing)
      incoming.
Proof.
  unfold inserts. apply filter_same. intros p _.
  rewrite indexByExternalId_None, Forall_forall. done.
Qed.

(** What becomes of a transaction of the list. *)
Lemma upsert_old_position incoming existing r i tx :
  upsertTransactionsFromLexoffice incoming existing linked now = Some r →
  existing !! i = Some tx →
  updatedTransactions r !! i
  = Some (foldl correct tx
            (filter (λ p, indexByExternalId existing !! p_id p = Some i)
               incoming)).
Proof.
  intros Hrun Hi.
  destruct (upsert_exact incoming existing) as (r' & Hrun' & Hlist).
  rewrite Hrun in Hrun'. simplify_eq.
  rewrite Hlist, lookup_app_l.
  - by rewrite list_lookup_imap, Hi.
  - rewrite length_imap. by eapply lookup_lt_Some.
Qed.

Lemma upsert_appended incoming existing r :
  upsertTransactionsFromLexoffice incoming existing linked now = Some r →
  drop (length existing) (updatedTransactions r)
  = fresh <$> inserts (indexByExternalId existing) incoming.
Proof.
  intros Hrun.
  destruct (upsert_exact incoming existing) as (r' & Hrun' & Hlist).
  rewrite Hrun in Hrun'. simplify_eq.
  rewrite Hlist. apply drop_app_length'. by rewrite length_imap.
Qed.

End Corrections.

End LexofficeExact.

(* ===================================================================== *)
(** ** The reconciliation engine: the claims *)
(* ===================================================================== *)

Module LexofficeClaims.
Import Types Lexoffice LexofficeFacts LexofficeLoop LexofficeCounts LexofficeExact.
Import Scenarios.

(** C6. Every call returns, and its outcome is fixed payload by payload.
    Each payload is counted as exactly one insert or one update
    ([imported + updated] is the size of the batch) and [skipped] stays 0.
    The inserts are the payloads whose id is empty or carried by no
    transaction of the list: behind the old list stands one fresh record
    for each of them, in batch order, with the fields of its payload.
    Every transaction that was there before is still at its position with
    its [id], [externalId], [notes] and [createdAt]; it is untouched when
    no payload names its [externalId] or when a later transaction of the
    list carries the same one, and otherwise -- it is the last carrier of a
    non-empty id that the batch names -- it holds the fields of the last
    payload with that id (the document link of the latest such payload
    that has one, else its own). *)
Theorem C6_additive_never_destructive
    (incoming : list LexofficeTransactionPayload)
    (existing : list AccountingTransaction)
    (linked : gmap string string) (now : Js.Date) :
  ∃ r, upsertTransactionsFromLexoffice incoming existing linked now = Some r
    ∧ imported r + updated r = length incoming
    ∧ skipped r = 0
    ∧ length (updatedTransactions r) = length existing + imported r
    ∧ imported r
      = length (filter (λ p, p_id p = EmptyString
                             ∨ Forall (λ tx, tx_externalId tx ≠ Some (p_id p))
                                 existing) incoming)
    ∧ drop (length existing) (updatedTransactions r)
      = (λ p,
           {| tx_id := "tx-" +:+ p_id p;
              tx_externalId := Some (p_id p);
              tx_date := Js.DateOfString (p_date p);
              tx_description := p_description p;
              tx_amount := p_amount p;
              tx_invoiceType := p_invoiceType p;
              tx_taxCategory := p_taxCategory p;
              tx_documentId := lookupDocumentId linked p;
              tx_status :=
                if Js.truthy (lookupDocumentId linked p)
                then COMPLETE else MISSING_RECEIPT;
              tx_source := LEXOFFICE;
              tx_notes :=
                match p_invoiceNumber p with
                | Some n =>
                    if Js.truthy_string n then Some ("Lexoffice Nr. " +:+ n)
                    else None
                | None => None
                end;
              tx_createdAt := now;
              tx_updatedAt := now |})
        <$> filter (λ p, p_id p = EmptyString
                         ∨ Forall (λ tx, tx_externalId tx ≠ Some (p_id p))
                             existing) incoming
    ∧ ∀ i tx, existing !! i = Some tx →
        ∃ tx', updatedTransactions r !! i = Some tx'
          ∧ tx_id tx' = tx_id tx
          ∧ tx_externalId tx' = tx_externalId tx
          ∧ tx_notes tx' = tx_notes tx
          ∧ tx_createdAt tx' = tx_createdAt tx
          ∧ ((∀ p, p ∈ incoming → tx_externalId tx ≠ Some (p_id p)) → tx' = tx)
          ∧ ((∃ j t, i < j ∧ existing !! j = Some t
                     ∧ tx_externalId t = tx_externalId tx) → tx' = tx)
          ∧ ∀ before p after,
              incoming = before ++ p :: after →
              p_id p ≠ EmptyString →
              tx_externalId tx = Some (p_id p) →
              (∀ j t, i < j → existing !! j = Some t →
                      tx_externalId t ≠ Some (p_id p)) →
              (∀ q, q ∈ after → p_id q ≠ p_id p) →
              tx' = {| tx_id := tx_id tx;
                       tx_externalId := tx_externalId tx;
                       tx_date := Js.DateOfString (p_date p);
                       tx_description := p_description p;
                       tx_amount := p_amount p;
                       tx_invoiceType := p_invoiceType p;
                       tx_taxCategory := p_taxCategory p;
                       tx_documentId :=
                         foldl (λ d q, match lookupDocumentId linked q with
                                       | Some s => Some s
                                       | None => d
                                       end)
                               (tx_documentId tx)
                               (filter (λ q, p_id q = p_id p) incoming);
                       tx_status :=
                         if Js.truthy (lookupDocumentId linked p)
                         then COMPLETE else MISSING_RECEIPT;
                       tx_source := LEXOFFICE;
                       tx_notes := tx_notes tx;
                       tx_createdAt := tx_createdAt tx;
                       tx_updatedAt := now |}.
Proof.
  destruct (upsert_spec incoming existing linked now)
    as (r & Hrun & Himp & Hsum & Hskip & Hids & Hexts).
  exists r. split; [done|]. split; [done|]. split; [done|].
  split.
  { apply (f_equal length) in Hids.
    rewrite length_app, !length_fmap in Hids. lia. }
  split.
  { by rewrite Himp, inserts_unknown. }
  split.
  { rewrite (upsert_appended linked now _ _ _ Hrun), inserts_unknown.
    reflexivity. }
  intros i tx Hi.
  pose proof (upsert_old_position linked now _ _ _ _ _ Hrun Hi) as Hat.
  cbv zeta in Hat.
  set (hits := filter (λ p, indexByExternalId existing !! p_id p = Some i)
                 incoming) in Hat.
  destruct (corrections_keep linked now hits tx)
    as (Kid & Kext & Knotes & Kcreated & Kdoc).
  cbv zeta in Kid, Kext, Knotes, Kcreated, Kdoc.
  eexists. split; [exact Hat|].
  split; [exact Kid|]. split; [exact Kext|].
  split; [exact Knotes|]. split; [exact Kcreated|].
  assert (Hhit : ∀ q, indexByExternalId existing !! p_id q = Some i →
                      tx_externalId tx = Some (p_id q) ∧ p_id q ≠ EmptyString).
  { intros q Hq.
    destruct (indexByExternalId_Some existing _ _ Hq) as (t & Hl & He & Hne).
    rewrite Hi in Hl. by simplify_eq. }
  split; [|split].
  - intros Hfree.
    assert (hits = []) as ->; [|done].
    apply filter_is_nil. intros q Hq Hidx.
    apply (Hfree q Hq). by apply Hhit.
  - intros (j & t & Hij & Hj & Hsame).
    assert (hits = []) as ->; [|done].
    apply filter_is_nil. intros q Hq Hidx.
    destruct (Hhit q Hidx) as [He _].
    apply (indexByExternalId_last _ _ _ Hidx j t Hij Hj). congruence.
  - intros before p after Hsplit Hne Hext Hlast Hafter.
    assert (Hidx : indexByExternalId existing !! p_id p = Some i)
      by (by eapply indexByExternalId_lookup).
    assert (Hsame : hits = filter (λ q, p_id q = p_id p) incoming).
    { apply filter_same. intros q _. split.
      - intros Hq. destruct (Hhit q Hq) as [He _]. congruence.
      - intros Hq. by rewrite Hq. }
    assert (Hlist : filter (λ q, p_id q = p_id p) incoming
                    = filter (λ q, p_id q = p_id p) before ++ [p]).
    { rewrite Hsplit, filter_app, filter_cons, decide_True by done.
      rewrite (filter_is_nil _ after); [done|].
      intros q Hq. by apply Hafter. }
    rewrite Hsame, Hlist, !foldl_app. cbn [foldl].
    destruct (corrections_keep linked now
                (filter (λ q, p_id q = p_id p) before) tx)
      as (Bid & Bext & Bnotes & Bcreated & Bdoc).
    cbv zeta in Bid, Bext, Bnotes, Bcreated, Bdoc.
    set (prev := foldl _ tx (filter _ before)) in *.
    unfold updateExisting, statusOf, nullish.
    rewrite Bid, Bext, Bnotes, Bcreated, Bdoc. reflexivity.
Qed.

(** C9. Two payloads of one batch share an id that no transaction of the
    list carries yet: both are inserted, as two records with the same
    local id [tx-<externalId>], and the call reports [imported = 2]. *)
Theorem C9_same_id_twice_in_one_batch
    (p1 p2 : LexofficeTransactionPayload)
    (existing : list AccountingTransaction)
    (linked : gmap string string) (now : Js.Date) :
  p_id p1 = p_id p2 →
  (∀ tx, tx ∈ existing → tx_externalId tx ≠ Some (p_id p1)) →
  ∃ r t1 t2,
    upsertTransactionsFromLexoffice [p1; p2] existing linked now = Some r
    ∧ updatedTransactions r = existing ++ [t1; t2]
    ∧ tx_id t1 = "tx-" +:+ p_id p1 ∧ tx_id t2 = "tx-" +:+ p_id p1
    ∧ tx_externalId t1 = Some (p_id p1) ∧ tx_externalId t2 = Some (p_id p1)
    ∧ imported r = 2 ∧ updated r = 0.
Proof.
  intros Hsame Hnew.
  assert (H1 : indexByExternalId existing !! p_id p1 = None)
    by (apply indexByExternalId_None; by right).
  assert (H2 : indexByExternalId existing !! p_id p2 = None) by (by rewrite <- Hsame).
  unfold upsertTransactionsFromLexoffice, upsert_loop. simpl.
  unfold upsert_payload at 2. rewrite H1. simpl.
  unfold upsert_payload. rewrite H2. simpl.
  eexists _, _, _. split; [done|]. simpl.
  rewrite <- app_assoc. simpl. split; [reflexivity|]. simpl.
  rewrite <- Hsame. split_and!; done.
Qed.

Lemma C9_witness :
  ∃ r t1 t2,
    upsertTransactionsFromLexoffice [payload "A" None; payload "A" None] []
      ∅ epoch = Some r
    ∧ updatedTransactions r = [] ++ [t1; t2]
    ∧ tx_id t1 = "tx-A" ∧ tx_id t2 = "tx-A"
    ∧ tx_externalId t1 = Some "A" ∧ tx_externalId t2 = Some "A"
    ∧ imported r = 2 ∧ updated r = 0.
Proof.
  apply (C9_same_id_twice_in_one_batch (payload "A" None) (payload "A" None) [] ∅ epoch).
  - reflexivity.
  - intros tx Hin. by apply elem_of_nil in Hin.
Defined.

(** C2, as stated, fails in three ways, each leaving two transactions
    with the payload's [externalId] after the second call: a batch that
    holds the payload twice (both are inserted, see C9); a payload with an
    empty id (never indexed, so it is inserted by both calls, and the
    second call reports [imported = 1], [updated = 0]); a list that
    already holds the id twice. *)
Lemma C2_counterexample_two_transactions_remain :
  (payload "A" None ∈ [payload "A" None; payload "A" None]
   ∧ ∃ r1 r2,
       upsertTransactionsFromLexoffice [payload "A" None; payload "A" None] []
         ∅ epoch = Some r1
       ∧ upsertTransactionsFromLexoffice [payload "A" None]
           (updatedTransactions r1) ∅ epoch = Some r2
       ∧ updated r2 = 1 ∧ imported r2 = 0
       ∧ countExternalId "A" (updatedTransactions r2) = 2)
  ∧ (payload EmptyString None ∈ [payload EmptyString None]
     ∧ ∃ r1 r2,
         upsertTransactionsFromLexoffice [payload EmptyString None] []
           ∅ epoch = Some r1
         ∧ upsertTransactionsFromLexoffice [payload EmptyString None]
             (updatedTransactions r1) ∅ epoch = Some r2
         ∧ updated r2 = 0 ∧ imported r2 = 1
         ∧ countExternalId EmptyString (updatedTransactions r2) = 2)
  ∧ (payload "A" None ∈ [payload "A" None]
     ∧ ∃ r1 r2,
         upsertTransactionsFromLexoffice [payload "A" None]
           [transaction "tx-A" (Some "A") None MISSING_RECEIPT;
            transaction "tx-A" (Some "A") None MISSING_RECEIPT]
           ∅ epoch = Some r1
         ∧ upsertTransactionsFromLexoffice [payload "A" None]
             (updatedTransactions r1) ∅ epoch = Some r2
         ∧ updated r2 = 1 ∧ imported r2 = 0
         ∧ countExternalId "A" (updatedTransactions r2) = 2).
Proof.
  split; [|split];
    (split; [left|];
     eexists _, _; split; [vm_compute; reflexivity|];
     split; [vm_compute; reflexivity|]; vm_compute; done).
Qed.

(** C2, amended. For a payload [p] of the batch, importing the batch and
    then [p] again leaves exactly one transaction with that [externalId],
    the second call reporting [updated = 1] and [imported = 0], if and
    only if the id of [p] is not empty and the list before the first
    import held that [externalId] exactly once, or not at all while the
    batch holds the id exactly once. *)
Theorem C2_reimport_is_one_update
    (p : LexofficeTransactionPayload)
    (batch : list LexofficeTransactionPayload)
    (existing : list AccountingTransaction)
    (linked1 linked2 : gmap string string) (now1 now2 : Js.Date) :
  p ∈ batch →
  ∃ r1 r2,
    upsertTransactionsFromLexoffice batch existing linked1 now1 = Some r1
    ∧ upsertTransactionsFromLexoffice [p] (updatedTransactions r1) linked2 now2
      = Some r2
    ∧ ((countExternalId (p_id p) (updatedTransactions r2) = 1
        ∧ updated r2 = 1
        ∧ imported r2 = 0)
       ↔ (p_id p ≠ EmptyString
          ∧ (countExternalId (p_id p) existing = 1
             ∨ (countExternalId (p_id p) existing = 0
                ∧ countPayloadId (p_id p) batch = 1)))).
Proof.
  intros Hin.
  destruct (upsert_spec batch existing linked1 now1) as (r1 & Hrun1 & _).
  destruct (upsert_spec [p] (updatedTransactions r1) linked2 now2)
    as (r2 & Hrun2 & Himp2 & Hsum2 & _).
  exists r1, r2. split; [done|]. split; [done|].
  pose proof (countExternalId_upsert (p_id p) _ _ _ _ _ Hrun1) as Hc1.
  pose proof (countExternalId_upsert (p_id p) _ _ _ _ _ Hrun2) as Hc2.
  assert (Hbatch : 1 ≤ countPayloadId (p_id p) batch).
  { unfold countPayloadId.
    assert (Hp : p ∈ filter (λ q, p_id q = p_id p) batch)
      by (by apply list_elem_of_filter).
    destruct (filter _ batch); [by apply elem_of_nil in Hp|simpl; lia]. }
  assert (Hone : countPayloadId (p_id p) [p] = 1).
  { unfold countPayloadId. by rewrite filter_cons, decide_True. }
  rewrite Hone in Hc2. simpl in Hsum2.
  assert (Hknown : ∀ txs, p_id p ≠ EmptyString →
            1 ≤ countExternalId (p_id p) txs →
            ∃ i, indexByExternalId txs !! p_id p = Some i).
  { intros txs Hne Hcount.
    destruct (countExternalId_pos _ _ Hcount) as (tx & Htx & He).
    destruct (indexByExternalId txs !! p_id p) as [i|] eqn:Hidx; [by exists i|].
    apply indexByExternalId_None in Hidx as [?|Hnone]; [done|].
    exfalso. by apply (Hnone tx Htx). }
  assert (Hins : ∀ i, indexByExternalId (updatedTransactions r1) !! p_id p = Some i →
            inserts (indexByExternalId (updatedTransactions r1)) [p] = []).
  { intros i Hi. unfold inserts. rewrite filter_cons, decide_False; [done|].
    by rewrite Hi. }
  split.
  - intros (Hcount & Hupd & Himp).
    destruct (indexByExternalId (updatedTransactions r1) !! p_id p) as [i2|] eqn:Hidx2.
    + destruct (indexByExternalId_Some _ _ _ Hidx2) as (_ & _ & _ & Hne).
      split; [done|].
      destruct (indexByExternalId existing !! p_id p) as [i1|] eqn:Hidx1.
      * left. lia.
      * right. apply indexByExternalId_None in Hidx1 as [?|Hnone]; [done|].
        rewrite (countExternalId_none _ _ Hnone) in Hc1 |- *. lia.
    + exfalso. unfold inserts in Himp2.
      rewrite filter_cons, decide_True in Himp2 by done. simpl in Himp2. lia.
  - intros (Hne & Hcases).
    assert (Hr1 : countExternalId (p_id p) (updatedTransactions r1) = 1).
    { destruct Hcases as [Hold|[Hold Hb]].
      - destruct (Hknown existing Hne) as [i Hi]; [lia|].
        rewrite Hi in Hc1. lia.
      - destruct (indexByExternalId existing !! p_id p) as [i|] eqn:Hidx.
        + destruct (indexByExternalId_Some _ _ _ Hidx) as (tx & Hl & He & _).
          pose proof (countExternalId_some (p_id p) existing tx
                        (list_elem_of_lookup_2 _ _ _ Hl) He).
          lia.
        + lia. }
    destruct (Hknown (updatedTransactions r1) Hne) as [i Hi]; [lia|].
    rewrite Hi in Hc2. rewrite (Hins i Hi) in Himp2. simpl in Himp2. lia.
Qed.

Lemma C2_witness :
  ∃ r1 r2,
    upsertTransactionsFromLexoffice [payload "A" None; payload "A" None]
      linkedTransactions ∅ epoch = Some r1
    ∧ upsertTransactionsFromLexoffice [payload "A" None] (updatedTransactions r1)
        ∅ epoch = Some r2
    ∧ countExternalId "A" (updatedTransactions r2) = 1
    ∧ updated r2 = 1
    ∧ imported r2 = 0.
Proof.
  destruct (C2_reimport_is_one_update (payload "A" None)
              [payload "A" None; payload "A" None] linkedTransactions
              ∅ ∅ epoch epoch) as (r1 & r2 & Hrun1 & Hrun2 & Hiff).
  - left.
  - exists r1, r2. split; [exact Hrun1|]. split; [exact Hrun2|].
    apply Hiff. split; [simpl; discriminate|].
    left. vm_compute. reflexivity.
Defined.

End LexofficeClaims.

(* ===================================================================== *)
(** ** Facts about the reactive passes *)
(* ===================================================================== *)

Module JsSetFacts.

Lemma add_NoDup x s : NoDup s → NoDup (JsSet.add x s).
Proof.
  intros H. unfold JsSet.add. case_decide; [done|].
  apply NoDup_app. split_and!; [done| |apply NoDup_singleton].
  intros y Hy ->%list_elem_of_singleton. done.
Qed.

Lemma elem_of_add x y s : y ∈ JsSet.add x s ↔ y = x ∨ y ∈ s.
Proof.
  unfold JsSet.add. case_decide.
  - split; [intros; by right|]. intros [->|?]; done.
  - rewrite elem_of_app, list_elem_of_singleton. tauto.
Qed.

Lemma of_list_acc (l acc : list string) :
  NoDup acc →
  NoDup (foldl (λ s x, JsSet.add x s) acc l)
  ∧ ∀ y, y ∈ foldl (λ s x, JsSet.add x s) acc l ↔ y ∈ acc ∨ y ∈ l.
Proof.
  revert acc. induction l as [|x l IH]; intros acc Hacc; simpl.
  - split; [done|]. intros y. rewrite elem_of_nil. tauto.
  - destruct (IH (JsSet.add x acc) (add_NoDup x acc Hacc)) as [Hnd Hin].
    split; [done|]. intros y. rewrite Hin, elem_of_add, elem_of_cons. tauto.
Qed.

Lemma of_list_NoDup l : NoDup (JsSet.of_list l).
Proof. apply of_list_acc. constructor. Qed.

Lemma elem_of_of_list y l : y ∈ JsSet.of_list l ↔ y ∈ l.
Proof.
  unfold JsSet.of_list.
  destruct (of_list_acc l [] (NoDup_nil_2)) as [_ H].
  rewrite H, elem_of_nil. tauto.
Qed.

Lemma delete_NoDup x s : NoDup s → NoDup (JsSet.delete x s).
Proof. apply NoDup_filter. Qed.

Lemma elem_of_delete x y s : y ∈ JsSet.delete x s ↔ y ≠ x ∧ y ∈ s.
Proof. unfold JsSet.delete. by rewrite list_elem_of_filter. Qed.

Lemma delete_head x s : x ∉ s → JsSet.delete x (x :: s) = s.
Proof.
  intros Hx. unfold JsSet.delete. rewrite filter_cons, decide_False by tauto.
  induction s as [|y s IH]; [done|].
  rewrite filter_cons, decide_True.
  - f_equal. apply IH. intros ?. apply Hx. by right.
  - intros ->. apply Hx. left.
Qed.

End JsSetFacts.

Module TaskFacts.
Import Types App JsSetFacts.

Section Walk.
Variable toLocaleDateString : Js.Date → string.

Abbreviation start M := {| nextTasks := []; missingIds := M; changed := false |}.

(** One step only appends to the list under construction. *)
Lemma task_step_acc now acc M c task :
  task_step now {| nextTasks := acc; missingIds := M; changed := c |} task
  = let s := task_step now (start M) task in
    {| nextTasks := acc ++ nextTasks s;
       missingIds := missingIds s;
       changed := c || changed s |}.
Proof.
  unfold task_step, push. simpl.
  destruct (task_relatedTransactionId task) as [r|]; simpl;
    [destruct (Js.truthy_string r); simpl;
     [destruct (JsSet.has r M); simpl;
      [|destruct (decide (task_status task ≠ DONE)); simpl]|]|];
    rewrite ?orb_false_r, ?orb_true_r; reflexivity.
Qed.

Lemma walk_acc now tasks :
  ∀ acc M c,
    foldl (task_step now) {| nextTasks := acc; missingIds := M; changed := c |} tasks
    = let s := foldl (task_step now) (start M) tasks in
      {| nextTasks := acc ++ nextTasks s;
         missingIds := missingIds s;
         changed := c || changed s |}.
Proof.
  induction tasks as [|t ts IH]; intros acc M c; simpl.
  - by rewrite app_nil_r, orb_false_r.
  - rewrite task_step_acc. simpl.
    destruct (task_step now (start M) t) as [n1 M1 c1]. simpl.
    rewrite (IH (acc ++ n1)), (IH n1). simpl.
    by rewrite app_assoc, orb_assoc.
Qed.

(** What one step emits is left alone by a later step from the same set. *)
Lemma task_step_again now1 now2 M task :
  let s := task_step now1 (start M) task in
  foldl (task_step now2) (start M) (nextTasks s)
  = {| nextTasks := nextTasks s; missingIds := missingIds s; changed := false |}.
Proof.
  unfold task_step, push. simpl.
  destruct (task_relatedTransactionId task) as [r|] eqn:Hrel; simpl.
  - destruct (Js.truthy_string r) eqn:Ht; simpl.
    + destruct (JsSet.has r M) eqn:Hhas; simpl.
      * unfold task_step. rewrite Hrel, Ht. simpl. by rewrite Hhas.
      * destruct (decide (task_status task ≠ DONE)) as [Hnd|Hd]; simpl.
        -- unfold task_step. simpl. rewrite Hrel, Ht. simpl. by rewrite Hhas.
        -- unfold task_step. rewrite Hrel, Ht. simpl. rewrite Hhas.
           by rewrite decide_False by done.
    + unfold task_step. by rewrite Hrel, Ht.
  - unfold task_step. by rewrite Hrel.
Qed.

(** Walking the outcome of a walk changes nothing. *)
Lemma walk_again now1 now2 tasks :
  ∀ M,
    let s := foldl (task_step now1) (start M) tasks in
    foldl (task_step now2) (start M) (nextTasks s)
    = {| nextTasks := nextTasks s; missingIds := missingIds s; changed := false |}.
Proof.
  induction tasks as [|t ts IH]; intros M; simpl; [done|].
  pose proof (task_step_again now1 now2 M t) as Hs. simpl in Hs.
  destruct (task_step now1 (start M) t) as [n1 M1 c1]. simpl in Hs.
  rewrite (walk_acc now1 ts n1 M1 c1). simpl.
  rewrite foldl_app, Hs, (walk_acc now2 _ n1 M1 false). simpl.
  by rewrite IH.
Qed.

(** A step that reports no change has copied its task. *)
Lemma task_step_unchanged now M task :
  changed (task_step now (start M) task) = false →
  nextTasks (task_step now (start M) task) = [task].
Proof.
  unfold task_step, push. simpl.
  destruct (task_relatedTransactionId task) as [r|]; simpl; [|done].
  destruct (Js.truthy_string r); simpl; [|done].
  destruct (JsSet.has r M); simpl; [done|].
  destruct (decide (task_status task ≠ DONE)); simpl; done.
Qed.

(** A walk that reports no change has copied the list. *)
Lemma walk_unchanged now tasks :
  ∀ M,
    changed (foldl (task_step now) (start M) tasks) = false →
    nextTasks (foldl (task_step now) (start M) tasks) = tasks.
Proof.
  induction tasks as [|t ts IH]; intros M; simpl; [done|].
  pose proof (task_step_unchanged now M t) as Hs.
  destruct (task_step now (start M) t) as [n1 M1 c1]. simpl in Hs.
  rewrite (walk_acc now ts n1 M1 c1). simpl.
  intros [H1 H2]%orb_false_iff.
  by rewrite (IH _ H2), (Hs H1).
Qed.

(** The set only shrinks along a step, and along a walk. *)
Lemma task_step_missing now M task :
  NoDup M →
  NoDup (missingIds (task_step now (start M) task))
  ∧ ∀ x, x ∈ missingIds (task_step now (start M) task) → x ∈ M.
Proof.
  intros HM. unfold task_step, push. simpl.
  destruct (task_relatedTransactionId task) as [r|]; simpl; [|done].
  destruct (Js.truthy_string r); simpl; [|done].
  destruct (JsSet.has r M); simpl.
  - split; [by apply delete_NoDup|].
    intros x Hx. by apply elem_of_delete in Hx as [_ ?].
  - destruct (decide (task_status task ≠ DONE)); simpl; done.
Qed.

Lemma walk_missing now tasks :
  ∀ M,
    NoDup M →
    NoDup (missingIds (foldl (task_step now) (start M) tasks))
    ∧ ∀ x, x ∈ missingIds (foldl (task_step now) (start M) tasks) → x ∈ M.
Proof.
  induction tasks as [|t ts IH]; intros M HM; simpl; [done|].
  destruct (task_step_missing now M t HM) as [Hnd Hsub].
  destruct (task_step now (start M) t) as [n1 M1 c1]. simpl in Hnd, Hsub.
  rewrite (walk_acc now ts n1 M1 c1). simpl.
  destruct (IH _ Hnd) as [Hnd' Hsub']. split; [done|].
  intros x Hx. apply Hsub, Hsub', Hx.
Qed.

(** [transactions.find(t => t.id === txId)] succeeds on an id of the list. *)
Lemma find_by_id (txs : list AccountingTransaction) m :
  m ∈ tx_id <$> txs →
  ∃ tx, find (λ t, bool_decide (tx_id t = m)) txs = Some tx ∧ tx_id tx = m.
Proof.
  induction txs as [|t txs IH]; simpl; intros Hin.
  - by apply elem_of_nil in Hin.
  - destruct (decide (tx_id t = m)) as [He|Hne].
    + exists t. by rewrite bool_decide_eq_true_2.
    + rewrite bool_decide_eq_false_2 by done.
      apply IH. apply elem_of_cons in Hin as [?|?]; [congruence|done].
Qed.

(** The second loop appends one task per id it can resolve. *)
Lemma missing_fold (txs : list AccountingTransaction) now ids :
  ∀ st,
    foldl (missing_step toLocaleDateString txs now) st ids
    = let found := omap (λ m, find (λ t, bool_decide (tx_id t = m)) txs) ids in
      {| nextTasks := nextTasks st ++ (receiptTask toLocaleDateString now <$> found);
         missingIds := missingIds st;
         changed := match found with [] => changed st | _ => true end |}.
Proof.
  induction ids as [|m ms IH]; intros st; simpl.
  - rewrite app_nil_r. by destruct st.
  - rewrite IH. unfold missing_step. simpl.
    destruct (find (λ t, bool_decide (tx_id t = m)) txs) as [tx|]; simpl; [|done].
    rewrite <- app_assoc. simpl. f_equal.
    by destruct (omap _ ms).
Qed.

(** Walking the freshly made tasks from the set they were made for uses
    the set up and keeps every task. *)
Lemma walk_new (txs : list AccountingTransaction) now1 now2 ids :
  ∀ acc,
    NoDup ids →
    (∀ m, m ∈ ids → m ≠ EmptyString ∧ m ∈ tx_id <$> txs) →
    let made := receiptTask toLocaleDateString now1
                  <$> omap (λ m, find (λ t, bool_decide (tx_id t = m)) txs) ids in
    foldl (task_step now2)
      {| nextTasks := acc; missingIds := ids; changed := false |} made
    = {| nextTasks := acc ++ made; missingIds := []; changed := false |}.
Proof.
  induction ids as [|m ms IH]; intros acc Hnd Hids; simpl.
  - by rewrite app_nil_r.
  - destruct (Hids m) as [Hne Hin]; [left|].
    destruct (find_by_id txs m Hin) as (tx & -> & Hid). simpl.
    apply NoDup_cons in Hnd as [Hm Hnd].
    unfold task_step at 2. simpl. rewrite Hid.
    destruct m as [|a m']; [done|]. simpl.
    unfold JsSet.has. rewrite bool_decide_eq_true_2 by left.
    rewrite (delete_head _ _ Hm).
    rewrite IH; [|done|intros m0 Hm0; apply Hids; by right].
    by rewrite <- app_assoc.
Qed.

End Walk.

End TaskFacts.

(** What the document-side pass gets right: with a non-empty id and no
    repeated id in the current list, a document comes out with exactly the
    ids of the transactions that point at it. *)
Module LinkFacts.
Import Types App.

Lemma linkedByDoc_snoc (txs : list AccountingTransaction) tx :
  linkedByDoc (txs ++ [tx]) = link_step (linkedByDoc txs) tx.
Proof. unfold linkedByDoc. by rewrite foldl_app. Qed.

(** The list recorded for a document id: the ids of the transactions that
    carry it, in the order of the list. *)
Lemma linkedByDoc_lookup (txs : list AccountingTransaction) d :
  d ≠ EmptyString →
  default [] (linkedByDoc txs !! d)
  = tx_id <$> filter (λ tx, tx_documentId tx = Some d) txs.
Proof.
  intros Hd. induction txs as [|tx txs IH] using rev_ind.
  - unfold linkedByDoc. simpl. by rewrite lookup_empty.
  - rewrite linkedByDoc_snoc, filter_app, fmap_app, <- IH.
    unfold link_step.
    destruct (tx_documentId tx) as [d'|] eqn:Hdoc.
    + destruct (decide (d' = d)) as [->|Hne].
      * destruct d as [|a d]; [done|]. simpl.
        rewrite lookup_insert_eq. simpl.
        rewrite filter_cons, decide_True by done. done.
      * rewrite filter_cons, decide_False by congruence. simpl.
        rewrite app_nil_r.
        destruct (Js.truthy_string d'); [|done].
        by rewrite lookup_insert_ne.
    + rewrite filter_cons, decide_False by congruence. simpl.
      by rewrite app_nil_r.
Qed.

Lemma sameMembers_NoDup (currentIds linkedIds : list string) :
  NoDup currentIds →
  sameMembers currentIds linkedIds = true →
  ∀ x, x ∈ currentIds ↔ x ∈ linkedIds.
Proof.
  intros Hnd [Hlen Hall]%andb_true_iff.
  apply bool_decide_eq_true in Hlen.
  assert (Hsub : ∀ x, x ∈ currentIds → x ∈ linkedIds).
  { intros x Hx. rewrite forallb_forall in Hall.
    specialize (Hall x (proj1 (list_elem_of_In _ _) Hx)).
    by apply bool_decide_eq_true in Hall. }
  assert (Hperm : currentIds ≡ₚ linkedIds).
  { apply submseteq_length_Permutation; [by apply NoDup_submseteq|lia]. }
  intros x. by rewrite Hperm.
Qed.

Lemma syncDocumentLinks_exact (txs : list AccountingTransaction)
    (docs : list Document) (d : Document) :
  (∀ doc, doc ∈ docs → NoDup (default [] (doc_linkedTransactionIds doc))) →
  d ∈ syncDocumentLinks txs docs →
  doc_id d ≠ EmptyString →
  ∀ x, x ∈ default [] (doc_linkedTransactionIds d)
       ↔ ∃ tx, tx ∈ txs ∧ tx_documentId tx = Some (doc_id d) ∧ tx_id tx = x.
Proof.
  intros Hnd Hin Hid x.
  assert (Hcases : ∃ doc, doc ∈ docs ∧ doc_id d = doc_id doc
            ∧ ((d = doc ∧ linksInSync (linkedByDoc txs) doc = true)
               ∨ doc_linkedTransactionIds d
                 = Some (default [] (linkedByDoc txs !! doc_id doc)))).
  { unfold syncDocumentLinks in Hin.
    destruct (existsb _ docs) eqn:Hchanged.
    - apply list_elem_of_fmap in Hin as (doc & -> & Hdoc). exists doc.
      destruct (linksInSync (linkedByDoc txs) doc) eqn:Hsync.
      + split_and!; [done|done|]. by left.
      + split_and!; [done|done|]. by right.
    - exists d. split_and!; [done|done|]. left. split; [done|].
      destruct (linksInSync (linkedByDoc txs) d) eqn:Hsync; [done|].
      assert (existsb (λ doc, negb (linksInSync (linkedByDoc txs) doc)) docs = true)
        as Hex; [|congruence].
      apply existsb_exists. exists d. split; [by apply list_elem_of_In|].
      by rewrite Hsync. }
  destruct Hcases as (doc & Hdoc & Hsame & Hcase).
  assert (Hlinked : ∀ y, y ∈ default [] (linkedByDoc txs !! doc_id doc)
            ↔ ∃ tx, tx ∈ txs ∧ tx_documentId tx = Some (doc_id d) ∧ tx_id tx = y).
  { intros y. rewrite linkedByDoc_lookup by congruence.
    rewrite list_elem_of_fmap. rewrite Hsame. split.
    - intros (tx & -> & [Htx ?]%list_elem_of_filter). by exists tx.
    - intros (tx & ? & ? & <-). exists tx. split; [done|].
      by apply list_elem_of_filter. }
  destruct Hcase as [[-> Hsync]|Hlinks].
  - rewrite <- Hlinked. by apply sameMembers_NoDup; [apply Hnd|].
  - rewrite Hlinks. simpl. apply Hlinked.
Qed.

End LinkFacts.

(* ===================================================================== *)
(** ** The reactive passes: the claims *)
(* ===================================================================== *)

Module AppClaims.
Import Types Lexoffice App JsSetFacts TaskFacts Scenarios.

(** C8. With transaction ids that are non-empty strings, running the task
    generator again over the same transactions returns the task list of the
    first run as it is: no task is added, none is changed, so no task id
    is repeated by the second run. *)
Theorem C8_regenerating_tasks_twice_changes_nothing
    (toLocaleDateString : Js.Date → string)
    (transactions : list AccountingTransaction) (tasks : list TaskItem)
    (now1 now2 : Z) :
  (∀ tx, tx ∈ transactions → tx_id tx ≠ EmptyString) →
  regenerateTasks toLocaleDateString transactions
    (regenerateTasks toLocaleDateString transactions tasks now1) now2
  = regenerateTasks toLocaleDateString transactions tasks now1.
Proof.
  intros Hids.
  set (M0 := JsSet.of_list
               (tx_id <$> filter (λ tx, tx_status tx = MISSING_RECEIPT) transactions)).
  set (s1 := foldl (task_step now1)
               {| nextTasks := []; missingIds := M0; changed := false |} tasks).
  set (made := receiptTask toLocaleDateString now1
                 <$> omap (λ m, find (λ t, bool_decide (tx_id t = m)) transactions)
                       (missingIds s1)).
  assert (Hfirst : regenerateTasks toLocaleDateString transactions tasks now1
                   = nextTasks s1 ++ made).
  { unfold regenerateTasks. fold M0. fold s1. rewrite missing_fold. simpl.
    fold made.
    destruct (omap _ (missingIds s1)) as [|tx rest] eqn:Hfound.
    - destruct (changed s1) eqn:Hc; [done|].
      subst made. simpl. rewrite app_nil_r. symmetry.
      by apply walk_unchanged.
    - done. }
  rewrite Hfirst.
  destruct (walk_missing now1 tasks M0 (of_list_NoDup _)) as [Hnd Hsub].
  fold s1 in Hnd, Hsub.
  unfold regenerateTasks. fold M0.
  rewrite foldl_app.
  pose proof (walk_again now1 now2 tasks M0) as Hagain. simpl in Hagain.
  fold s1 in Hagain. rewrite Hagain.
  subst made. rewrite (walk_new toLocaleDateString transactions now1 now2); [done|done|].
  intros m Hm. apply Hsub in Hm. subst M0.
  apply (proj1 (elem_of_of_list _ _)) in Hm.
  apply list_elem_of_fmap in Hm as (tx & -> & Htx).
  apply list_elem_of_filter in Htx as [_ Htx].
  split; [by apply Hids|]. apply list_elem_of_fmap. by exists tx.
Qed.

Lemma C8_witness :
  regenerateTasks germanDate openTransactions
    (regenerateTasks germanDate openTransactions [] 0) 1
  = regenerateTasks germanDate openTransactions [] 0.
Proof.
  apply (C8_regenerating_tasks_twice_changes_nothing germanDate openTransactions [] 0 1).
  intros tx Hin. apply list_elem_of_singleton in Hin. subst tx. simpl. discriminate.
Defined.

(** C1. A transaction linked to an existing document is re-imported by a
    payload that carries no invoice number. The update keeps the link
    ([documentId ?? existing.documentId]) but takes the status from the
    fresh lookup alone, and the synchroniser passes have nothing to repair:
    the transaction ends with a [documentId] that names a present document
    and the status [MISSING_RECEIPT]. Before the import the list satisfied
    the invariant. *)
Theorem C1_reimport_keeps_link_and_reports_missing_receipt :
  (∀ tx, tx ∈ linkedTransactions →
     (tx_status tx = COMPLETE
      ↔ ∃ d, tx_documentId tx = Some d ∧ d ∈ doc_id <$> linkedDocuments))
  ∧ ∃ r tx,
      upsertTransactionsFromLexoffice [payload "A" None] linkedTransactions
        invoiceMap epoch = Some r
      ∧ syncTransactionLinks
          (syncDocumentLinks (updatedTransactions r) linkedDocuments)
          (updatedTransactions r) epoch = [tx]
      ∧ tx_documentId tx = Some "D1"
      ∧ "D1" ∈ doc_id <$> syncDocumentLinks (updatedTransactions r) linkedDocuments
      ∧ tx_status tx = MISSING_RECEIPT.
Proof.
  split.
  - intros tx Hin. apply list_elem_of_singleton in Hin. subst tx. simpl.
    split; [|done]. intros _. exists "D1". split; [done|]. left.
  - eexists _, _. split; [vm_compute; reflexivity|].
    split; [vm_compute; reflexivity|].
    split; [reflexivity|]. split; [|reflexivity].
    vm_compute. left.
Qed.

(** C3. The batch of the first import holds the provider id "A" twice, so
    document "D" is given the list [tx-A; tx-A]. After the second import
    the transactions pointing at "D" are tx-A and tx-B; the pass compares
    lengths and membership of the current ids only, finds 2 = 2 and tx-A
    among the new ids, and leaves "D" with [tx-A; tx-A]: tx-B points at "D"
    and is not in its [linkedTransactionIds]. *)
Theorem C3_repeated_id_hides_a_new_link :
  ∃ r1 r2 d d2 t,
    upsertTransactionsFromLexoffice firstBatch [] twoInvoices epoch = Some r1
    ∧ upsertTransactionsFromLexoffice secondBatch (updatedTransactions r1)
        twoInvoices epoch = Some r2
    ∧ syncDocumentLinks (updatedTransactions r2)
        (syncDocumentLinks (updatedTransactions r1) twoDocuments) = [d; d2]
    ∧ doc_id d = "D"
    ∧ doc_linkedTransactionIds d = Some ["tx-A"; "tx-A"]
    ∧ t ∈ updatedTransactions r2
    ∧ tx_id t = "tx-B"
    ∧ tx_documentId t = Some (doc_id d)
    ∧ tx_id t ∉ default [] (doc_linkedTransactionIds d).
Proof.
  eexists _, _, _, _, _.
  split; [vm_compute; reflexivity|].
  split; [vm_compute; reflexivity|].
  split; [vm_compute; reflexivity|].
  split; [reflexivity|]. split; [reflexivity|].
  split; [right; right; left|].
  split; [reflexivity|]. split; [reflexivity|].
  simpl. intros H. repeat (apply elem_of_cons in H as [H|H]; [discriminate|]).
  by apply elem_of_nil in H.
Qed.

End AppClaims.

(* ===================================================================== *)
(** ** The analysis normaliser: facts and claims *)
(* ===================================================================== *)

Module GeminiFacts.
Import Types Gemini.

Lemma Qle_bool_inject (a b : Z) : Qle_bool (inject_Z a) (inject_Z b) = (a <=? b)%Z.
Proof.
  unfold Qle_bool, inject_Z. simpl. by rewrite !Z.mul_1_r.
Qed.

Lemma clamp_integer (k : Z) :
  clamped (Js.Math_max (Js.num 10) (Js.Math_min (Js.num 100) (Js.num k))).
Proof.
  unfold Js.Math_max, Js.Math_min, Js.num, Js.le. simpl.
  rewrite Qle_bool_inject.
  destruct (100 <=? k)%Z eqn:H100; simpl.
  - exists 100%Z. split; [done|lia].
  - rewrite Qle_bool_inject.
    destruct (10 <=? k)%Z eqn:H10; simpl.
    + exists k. split; [done|lia].
    + exists 10%Z. split; [done|lia].
Qed.

Lemma clampConfidence_clamped (value : option Js.number) :
  clamped (clampConfidence value).
Proof.
  destruct value as [[| | |q]|]; simpl.
  - exists 65%Z. split; [done|lia].
  - exists 100%Z. split; [done|lia].
  - exists 10%Z. split; [done|lia].
  - apply clamp_integer.
  - exists 65%Z. split; [done|lia].
Qed.

Lemma synchronizeField_confidence result field :
  fc_confidence (synchronizeField result field) = fc_confidence field.
Proof.
  unfold synchronizeField.
  repeat (match goal with |- context [if ?b then _ else _] => destruct b end);
    reflexivity.
Qed.

(** The caller's warnings open the list that comes back. *)
Lemma deriveDefaultWarnings_keeps result avg :
  default [] (warnings result) `prefix_of` deriveDefaultWarnings result avg.
Proof.
  unfold deriveDefaultWarnings, pushWhen.
  repeat (match goal with |- context [if ?b then _ else _] => destruct b end);
    repeat (etrans; [|apply prefix_app_r; reflexivity]); reflexivity.
Qed.

End GeminiFacts.

Module GeminiClaims.
Import Types Gemini GeminiFacts Scenarios.

(** C7, as stated, fails on the average confidence, which is a
    confidence of the outcome too: a supplied value of 150 comes back as
    150, and without a supplied value the outcome carries the mean of the
    field confidences to two decimals (here 75.86), not an integer. *)
Lemma C7_counterexample_average_confidence :
  averageConfidence (ensureExtendedAnalysisData overconfidentAnalysis)
  = Some (Js.num 150)
  ∧ ¬ clamped (Js.num 150)
  ∧ averageConfidence (ensureExtendedAnalysisData rawAnalysis)
    = Some (Js.Fin (3793 # 50))
  ∧ ¬ clamped (Js.Fin (3793 # 50)).
Proof.
  split; [vm_compute; reflexivity|].
  split; [intros (z & Hz & Hrange); injection Hz as Hz; lia|].
  split; [vm_compute; reflexivity|].
  intros (z & Hz & _). discriminate Hz.
Qed.

(** C7, amended. Whatever confidence comes in -- negative, above 100,
    [NaN], an infinity or none at all -- [clampConfidence] answers with an
    integer between 10 and 100, and every per-field confidence in the
    outcome of [ensureExtendedAnalysisData] is such an integer. *)
Theorem C7_field_confidences_are_integers_from_10_to_100 :
  (∀ value : option Js.number, clamped (clampConfidence value))
  ∧ ∀ result : GeminiAnalysisResult,
      ∃ fields,
        fieldConfidences (ensureExtendedAnalysisData result) = Some fields
        ∧ Forall (λ field, ∃ n, fc_confidence field = Some n ∧ clamped n) fields.
Proof.
  split; [apply clampConfidence_clamped|].
  intros result. eexists. split; [reflexivity|].
  apply Forall_fmap, Forall_forall. intros field Hin. simpl.
  rewrite synchronizeField_confidence.
  destruct (fieldConfidences result) as [[|f fs]|]; simpl in Hin.
  - repeat (apply elem_of_cons in Hin as [->|Hin];
            [eexists; split; [reflexivity|apply clampConfidence_clamped]|]).
    by apply elem_of_nil in Hin.
  - change (field ∈ clampField <$> (f :: fs)) in Hin.
    apply list_elem_of_fmap in Hin as (f0 & -> & _). simpl.
    eexists; split; [reflexivity|apply clampConfidence_clamped].
  - repeat (apply elem_of_cons in Hin as [->|Hin];
            [eexists; split; [reflexivity|apply clampConfidence_clamped]|]).
    by apply elem_of_nil in Hin.
Qed.

(** C4. [rawAnalysis] has no total amount, so its normalisation carries
    the amount warning once. Normalising that outcome again -- as
    [buildOcrMetadataFromAnalysis] does with what [analyzeDocument]
    returned -- appends the same warning a second time: the amount test
    (and likewise the quality test) does not look at the warnings already
    there, while the three tests before it do. *)
Theorem C4_amount_warning_is_appended_again :
  warnings (ensureExtendedAnalysisData rawAnalysis) = Some [W_AMOUNT]
  ∧ warnings (ensureExtendedAnalysisData (ensureExtendedAnalysisData rawAnalysis))
    = Some [W_AMOUNT; W_AMOUNT].
Proof. split; vm_compute; reflexivity. Qed.

End GeminiClaims.

(* ===================================================================== *)
(** ** The document store: facts and claims *)
(* ===================================================================== *)

Module DocumentStoreFacts.
Import Types DocumentStore.

Lemma findIndex_Some {A : Type} (pred : A → bool) (l : list A) i :
  findIndex pred l = Some i → ∃ x, l !! i = Some x ∧ pred x = true.
Proof.
  revert i. induction l as [|y l IH]; intros i; simpl; [done|].
  destruct (pred y) eqn:Hy.
  - intros [= <-]. by exists y.
  - destruct (findIndex pred l) as [j|]; simpl; [|done].
    intros [= <-]. by apply IH.
Qed.

Lemma findIndex_None {A : Type} (pred : A → bool) (l : list A) :
  findIndex pred l = None → ∀ x, x ∈ l → pred x = false.
Proof.
  induction l as [|y l IH]; simpl; intros H x Hin.
  - by apply elem_of_nil in Hin.
  - destruct (pred y) eqn:Hy; [done|].
    destruct (findIndex pred l) as [j|]; simpl in H; [done|].
    apply elem_of_cons in Hin as [->|Hin]; [done|by apply IH].
Qed.

(** [Array.prototype.find] stops at the first element that passes. *)
Lemma find_first {A : Type} (pred : A → bool) (before after : list A) d :
  (∀ x, x ∈ before → pred x = false) →
  pred d = true →
  find pred (before ++ d :: after) = Some d.
Proof.
  intros Hbefore Hd. induction before as [|x before IH]; simpl.
  - by rewrite Hd.
  - rewrite (Hbefore x) by left. apply IH. intros y Hy. apply Hbefore. by right.
Qed.

Lemma sameHash_true h d :
  sameHash h d = true ↔ sd_fileHash d = Some h ∧ sd_duplicateIgnored d ≠ Some true.
Proof.
  unfold sameHash. rewrite andb_true_iff, bool_decide_eq_true, negb_true_iff.
  destruct (sd_duplicateIgnored d) as [[|]|]; simpl;
    (split; intros [H1 H2]; split; congruence).
Qed.

Lemma sameHash_false h d :
  sameHash h d = false ↔ ¬ (sd_fileHash d = Some h ∧ sd_duplicateIgnored d ≠ Some true).
Proof.
  rewrite <- sameHash_true. destruct (sameHash h d); naive_solver.
Qed.

Section Store.
Variable sha256_hex : list Byte.byte → string.
Variable uploadPath : string → string.
Hypothesis sha256_hex_length : ∀ bytes, String.length (sha256_hex bytes) = 64.

Lemma sha256_hex_truthy bytes : Js.truthy_string (sha256_hex bytes) = true.
Proof.
  pose proof (sha256_hex_length bytes) as H.
  destruct (sha256_hex bytes); [done|done].
Qed.

(** An upload whose digest meets an earlier, not ignored document is
    flagged against the first such document of the cache. *)
Lemma addDocument_first_match cache files now id params bytes before d after :
  files !! uploadPath (storedFilename params) = Some bytes →
  cache = before ++ d :: after →
  sameHash (sha256_hex bytes) d = true →
  (∀ x, x ∈ before → sameHash (sha256_hex bytes) x = false) →
  ∃ record,
    addDocument sha256_hex uploadPath cache files now id params
    = (record, cache ++ [record])
    ∧ sd_id record = id
    ∧ sd_fileHash record = Some (sha256_hex bytes)
    ∧ sd_duplicateIgnored record = None
    ∧ sd_duplicateOfId record = Some (sd_id d)
    ∧ sd_status record = POTENTIAL_DUPLICATE.
Proof.
  intros Hfile -> Hd Hbefore.
  unfold addDocument, hashFile. rewrite Hfile. simpl.
  rewrite sha256_hex_truthy, (find_first _ _ _ _ Hbefore Hd). simpl.
  eexists. split; [reflexivity|]. simpl. done.
Qed.

End Store.

End DocumentStoreFacts.

Module DocumentStoreClaims.
Import Types DocumentStore DocumentStoreFacts Scenarios.

(** C5. The digest of the uploaded bytes equals the [fileHash] of a
    document of the cache that is not ignored, [d] being the first such
    document: the new record is stored with [duplicateOfId] = [d]'s id and
    the status [POTENTIAL_DUPLICATE]; and a further upload of the same
    bytes is flagged against [d] again, not against the record that was
    just added. (A SHA-256 hex digest has 64 characters.) *)
Theorem C5_same_bytes_flag_the_first_match
    (sha256_hex : list Byte.byte → string) (uploadPath : string → string)
    (cache : list StoredDocumentRecord) (files : gmap string (list Byte.byte))
    (now : Clock) (id : string) (params : AddParams) (bytes : list Byte.byte)
    (before after : list StoredDocumentRecord) (d : StoredDocumentRecord) :
  (∀ b, String.length (sha256_hex b) = 64) →
  files !! uploadPath (storedFilename params) = Some bytes →
  cache = before ++ d :: after →
  sd_fileHash d = Some (sha256_hex bytes) →
  sd_duplicateIgnored d ≠ Some true →
  (∀ x, x ∈ before →
     ¬ (sd_fileHash x = Some (sha256_hex bytes) ∧ sd_duplicateIgnored x ≠ Some true)) →
  ∃ record,
    addDocument sha256_hex uploadPath cache files now id params
    = (record, cache ++ [record])
    ∧ sd_duplicateOfId record = Some (sd_id d)
    ∧ sd_status record = POTENTIAL_DUPLICATE
    ∧ ∀ files' now' id' params',
        files' !! uploadPath (storedFilename params') = Some bytes →
        ∃ record',
          addDocument sha256_hex uploadPath (cache ++ [record]) files' now' id' params'
          = (record', (cache ++ [record]) ++ [record'])
          ∧ sd_duplicateOfId record' = Some (sd_id d)
          ∧ sd_status record' = POTENTIAL_DUPLICATE.
Proof.
  intros Hlen Hfile Hcache Hhash Hign Hbefore.
  assert (Hd : sameHash (sha256_hex bytes) d = true) by (by apply sameHash_true).
  assert (Hb : ∀ x, x ∈ before → sameHash (sha256_hex bytes) x = false)
    by (intros x Hx; by apply sameHash_false, Hbefore).
  destruct (addDocument_first_match sha256_hex uploadPath Hlen cache files now id
              params bytes before d after Hfile Hcache Hd Hb)
    as (record & Hrun & _ & _ & _ & Hdup & Hst).
  exists record. split_and!; try done.
  intros files' now' id' params' Hfile'.
  destruct (addDocument_first_match sha256_hex uploadPath Hlen (cache ++ [record])
              files' now' id' params' bytes before d (after ++ [record]) Hfile')
    as (record' & Hrun' & _ & _ & _ & Hdup' & Hst'); try done.
  { rewrite Hcache, <- app_assoc. done. }
  exists record'. done.
Qed.

Lemma C5_witness :
  ∃ record,
    addDocument digest inUploads afterTwoUploads uploadedFiles clock "doc-3"
      (upload "c.pdf")
    = (record, afterTwoUploads ++ [record])
    ∧ sd_duplicateOfId record = Some "doc-1"
    ∧ sd_status record = POTENTIAL_DUPLICATE.
Proof.
  destruct (C5_same_bytes_flag_the_first_match digest inUploads
              afterTwoUploads uploadedFiles clock "doc-3" (upload "c.pdf")
              [Byte.x25; Byte.x50] []
              (drop 1 afterTwoUploads)
              (addDocument digest inUploads [] uploadedFiles clock "doc-1"
                 (upload "a.pdf")).1)
    as (record & Hrun & Hdup & Hst & _).
  - intros b. vm_compute. reflexivity.
  - vm_compute. reflexivity.
  - vm_compute. reflexivity.
  - vm_compute. reflexivity.
  - vm_compute. discriminate.
  - intros x Hx. by apply elem_of_nil in Hx.
  - exists record. split; [exact Hrun|]. split; [exact Hdup|exact Hst].
Defined.

(** C10. [updateDocument] either finds no document with the given id,
    answers [null] and leaves the cache as it was, or rewrites one record
    in place: the record it stores carries the id that was asked for -- the
    id that record had before, whatever the patch says -- and the new
    [updatedAt]; the ids of the cache are the same as before. *)
Theorem C10_updateDocument_keeps_the_id
    (cache : list StoredDocumentRecord) (id : string)
    (patch : StoredDocumentPatch) (now : string) :
  match updateDocument cache id patch now with
  | (Some updated, cache') =>
      ∃ idx old,
        cache !! idx = Some old
        ∧ sd_id old = id
        ∧ updated = applyPatch old patch id now
        ∧ sd_id updated = id
        ∧ sd_updatedAt updated = now
        ∧ cache' = <[idx := updated]> cache
        ∧ cache' !! idx = Some updated
        ∧ sd_id <$> cache' = sd_id <$> cache
  | (None, cache') =>
      cache' = cache ∧ ∀ d, d ∈ cache → sd_id d ≠ id
  end.
Proof.
  unfold updateDocument.
  destruct (findIndex (λ d, bool_decide (sd_id d = id)) cache) as [idx|] eqn:Hfind.
  - destruct (findIndex_Some _ _ _ Hfind) as (old & Hold & Hid).
    apply bool_decide_eq_true in Hid.
    rewrite Hold. exists idx, old. split_and!; try done.
    + apply list_lookup_insert_eq. by eapply lookup_lt_Some.
    + rewrite list_fmap_insert. simpl. apply list_insert_id.
      by rewrite list_lookup_fmap, Hold, <- Hid.
  - split; [done|]. intros d Hd Heq.
    apply (findIndex_None _ _ Hfind) in Hd.
    by apply bool_decide_eq_false in Hd.
Qed.

End DocumentStoreClaims.

(* ===================================================================== *)
(** ** The document store and its router: further properties *)
(* ===================================================================== *)

Module JsTextFacts.

Lemma startsWith_app (p r : string) : Js.startsWith p (p +:+ r) = true.
Proof.
  induction p as [|a p IH]; simpl; [done|].
  by rewrite Ascii.eqb_refl.
Qed.

Lemma slice_from_app (p r : string) :
  JsText.slice_from (String.length p) (p +:+ r) = r.
Proof. induction p as [|a p IH]; simpl; [by destruct r|done]. Qed.

Lemma replaceFirst_unfold (s p r : string) :
  JsText.replaceFirst s p r
  = if Js.startsWith p s then r +:+ JsText.slice_from (String.length p) s
    else match s with
         | EmptyString => EmptyString
         | String a s' => String a (JsText.replaceFirst s' p r)
         end.
Proof. by destruct s. Qed.

(** Cutting a leading pattern off. *)
Lemma replaceFirst_prefix (p r : string) :
  JsText.replaceFirst (p +:+ r) p EmptyString = r.
Proof. by rewrite replaceFirst_unfold, startsWith_app, slice_from_app. Qed.

Lemma collapseRuns_fixed (s : string) :
  JsText.all JsText.isFileChar s = true → JsText.collapseRuns false s = s.
Proof.
  induction s as [|a s IH]; simpl; [done|].
  intros [Ha Hs]%andb_true_iff. rewrite Ha. by rewrite IH.
Qed.

Lemma collapseRuns_all (inRun : bool) (s : string) :
  JsText.all JsText.isFileChar (JsText.collapseRuns inRun s) = true.
Proof.
  revert inRun. induction s as [|a s IH]; intros inRun; simpl; [done|].
  destruct (JsText.isFileChar a) eqn:Ha; simpl.
  - by rewrite Ha, IH.
  - destruct inRun; simpl; [apply IH|]. by rewrite IH.
Qed.

End JsTextFacts.

Module StoreOpsFacts.
Import Types DocumentStore DocumentStoreFacts StoreOps JsTextFacts.

Lemma find_snoc {A : Type} (pred : A → bool) (l : list A) (x : A) :
  find pred (l ++ [x])
  = match find pred l with
    | Some y => Some y
    | None => if pred x then Some x else None
    end.
Proof.
  induction l as [|y l IH]; simpl; [done|].
  by destruct (pred y).
Qed.

Lemma find_none_iff {A : Type} (pred : A → bool) (l : list A) :
  find pred l = None ↔ ∀ x, x ∈ l → pred x = false.
Proof.
  induction l as [|y l IH]; simpl.
  - split; [|done]. intros _ x Hx. by apply elem_of_nil in Hx.
  - destruct (pred y) eqn:Hy.
    + split; [done|]. intros H. rewrite (H y) in Hy by left. done.
    + rewrite IH. split.
      * intros H x [->|Hx]%elem_of_cons; [done|by apply H].
      * intros H x Hx. apply H. by right.
Qed.

(** [find] cuts the list at its first hit. *)
Lemma find_split {A : Type} (pred : A → bool) (l : list A) (d : A) :
  find pred l = Some d →
  ∃ l1 l2, l = l1 ++ d :: l2 ∧ pred d = true ∧ (∀ x, x ∈ l1 → pred x = false)
           ∧ findIndex pred l = Some (length l1).
Proof.
  induction l as [|y l IH]; simpl; [done|].
  destruct (pred y) eqn:Hy.
  - intros [= ->]. exists [], l. split_and!; try done.
    intros x Hx. by apply elem_of_nil in Hx.
  - intros H. destruct (IH H) as (l1 & l2 & -> & Hd & Hl1 & Hidx).
    exists (y :: l1), l2. rewrite Hidx. split_and!; try done.
    intros x [->|Hx]%elem_of_cons; [done|by apply Hl1].
Qed.

Lemma find_replace {A : Type} (pred : A → bool) (l1 l2 : list A) (a b : A) :
  pred a = false → pred b = false →
  find pred (l1 ++ a :: l2) = find pred (l1 ++ b :: l2).
Proof.
  intros Ha Hb. induction l1 as [|x l1 IH]; simpl.
  - by rewrite Ha, Hb.
  - by destruct (pred x).
Qed.

Lemma findIndex_find_None {A : Type} (pred : A → bool) (l : list A) :
  find pred l = None → findIndex pred l = None.
Proof.
  induction l as [|y l IH]; simpl; [done|].
  destruct (pred y); [done|]. intros H. by rewrite IH.
Qed.

(** What [updateDocument] does, in terms of the list around the first
    record with the id. *)
Lemma updateDocument_found cache id patch now l1 d l2 :
  cache = l1 ++ d :: l2 →
  sd_id d = id →
  (∀ x, x ∈ l1 → sd_id x ≠ id) →
  updateDocument cache id patch now
  = (Some (applyPatch d patch id now), l1 ++ applyPatch d patch id now :: l2).
Proof.
  intros -> Hd Hl1. unfold updateDocument.
  assert (Hfind : find (λ x, bool_decide (sd_id x = id)) (l1 ++ d :: l2) = Some d).
  { apply find_first; [|by apply bool_decide_eq_true].
    intros x Hx. apply bool_decide_eq_false. by apply Hl1. }
  destruct (find_split _ _ _ Hfind) as (k1 & k2 & Heq & _ & Hk1 & ->).
  assert (Hlen : length k1 = length l1).
  { destruct (decide (length k1 = length l1)) as [|Hne]; [done|exfalso].
    destruct (decide (length k1 < length l1)) as [Hlt|Hge].
    - assert (Hk : (l1 ++ d :: l2) !! length k1 = Some d).
      { rewrite Heq at 1. by rewrite list_lookup_middle. }
      rewrite lookup_app_l in Hk by done.
      apply list_elem_of_lookup_2 in Hk. by apply (Hl1 d).
    - assert (Hl : (k1 ++ d :: k2) !! length l1 = Some d).
      { rewrite <- Heq. by rewrite list_lookup_middle. }
      rewrite lookup_app_l in Hl by lia.
      apply list_elem_of_lookup_2 in Hl. specialize (Hk1 d Hl).
      apply bool_decide_eq_false in Hk1. done. }
  rewrite Hlen, list_lookup_middle by done.
  by rewrite insert_app_r_alt, Nat.sub_diag by lia.
Qed.

Lemma updateDocument_missing cache id patch now :
  (∀ x, x ∈ cache → sd_id x ≠ id) →
  updateDocument cache id patch now = (None, cache).
Proof.
  intros H. unfold updateDocument.
  rewrite findIndex_find_None; [done|].
  apply find_none_iff. intros x Hx. apply bool_decide_eq_false. by apply H.
Qed.

(** Either way the ids of the cache stay what they were, and the answer
    tells whether the id was there. *)
Lemma updateDocument_ids cache id patch now :
  sd_id <$> (updateDocument cache id patch now).2 = sd_id <$> cache
  ∧ (is_Some (updateDocument cache id patch now).1 ↔ id ∈ sd_id <$> cache).
Proof.
  destruct (find (λ x, bool_decide (sd_id x = id)) cache) as [d|] eqn:Hfind.
  - destruct (find_split _ _ _ Hfind) as (l1 & l2 & -> & Hd & Hl1 & _).
    apply bool_decide_eq_true in Hd.
    rewrite (updateDocument_found _ id patch now l1 d l2); [|done|done|].
    + simpl. rewrite !fmap_app, !fmap_cons. simpl. rewrite Hd. split; [done|].
      split; [|by eauto]. intros _. apply elem_of_app. right. left.
    + intros x Hx. specialize (Hl1 x Hx). by apply bool_decide_eq_false in Hl1.
  - assert (Hnone : ∀ x, x ∈ cache → sd_id x ≠ id).
    { intros x Hx. apply (proj1 (find_none_iff _ _) Hfind) in Hx.
      by apply bool_decide_eq_false in Hx. }
    rewrite updateDocument_missing by done. simpl. split; [done|].
    split; [by intros [? ?]|].
    intros (x & Hid & Hx)%list_elem_of_fmap. exfalso. by apply (Hnone x).
Qed.

End StoreOpsFacts.

Module StoreOpsTheorems.
Import Types DocumentStore DocumentStoreFacts StoreOps JsTextFacts StoreOpsFacts.
Import Scenarios MoreScenarios.

(** X1. A document added under an id that the cache does not hold yet is what
    [getDocument] answers for that id; every other id is answered as
    before, and the cache has grown by one record. *)
Theorem addDocument_then_getDocument
    (sha256_hex : list Byte.byte → string) (uploadPath : string → string)
    (cache : list StoredDocumentRecord) (files : gmap string (list Byte.byte))
    (now : Clock) (id : string) (params : AddParams) :
  (∀ d, d ∈ cache → sd_id d ≠ id) →
  let added := addDocument sha256_hex uploadPath cache files now id params in
  getDocument added.2 id = Some added.1
  ∧ sd_id added.1 = id
  ∧ length added.2 = S (length cache)
  ∧ ∀ id', id' ≠ id → getDocument added.2 id' = getDocument cache id'.
Proof.
  intros Hfresh. simpl.
  assert (Hnone : find (λ d, bool_decide (sd_id d = id)) cache = None).
  { apply find_none_iff. intros x Hx. apply bool_decide_eq_false. by apply Hfresh. }
  unfold getDocument. split_and!.
  - rewrite find_snoc, Hnone. simpl. by rewrite bool_decide_eq_true_2.
  - done.
  - rewrite length_app. simpl. lia.
  - intros id' Hne. rewrite find_snoc. simpl.
    rewrite bool_decide_eq_false_2 by congruence.
    by destruct (find (λ d, bool_decide (sd_id d = id')) cache).
Qed.

Lemma addDocument_then_getDocument_witness :
  getDocument afterOneUpload "doc-1" = Some firstRecord
  ∧ sd_id firstRecord = "doc-1"
  ∧ length afterOneUpload = 1
  ∧ ∀ id', id' ≠ "doc-1" → getDocument afterOneUpload id' = getDocument [] id'.
Proof.
  apply (addDocument_then_getDocument digest inUploads [] uploadedFiles clock
           "doc-1" (upload "a.pdf")).
  intros d Hd. by apply elem_of_nil in Hd.
Defined.

(** X2. After a successful [updateDocument], [getDocument] answers the updated
    record for that id and what it answered before for every other id; the
    cache keeps its length. *)
Theorem updateDocument_then_getDocument
    (cache cache' : list StoredDocumentRecord) (id : string)
    (patch : StoredDocumentPatch) (now : string) (updated : StoredDocumentRecord) :
  updateDocument cache id patch now = (Some updated, cache') →
  getDocument cache' id = Some updated
  ∧ length cache' = length cache
  ∧ ∀ id', id' ≠ id → getDocument cache' id' = getDocument cache id'.
Proof.
  intros Hrun.
  destruct (find (λ x, bool_decide (sd_id x = id)) cache) as [d|] eqn:Hfind.
  - destruct (find_split _ _ _ Hfind) as (l1 & l2 & -> & Hd & Hl1 & _).
    apply bool_decide_eq_true in Hd.
    assert (Hl1' : ∀ x, x ∈ l1 → sd_id x ≠ id).
    { intros x Hx. specialize (Hl1 x Hx). by apply bool_decide_eq_false in Hl1. }
    rewrite (updateDocument_found _ id patch now l1 d l2) in Hrun by done.
    simplify_eq. unfold getDocument. split_and!.
    + apply find_first; [done|]. by apply bool_decide_eq_true.
    + by rewrite !length_app.
    + intros id' Hne. apply find_replace; apply bool_decide_eq_false; simpl; congruence.
  - assert (Hnone : ∀ x, x ∈ cache → sd_id x ≠ id).
    { intros x Hx. apply (proj1 (find_none_iff _ _) Hfind) in Hx.
      by apply bool_decide_eq_false in Hx. }
    rewrite updateDocument_missing in Hrun by done. done.
Qed.

Lemma updateDocument_then_getDocument_witness :
  getDocument (updateDocument afterOneUpload "doc-1" emptyPatch "later").2 "doc-1"
  = Some (applyPatch firstRecord emptyPatch "doc-1" "later")
  ∧ length (updateDocument afterOneUpload "doc-1" emptyPatch "later").2
    = length afterOneUpload
  ∧ ∀ id', id' ≠ "doc-1" →
      getDocument (updateDocument afterOneUpload "doc-1" emptyPatch "later").2 id'
      = getDocument afterOneUpload id'.
Proof.
  apply (updateDocument_then_getDocument afterOneUpload _ "doc-1" emptyPatch "later").
  vm_compute. reflexivity.
Defined.

(** X3. [deleteDocument] answers [false] and changes nothing when no record
    has the id; otherwise it cuts out the first record with the id, leaves
    the others in order, and removes the file that record's [fileUrl]
    names from the upload directory. *)
Theorem deleteDocument_cuts_the_first_match
    (uploadPath : string → string) (cache : list StoredDocumentRecord)
    (files : gmap string (list Byte.byte)) (id : string) :
  match getDocument cache id with
  | None =>
      deleteDocument uploadPath cache files id = (false, cache, files)
  | Some d =>
      ∃ l1 l2,
        cache = l1 ++ d :: l2
        ∧ sd_id d = id
        ∧ (∀ x, x ∈ l1 → sd_id x ≠ id)
        ∧ deleteDocument uploadPath cache files id
          = (true, l1 ++ l2,
             delete (uploadPath (JsText.replaceFirst (sd_fileUrl d) "/uploads/"
                                   EmptyString)) files)
  end.
Proof.
  unfold getDocument, deleteDocument.
  destruct (find (λ x, bool_decide (sd_id x = id)) cache) as [d|] eqn:Hfind.
  - destruct (find_split _ _ _ Hfind) as (l1 & l2 & -> & Hd & Hl1 & ->).
    apply bool_decide_eq_true in Hd.
    exists l1, l2. split_and!; [done|done| |].
    + intros x Hx. specialize (Hl1 x Hx). by apply bool_decide_eq_false in Hl1.
    + rewrite list_lookup_middle by done.
      by rewrite delete_middle.
  - by rewrite findIndex_find_None.
Qed.

(** X4. Deleting a document right after it was added under a fresh id gives
    the old cache back and removes the uploaded file. *)
Theorem addDocument_then_deleteDocument
    (sha256_hex : list Byte.byte → string) (uploadPath : string → string)
    (cache : list StoredDocumentRecord) (files : gmap string (list Byte.byte))
    (now : Clock) (id : string) (params : AddParams) :
  (∀ d, d ∈ cache → sd_id d ≠ id) →
  deleteDocument uploadPath
    (addDocument sha256_hex uploadPath cache files now id params).2 files id
  = (true, cache, delete (uploadPath (storedFilename params)) files).
Proof.
  intros Hfresh.
  simpl. unfold deleteDocument.
  set (record := (addDocument sha256_hex uploadPath cache files now id params).1).
  assert (Hfind : find (λ d, bool_decide (sd_id d = id)) (cache ++ [record])
                  = Some record).
  { apply find_first; [|by apply bool_decide_eq_true].
    intros x Hx. apply bool_decide_eq_false. by apply Hfresh. }
  destruct (find_split _ _ _ Hfind) as (l1 & l2 & Heq & _ & Hl1 & Hidx).
  assert (Hlen : length l1 = length cache).
  { destruct (decide (length l1 < length cache)) as [Hlt|Hge].
    - exfalso.
      assert (Hk : (cache ++ [record]) !! length l1 = Some record).
      { rewrite Heq at 1. by rewrite list_lookup_middle. }
      rewrite lookup_app_l in Hk by done.
      apply list_elem_of_lookup_2 in Hk. by apply (Hfresh record).
    - apply (f_equal length) in Heq. rewrite !length_app in Heq. simpl in Heq. lia. }
  change (cache ++ [_]) with (cache ++ [record]).
  rewrite Hidx, Hlen, list_lookup_middle by done.
  rewrite delete_middle, app_nil_r.
  subst record. cbn [addDocument fst sd_fileUrl].
  by rewrite (replaceFirst_prefix "/uploads/" (storedFilename params)).
Qed.

Lemma addDocument_then_deleteDocument_witness :
  deleteDocument inUploads afterOneUpload uploadedFiles "doc-1"
  = (true, [], delete (inUploads "a.pdf") uploadedFiles).
Proof.
  apply (addDocument_then_deleteDocument digest inUploads [] uploadedFiles clock
           "doc-1" (upload "a.pdf")).
  intros d Hd. by apply elem_of_nil in Hd.
Defined.

(** X5. An upload is flagged exactly when its file can be read and some
    document of the cache that is not ignored carries the digest of its
    bytes; in every other case -- unreadable file, no such document, only
    ignored ones -- it starts as [ANALYZING] without [duplicateOfId]. *)
Theorem addDocument_flags_exactly_on_a_live_match
    (sha256_hex : list Byte.byte → string) (uploadPath : string → string)
    (cache : list StoredDocumentRecord) (files : gmap string (list Byte.byte))
    (now : Clock) (id : string) (params : AddParams) :
  (∀ b, String.length (sha256_hex b) = 64) →
  let record := (addDocument sha256_hex uploadPath cache files now id params).1 in
  (sd_status record = POTENTIAL_DUPLICATE
   ↔ ∃ bytes d,
       files !! uploadPath (storedFilename params) = Some bytes
       ∧ d ∈ cache
       ∧ sd_fileHash d = Some (sha256_hex bytes)
       ∧ sd_duplicateIgnored d ≠ Some true)
  ∧ (sd_status record = POTENTIAL_DUPLICATE
     ∨ (sd_status record = ANALYZING ∧ sd_duplicateOfId record = None)).
Proof.
  intros Hlen. simpl. unfold hashFile.
  destruct (files !! uploadPath (storedFilename params)) as [bytes|] eqn:Hfile; simpl.
  - rewrite (sha256_hex_truthy sha256_hex Hlen).
    destruct (find (sameHash (sha256_hex bytes)) cache) as [d|] eqn:Hfind; simpl.
    + split; [|by left]. split; [|done]. intros _.
      destruct (find_split _ _ _ Hfind) as (l1 & l2 & -> & Hd & _).
      apply sameHash_true in Hd as [Hh Hi].
      exists bytes, d. split_and!; try done.
      apply elem_of_app. right. left.
    + split; [|by right]. split; [done|].
      intros (bytes' & d & [= <-] & Hin & Hh & Hi). exfalso.
      apply (proj1 (find_none_iff _ _) Hfind) in Hin.
      apply sameHash_false in Hin. by apply Hin.
  - split; [|by right]. split; [done|]. by intros (? & ? & ? & _).
Qed.

Lemma addDocument_flags_exactly_on_a_live_match_witness :
  let record :=
    (addDocument digest inUploads afterOneUpload uploadedFiles clock "doc-2"
       (upload "b.pdf")).1 in
  (sd_status record = POTENTIAL_DUPLICATE
   ↔ ∃ bytes d,
       uploadedFiles !! inUploads "b.pdf" = Some bytes
       ∧ d ∈ afterOneUpload
       ∧ sd_fileHash d = Some (digest bytes)
       ∧ sd_duplicateIgnored d ≠ Some true)
  ∧ (sd_status record = POTENTIAL_DUPLICATE
     ∨ (sd_status record = ANALYZING ∧ sd_duplicateOfId record = None)).
Proof.
  apply (addDocument_flags_exactly_on_a_live_match digest inUploads afterOneUpload
           uploadedFiles clock "doc-2" (upload "b.pdf")).
  intros b. vm_compute. reflexivity.
Defined.

(** X6. The [ignore-duplicate] route, on a cache whose ids are pairwise
    distinct: the document comes back with [duplicateIgnored] set and a
    status that is no longer [POTENTIAL_DUPLICATE] (that status becomes
    [OK], any other is kept), and from then on no upload is flagged
    against it. *)
Theorem ignored_document_is_no_target
    (sha256_hex : list Byte.byte → string) (uploadPath : string → string)
    (cache cache' : list StoredDocumentRecord) (id now : string)
    (doc : StoredDocumentRecord)
    (files : gmap string (list Byte.byte)) (clock : Clock) (id' : string)
    (params : AddParams) :
  NoDup (sd_id <$> cache) →
  ignoreDuplicate cache id now = (Some doc, cache') →
  sd_id doc = id
  ∧ sd_duplicateIgnored doc = Some true
  ∧ (∃ old, getDocument cache id = Some old
            ∧ sd_status doc
              = if decide (sd_status old = POTENTIAL_DUPLICATE) then OK
                else sd_status old)
  ∧ sd_status doc ≠ POTENTIAL_DUPLICATE
  ∧ sd_duplicateOfId
      (addDocument sha256_hex uploadPath cache' files clock id' params).1
    ≠ Some id.
Proof.
  intros Hnd Hrun. unfold ignoreDuplicate, getDocument in *.
  destruct (find (λ d, bool_decide (sd_id d = id)) cache) as [old|] eqn:Hfind;
    [|done].
  destruct (find_split _ _ _ Hfind) as (l1 & l2 & -> & Hd & Hl1 & _).
  apply bool_decide_eq_true in Hd.
  assert (Hl1' : ∀ x, x ∈ l1 → sd_id x ≠ sd_id old).
  { intros x Hx. specialize (Hl1 x Hx). apply bool_decide_eq_false in Hl1. congruence. }
  rewrite (updateDocument_found _ (sd_id old) _ now l1 old l2) in Hrun by done.
  simplify_eq. split_and!; try done.
  - eexists. split; [done|]. simpl. done.
  - simpl. by destruct (decide (sd_status old = POTENTIAL_DUPLICATE)),
                        (sd_status old).
  - simpl. unfold hashFile.
    destruct (files !! uploadPath (storedFilename params)) as [bytes|]; [|done].
    simpl. destruct (Js.truthy_string (sha256_hex bytes)); [|done].
    destruct (find (sameHash (sha256_hex bytes)) _) as [e|] eqn:He; [|done].
    simpl. intros [= Hid].
    destruct (find_split _ _ _ He) as (k1 & k2 & Heq & Hsame & _).
    assert (Hin : e ∈ l1 ++ applyPatch old (ignorePatch
                   (if decide (sd_status old = POTENTIAL_DUPLICATE) then OK
                    else sd_status old)) (sd_id old) now :: l2).
    { rewrite Heq. apply elem_of_app. right. left. }
    rewrite !fmap_app, fmap_cons in Hnd.
    apply NoDup_app in Hnd as (_ & Hdisj & Hnd2).
    apply NoDup_cons in Hnd2 as [Hnot _].
    apply elem_of_app in Hin as [Hin|Hin].
    + apply (Hl1' e Hin). done.
    + apply elem_of_cons in Hin as [->|Hin].
      * unfold sameHash in Hsame. simpl in Hsame.
        by rewrite andb_false_r in Hsame.
      * apply Hnot. rewrite <- Hid. apply list_elem_of_fmap. by exists e.
Qed.

Lemma ignored_document_is_no_target_witness :
  sd_id dismissedSecond = "doc-2"
  ∧ sd_duplicateIgnored dismissedSecond = Some true
  ∧ (∃ old, getDocument afterTwoUploads "doc-2" = Some old
            ∧ sd_status dismissedSecond
              = if decide (sd_status old = POTENTIAL_DUPLICATE) then OK
                else sd_status old)
  ∧ sd_status dismissedSecond ≠ POTENTIAL_DUPLICATE
  ∧ sd_duplicateOfId
      (addDocument digest inUploads (ignoreDuplicate afterTwoUploads "doc-2" "later").2
         uploadedFiles clock "doc-3" (upload "c.pdf")).1
    ≠ Some "doc-2".
Proof.
  apply (ignored_document_is_no_target digest inUploads afterTwoUploads _
           "doc-2" "later" _ uploadedFiles clock "doc-3" (upload "c.pdf")).
  - vm_compute. apply NoDup_cons. split.
    + intros H. apply list_elem_of_singleton in H. discriminate H.
    + apply NoDup_singleton.
  - vm_compute. reflexivity.
Defined.

(** X7. [PATCH /batch] answers one entry per item, in order: an item without
    a usable id fails with id [null], any other succeeds exactly when the
    cache holds its id. The ids of the cache are the same afterwards. *)
Theorem batchPatch_reports_per_item
    (now : string) (cache : list StoredDocumentRecord) (body : list BatchItem) :
  (batchPatch now cache body).1
  = (λ item,
       match bi_id item with
       | Some id =>
           if Js.truthy_string id
           then (Some id, bool_decide (id ∈ sd_id <$> cache))
           else (None, false)
       | None => (None, false)
       end) <$> body
  ∧ sd_id <$> (batchPatch now cache body).2 = sd_id <$> cache.
Proof.
  unfold batchPatch.
  assert (Hgen : ∀ results current,
            sd_id <$> current = sd_id <$> cache →
            let final :=
              foldl (λ st item,
                       let '(entry, cache') := batch_item now st.2 item in
                       (st.1 ++ [entry], cache'))
                    (results, current) body in
            final.1
            = results ++
              ((λ item,
                  match bi_id item with
                  | Some id =>
                      if Js.truthy_string id
                      then (Some id, bool_decide (id ∈ sd_id <$> cache))
                      else (None, false)
                  | None => (None, false)
                  end) <$> body)
            ∧ sd_id <$> final.2 = sd_id <$> cache).
  { induction body as [|item body IH]; intros results current Hids; simpl.
    - by rewrite app_nil_r.
    - destruct (batch_item now current item) as [entry current'] eqn:Hitem.
      assert (Hentry :
        entry = match bi_id item with
                | Some id =>
                    if Js.truthy_string id
                    then (Some id, bool_decide (id ∈ sd_id <$> cache))
                    else (None, false)
                | None => (None, false)
                end
        ∧ sd_id <$> current' = sd_id <$> cache).
      { unfold batch_item in Hitem.
        destruct (bi_id item) as [id|]; [|by simplify_eq].
        destruct (Js.truthy_string id); [|by simplify_eq].
        destruct (updateDocument_ids current id (default noPatch (bi_patch item)) now)
          as [Hsame Hsome].
        destruct (updateDocument current id (default noPatch (bi_patch item)) now)
          as [updated current''].
        simpl in Hsame, Hsome. simplify_eq. split; [|congruence].
        f_equal. apply bool_decide_ext. by rewrite Hsome, Hids. }
      destruct Hentry as [-> Hcur].
      destruct (IH (results ++ [match bi_id item with
                | Some id =>
                    if Js.truthy_string id
                    then (Some id, bool_decide (id ∈ sd_id <$> cache))
                    else (None, false)
                | None => (None, false)
                end]) current' Hcur) as [H1 H2].
      split; [|exact H2]. by rewrite H1, <- app_assoc. }
  destruct (Hgen [] cache eq_refl) as [H1 H2]. done.
Qed.

(** X8. The stored file name keeps letters, digits, [_], [.] and [-] of the
    original name and nothing else (every run of other characters shows as
    one underscore); a name that is clean already is kept as it is, so
    cleaning twice equals cleaning once. *)
Theorem safeName_is_clean_and_stable (originalname : string) :
  JsText.all JsText.isFileChar (safeName originalname) = true
  ∧ safeName (safeName originalname) = safeName originalname
  ∧ (JsText.all JsText.isFileChar originalname = true →
     safeName originalname = originalname).
Proof.
  unfold safeName. split_and!.
  - apply collapseRuns_all.
  - apply collapseRuns_fixed, collapseRuns_all.
  - apply collapseRuns_fixed.
Qed.

End StoreOpsTheorems.

(* ===================================================================== *)
(** ** The reactive passes: further properties *)
(* ===================================================================== *)

Module SyncTheorems.
Import Types App LinkFacts Scenarios.

Lemma existsb_false_forall {A : Type} (f : A → bool) (l : list A) :
  existsb f l = false ↔ ∀ x, x ∈ l → f x = false.
Proof.
  induction l as [|y l IH]; simpl.
  - split; [|done]. intros _ x Hx. by apply elem_of_nil in Hx.
  - rewrite orb_false_iff, IH. split.
    + intros [Hy Hl] x [->|Hx]%elem_of_cons; [done|by apply Hl].
    + intros H. split; [apply H; left|]. intros x Hx. apply H. by right.
Qed.

(** The pass is a map, whether or not it reports a change. *)
Lemma syncTransactionLinks_map (documents : list Document)
    (txs : list AccountingTransaction) (now : Js.Date) :
  syncTransactionLinks documents txs now
  = (λ tx, if dangling (list_to_set (doc_id <$> documents)) tx
           then resetLink now tx else tx) <$> txs.
Proof.
  unfold syncTransactionLinks.
  destruct (existsb _ txs) eqn:Hex; [done|].
  rewrite existsb_false_forall in Hex.
  induction txs as [|tx txs IH]; [done|].
  rewrite fmap_cons, (Hex tx) by left. f_equal.
  apply IH. intros x Hx. apply Hex. by right.
Qed.

(** X9. After the transaction-side pass every non-empty [documentId] names a
    document of the list; the transactions keep their ids and order, and
    each one is either left as it was or -- when its link was dangling --
    reset to no document and [MISSING_RECEIPT]. *)
Theorem syncTransactionLinks_leaves_no_dangling_link
    (documents : list Document) (txs : list AccountingTransaction)
    (now : Js.Date) :
  let out := syncTransactionLinks documents txs now in
  tx_id <$> out = tx_id <$> txs
  ∧ (∀ tx d, tx ∈ out → tx_documentId tx = Some d → d ≠ EmptyString →
       d ∈ doc_id <$> documents)
  ∧ ∀ i tx, txs !! i = Some tx →
      (out !! i = Some tx
       ∧ (∀ d, tx_documentId tx = Some d → d ≠ EmptyString →
            d ∈ doc_id <$> documents))
      ∨ (out !! i = Some (resetLink now tx)
         ∧ ∃ d, tx_documentId tx = Some d ∧ d ≠ EmptyString
                ∧ d ∉ doc_id <$> documents).
Proof.
  simpl. rewrite syncTransactionLinks_map.
  set (ids := list_to_set (doc_id <$> documents) : gset string).
  assert (Hcase : ∀ tx,
            (dangling ids tx = false
             ∧ ∀ d, tx_documentId tx = Some d → d ≠ EmptyString →
                    d ∈ doc_id <$> documents)
            ∨ (dangling ids tx = true
               ∧ ∃ d, tx_documentId tx = Some d ∧ d ≠ EmptyString
                      ∧ d ∉ doc_id <$> documents)).
  { intros tx. unfold dangling.
    destruct (tx_documentId tx) as [d|]; [|left; by split].
    destruct d as [|a d]; [left; split; [done|]; by intros ? [= <-]|].
    simpl. destruct (decide (String a d ∈ ids)) as [Hin|Hout].
    - left. rewrite bool_decide_eq_false_2 by (intros H; by apply H).
      split; [done|]. intros ? [= <-] _. subst ids.
      by apply elem_of_list_to_set in Hin.
    - right. rewrite bool_decide_eq_true_2 by done. split; [done|].
      exists (String a d). split_and!; [done|done|].
      intros Hin. apply Hout. subst ids. by apply elem_of_list_to_set. }
  split_and!.
  - rewrite <- list_fmap_compose. apply list_fmap_ext. intros i tx _. simpl.
    by destruct (dangling ids tx).
  - intros tx d (tx0 & -> & Hin)%list_elem_of_fmap.
    destruct (Hcase tx0) as [[-> Hok]|[-> _]]; [apply Hok|done].
  - intros i tx Hi. rewrite list_lookup_fmap, Hi. simpl.
    destruct (Hcase tx) as [[-> Hok]|[-> Hbad]]; [left|right]; done.
Qed.

(** X10. A second transaction-side pass over the same documents changes
    nothing. *)
Theorem syncTransactionLinks_twice
    (documents : list Document) (txs : list AccountingTransaction)
    (now1 now2 : Js.Date) :
  syncTransactionLinks documents (syncTransactionLinks documents txs now1) now2
  = syncTransactionLinks documents txs now1.
Proof.
  rewrite (syncTransactionLinks_map documents txs now1).
  unfold syncTransactionLinks at 1.
  set (ids := list_to_set (doc_id <$> documents) : gset string).
  assert (Hnone : existsb (dangling ids)
            ((λ tx, if dangling ids tx then resetLink now1 tx else tx) <$> txs)
          = false).
  { apply existsb_false_forall. intros tx (tx0 & -> & _)%list_elem_of_fmap.
    destruct (dangling ids tx0) eqn:Hd; [done|exact Hd]. }
  by rewrite Hnone.
Qed.

Lemma sameMembers_refl (ids : list string) : sameMembers ids ids = true.
Proof.
  unfold sameMembers. rewrite bool_decide_eq_true_2 by done. simpl.
  apply forallb_forall. intros x Hx. apply bool_decide_eq_true.
  by apply list_elem_of_In.
Qed.

(** X11. A second document-side pass over the same transactions changes
    nothing, and the pass never touches anything but
    [linkedTransactionIds]: ids and order of the documents stay. *)
Theorem syncDocumentLinks_twice
    (txs : list AccountingTransaction) (docs : list Document) :
  syncDocumentLinks txs (syncDocumentLinks txs docs) = syncDocumentLinks txs docs
  ∧ doc_id <$> syncDocumentLinks txs docs = doc_id <$> docs.
Proof.
  assert (Hsync : ∀ d, d ∈ syncDocumentLinks txs docs →
            linksInSync (linkedByDoc txs) d = true).
  { intros d Hd. unfold syncDocumentLinks in Hd.
    destruct (existsb _ docs) eqn:Hex.
    - apply list_elem_of_fmap in Hd as (d0 & -> & _).
      destruct (linksInSync (linkedByDoc txs) d0) eqn:H0; [done|].
      unfold linksInSync. simpl. apply sameMembers_refl.
    - rewrite existsb_false_forall in Hex. specialize (Hex d Hd).
      by apply negb_false_iff in Hex. }
  split.
  - unfold syncDocumentLinks at 1.
    assert (Hnone : existsb (λ doc, negb (linksInSync (linkedByDoc txs) doc))
                      (syncDocumentLinks txs docs) = false).
    { apply existsb_false_forall. intros d Hd. by rewrite (Hsync d Hd). }
    by rewrite Hnone.
  - unfold syncDocumentLinks. destruct (existsb _ docs); [|done].
    rewrite <- list_fmap_compose. apply list_fmap_ext. intros i d _. simpl.
    by destruct (linksInSync (linkedByDoc txs) d).
Qed.

(** X12. After the document-side pass a document with a non-empty id lists
    exactly the ids of the transactions that point to it, provided the
    link lists the pass starts from repeat no id. *)
Theorem syncDocumentLinks_lists_the_linked_transactions
    (txs : list AccountingTransaction) (docs : list Document) (d : Document) :
  (∀ doc, doc ∈ docs → NoDup (default [] (doc_linkedTransactionIds doc))) →
  d ∈ syncDocumentLinks txs docs →
  doc_id d ≠ EmptyString →
  ∀ x, x ∈ default [] (doc_linkedTransactionIds d)
       ↔ ∃ tx, tx ∈ txs ∧ tx_documentId tx = Some (doc_id d) ∧ tx_id tx = x.
Proof. apply syncDocumentLinks_exact. Qed.

Lemma syncDocumentLinks_lists_the_linked_transactions_witness :
  "tx-A" ∈ default [] (doc_linkedTransactionIds (document "D1" None (Some ["tx-A"])))
  ↔ ∃ tx, tx ∈ linkedTransactions
          ∧ tx_documentId tx = Some (doc_id (document "D1" None (Some ["tx-A"])))
          ∧ tx_id tx = "tx-A".
Proof.
  apply (syncDocumentLinks_lists_the_linked_transactions linkedTransactions
           [document "D1" None (Some ["tx-A"])]
           (document "D1" None (Some ["tx-A"]))).
  - intros doc Hdoc. apply list_elem_of_singleton in Hdoc. subst doc. simpl.
    apply NoDup_singleton.
  - vm_compute. left.
  - simpl. discriminate.
Defined.

End SyncTheorems.

Module TaskTheorems.
Import Types App JsSetFacts TaskFacts Scenarios MoreScenarios.

Section Generator.
Variable toLocaleDateString : Js.Date → string.

Abbreviation begin M := {| nextTasks := []; missingIds := M; changed := false |}.

Lemma filter_none {A : Type} (P : A → Prop) `{∀ x, Decision (P x)} (l : list A) :
  Forall (λ x, ¬ P x) l → filter P l = [].
Proof.
  induction 1 as [|x l Hx _ IH]; [done|].
  by rewrite filter_cons, decide_False.
Qed.

Lemma task_step_emits now M task :
  ∃ new, nextTasks (task_step now (begin M) task) = [new]
         ∧ TaskSpec.kept_or_closed now task new.
Proof.
  unfold task_step, push. simpl.
  destruct (task_relatedTransactionId task) as [r|]; simpl;
    [|eexists; split; [done|by left]].
  destruct (Js.truthy_string r); simpl; [|eexists; split; [done|by left]].
  destruct (JsSet.has r M); simpl; [eexists; split; [done|by left]|].
  destruct (decide (task_status task ≠ DONE)); simpl.
  - eexists; split; [done|]. by right.
  - eexists; split; [done|by left].
Qed.

Lemma walk_emits now tasks :
  ∀ M, Forall2 (TaskSpec.kept_or_closed now) tasks
         (nextTasks (foldl (task_step now) (begin M) tasks)).
Proof.
  induction tasks as [|t ts IH]; intros M; simpl; [constructor|].
  destruct (task_step_emits now M t) as (new & Hnew & Hrel).
  destruct (task_step now (begin M) t) as [n1 M1 c1]. simpl in Hnew. subst n1.
  rewrite (walk_acc now ts [new] M1 c1). simpl.
  constructor; [done|apply IH].
Qed.

(** The outcome of the generator: the walked list followed by the fresh
    tasks, whatever the change flag says. *)
Lemma regenerateTasks_shape (txs : list AccountingTransaction)
    (tasks : list TaskItem) (now : Z) :
  let walked :=
    foldl (task_step now)
      (begin (JsSet.of_list
                (tx_id <$> filter (λ tx, tx_status tx = MISSING_RECEIPT) txs)))
      tasks in
  regenerateTasks toLocaleDateString txs tasks now
  = nextTasks walked
    ++ (receiptTask toLocaleDateString now
          <$> omap (λ m, find (λ t, bool_decide (tx_id t = m)) txs)
                (missingIds walked)).
Proof.
  simpl. unfold regenerateTasks. rewrite missing_fold. simpl.
  destruct (omap _ _) as [|tx rest]; [|done].
  destruct (changed _) eqn:Hc; [done|].
  simpl. rewrite app_nil_r. symmetry. by apply walk_unchanged.
Qed.

(** Every id of the set is, after the walk, still in the set or the
    [relatedTransactionId] of a task that was walked. *)
Lemma walk_covers now tasks :
  ∀ M x, x ∈ M →
    x ∈ missingIds (foldl (task_step now) (begin M) tasks)
    ∨ ∃ t, t ∈ nextTasks (foldl (task_step now) (begin M) tasks)
           ∧ task_relatedTransactionId t = Some x.
Proof.
  induction tasks as [|t ts IH]; intros M x Hx; simpl; [by left|].
  assert (Hstep : x ∈ missingIds (task_step now (begin M) t)
            ∨ ∃ t', t' ∈ nextTasks (task_step now (begin M) t)
                    ∧ task_relatedTransactionId t' = Some x).
  { unfold task_step, push. simpl.
    destruct (task_relatedTransactionId t) as [r|] eqn:Hrel; simpl; [|by left].
    destruct (Js.truthy_string r); simpl; [|by left].
    destruct (JsSet.has r M); simpl.
    - destruct (decide (x = r)) as [->|Hne].
      + right. exists t. split; [left|done].
      + left. by apply elem_of_delete.
    - destruct (decide (task_status t ≠ DONE)); simpl; by left. }
  destruct (task_step now (begin M) t) as [n1 M1 c1]. simpl in Hstep.
  rewrite (walk_acc now ts n1 M1 c1). simpl.
  destruct Hstep as [Hin|(t' & Ht' & Hrel)].
  - destruct (IH M1 x Hin) as [?|(t' & Ht' & Hrel)]; [by left|].
    right. exists t'. split; [|done]. apply elem_of_app. by right.
  - right. exists t'. split; [|done]. apply elem_of_app. by left.
Qed.

(** An id that some walked task relates to is not in the set afterwards. *)
Lemma walk_claims now tasks :
  ∀ M r, NoDup M → r ≠ EmptyString →
    (r ∉ M ∨ ∃ t, t ∈ tasks ∧ task_relatedTransactionId t = Some r) →
    r ∉ missingIds (foldl (task_step now) (begin M) tasks).
Proof.
  induction tasks as [|t ts IH]; intros M r HM Hr Hcase; simpl.
  - destruct Hcase as [?|(t & Ht & _)]; [done|]. by apply elem_of_nil in Ht.
  - destruct (task_step_missing now M t HM) as [Hnd Hsub].
    assert (Hstep : task_relatedTransactionId t = Some r →
              r ∉ missingIds (task_step now (begin M) t)).
    { intros Hrel. unfold task_step, push. simpl. rewrite Hrel.
      destruct r as [|a r]; [done|]. simpl.
      destruct (JsSet.has (String a r) M) eqn:Hhas; simpl.
      - intros Hin. by apply elem_of_delete in Hin as [? _].
      - apply bool_decide_eq_false in Hhas.
        destruct (decide (task_status t ≠ DONE)); simpl; done. }
    destruct (task_step now (begin M) t) as [n1 M1 c1]. simpl in *.
    rewrite (walk_acc now ts n1 M1 c1). simpl.
    apply IH; [done|done|].
    destruct Hcase as [Hout|(t' & [->|Ht']%elem_of_cons & Hrel)].
    + left. intros Hin. by apply Hout, Hsub.
    + left. by apply Hstep.
    + right. by exists t'.
Qed.

(** X13. The generator never drops or reorders a task: the old tasks come
    first, each one kept as it is or -- only if it was not [DONE] yet --
    closed, with [completedAt] set once; what follows are fresh receipt
    tasks of transactions of the list. *)
Theorem regenerateTasks_keeps_every_task
    (txs : list AccountingTransaction) (tasks : list TaskItem) (now : Z) :
  ∃ kept made,
    regenerateTasks toLocaleDateString txs tasks now = kept ++ made
    ∧ Forall2 (λ old new,
                 task_id new = task_id old
                 ∧ task_relatedTransactionId new = task_relatedTransactionId old
                 ∧ (new = old
                    ∨ (task_status old ≠ DONE
                       ∧ task_status new = DONE
                       ∧ task_completedAt new
                         = Some (default (Js.DateOfMs now) (task_completedAt old)))))
        tasks kept
    ∧ Forall (λ t, ∃ tx, tx ∈ txs ∧ t = receiptTask toLocaleDateString now tx
                         ∧ ∃ tx', tx' ∈ txs ∧ tx_id tx' = tx_id tx
                                  ∧ tx_status tx' = MISSING_RECEIPT) made.
Proof.
  pose proof (regenerateTasks_shape txs tasks now) as Hshape. simpl in Hshape.
  set (M0 := JsSet.of_list
               (tx_id <$> filter (λ tx, tx_status tx = MISSING_RECEIPT) txs)) in *.
  set (walked := foldl (task_step now) (begin M0) tasks) in *.
  eexists _, _. split; [exact Hshape|]. split.
  - eapply Forall2_impl; [apply walk_emits|].
    intros old new [->|[-> Hnd]]; [by split_and!; [| |left]|].
    split_and!; [done|done|]. right. split_and!; [done|done|].
    simpl. by destruct (task_completedAt old).
  - apply Forall_fmap, Forall_forall. intros tx Htx. simpl.
    apply list_elem_of_omap in Htx as (m & Hm & Hfind).
    apply find_some in Hfind as [Hin Hid].
    apply bool_decide_eq_true in Hid.
    exists tx. split_and!; [by apply list_elem_of_In|done|].
    destruct (walk_missing now tasks M0 (of_list_NoDup _)) as [_ Hsub].
    apply Hsub in Hm. subst M0. apply (proj1 (elem_of_of_list _ _)) in Hm.
    apply list_elem_of_fmap in Hm as (tx' & -> & Htx').
    apply list_elem_of_filter in Htx' as [Hst Htx'].
    exists tx'. by split_and!.
Qed.

(** X14. After the generator has run, every transaction in [MISSING_RECEIPT]
    is the [relatedTransactionId] of some task of the list. *)
Theorem regenerateTasks_covers_every_missing_receipt
    (txs : list AccountingTransaction) (tasks : list TaskItem) (now : Z)
    (tx : AccountingTransaction) :
  tx ∈ txs →
  tx_status tx = MISSING_RECEIPT →
  ∃ t, t ∈ regenerateTasks toLocaleDateString txs tasks now
       ∧ task_relatedTransactionId t = Some (tx_id tx).
Proof.
  intros Htx Hst.
  pose proof (regenerateTasks_shape txs tasks now) as Hshape. simpl in Hshape.
  rewrite Hshape.
  set (M0 := JsSet.of_list
               (tx_id <$> filter (λ tx, tx_status tx = MISSING_RECEIPT) txs)).
  assert (HM : tx_id tx ∈ M0).
  { subst M0. apply elem_of_of_list, list_elem_of_fmap. exists tx.
    split; [done|]. by apply list_elem_of_filter. }
  destruct (walk_covers now tasks M0 (tx_id tx) HM) as [Hleft|(t & Ht & Hrel)].
  - assert (Hids : tx_id tx ∈ tx_id <$> txs)
      by (apply list_elem_of_fmap; by exists tx).
    destruct (find_by_id txs (tx_id tx) Hids) as (tx0 & Hfind & Hid).
    exists (receiptTask toLocaleDateString now tx0). split.
    + apply elem_of_app. right. apply list_elem_of_fmap. exists tx0.
      split; [done|]. apply list_elem_of_omap. by exists (tx_id tx).
    + simpl. by rewrite Hid.
  - exists t. split; [|done]. apply elem_of_app. by left.
Qed.

(** X15. A transaction that already has a task -- open, in progress or done --
    gets no second one: the number of tasks related to its id is the same
    before and after the run. In particular a [DONE] task is not reopened
    and not replaced when its transaction misses its receipt again. *)
Theorem regenerateTasks_adds_no_second_task
    (txs : list AccountingTransaction) (tasks : list TaskItem) (now : Z)
    (r : string) (t : TaskItem) :
  r ≠ EmptyString →
  t ∈ tasks →
  task_relatedTransactionId t = Some r →
  length (filter (λ t', task_relatedTransactionId t' = Some r)
            (regenerateTasks toLocaleDateString txs tasks now))
  = length (filter (λ t', task_relatedTransactionId t' = Some r) tasks).
Proof.
  intros Hr Ht Hrel.
  pose proof (regenerateTasks_shape txs tasks now) as Hshape. simpl in Hshape.
  rewrite Hshape, filter_app, length_app.
  set (M0 := JsSet.of_list
               (tx_id <$> filter (λ tx, tx_status tx = MISSING_RECEIPT) txs)).
  set (walked := foldl (task_step now) (begin M0) tasks).
  assert (Hgone : r ∉ missingIds walked).
  { apply walk_claims; [apply of_list_NoDup|done|]. right. by exists t. }
  assert (Hmade : filter (λ t', task_relatedTransactionId t' = Some r)
            (receiptTask toLocaleDateString now
               <$> omap (λ m, find (λ t, bool_decide (tx_id t = m)) txs)
                     (missingIds walked)) = []).
  { apply filter_none, Forall_fmap, Forall_forall. intros tx Htx. simpl.
    apply list_elem_of_omap in Htx as (m & Hm & Hfind).
    apply find_some in Hfind as [_ Hid]. apply bool_decide_eq_true in Hid.
    intros [= Heq]. apply Hgone. by rewrite <- Heq, Hid. }
  rewrite Hmade. simpl. rewrite Nat.add_0_r.
  pose proof (walk_emits now tasks M0) as Hall. fold walked in Hall.
  clear -Hall. induction Hall as [|old new olds news Hon _ IH]; [done|].
  rewrite !filter_cons.
  assert (Hsame : task_relatedTransactionId new = task_relatedTransactionId old)
    by (destruct Hon as [->|[-> _]]; done).
  rewrite Hsame. case_decide; simpl; by rewrite IH.
Qed.

End Generator.

Lemma regenerateTasks_covers_witness :
  ∃ t, t ∈ regenerateTasks germanDate openTransactions [] 0
       ∧ task_relatedTransactionId t = Some "tx-A".
Proof.
  apply (regenerateTasks_covers_every_missing_receipt germanDate openTransactions
           [] 0 (transaction "tx-A" (Some "A") None MISSING_RECEIPT)).
  - left.
  - reflexivity.
Defined.

Lemma regenerateTasks_adds_no_second_task_witness :
  length (filter (λ t', task_relatedTransactionId t' = Some "tx-A")
            (regenerateTasks germanDate openTransactions [closedTask] 0))
  = length (filter (λ t', task_relatedTransactionId t' = Some "tx-A") [closedTask]).
Proof.
  apply (regenerateTasks_adds_no_second_task germanDate openTransactions
           [closedTask] 0 "tx-A" closedTask).
  - discriminate.
  - left.
  - reflexivity.
Defined.

End TaskTheorems.

(* ===================================================================== *)
(** ** The reconciliation engine: further properties *)
(* ===================================================================== *)

Module EngineTheorems.
Import Types Lexoffice LexofficeFacts LexofficeLoop LexofficeCounts.
Import App LinkFacts SyncTheorems Scenarios.

(** The other two outputs of the loop: one notification per payload, and
    the receipts counted as missing. *)
Lemma upsert_loop_counters index_map linked now incoming :
  ∀ st st',
    upsert_loop index_map linked now st incoming = Some st' →
    length (notifications st') = length (notifications st) + length incoming
    ∧ missingReceipts st'
      = missingReceipts st
        + length (filter (λ p, Js.truthy (lookupDocumentId linked p) = false)
                    incoming).
Proof.
  induction incoming as [|p ps IH]; intros st st' Hrun.
  - unfold upsert_loop in Hrun. simpl in Hrun. simplify_eq. simpl. lia.
  - rewrite upsert_loop_cons in Hrun.
    destruct (upsert_payload index_map linked now st p) as [st1|] eqn:Hstep;
      simpl in Hrun; [|done].
    destruct (IH st1 st' Hrun) as [Hn Hm]. rewrite Hn, Hm.
    rewrite filter_cons.
    assert (Hst1 : length (notifications st1) = S (length (notifications st))
              ∧ missingReceipts st1
                = if Js.truthy (lookupDocumentId linked p)
                  then missingReceipts st else S (missingReceipts st)).
    { unfold upsert_payload, statusOf in Hstep.
      destruct (index_map !! p_id p) as [i|].
      - destruct (updatedTransactions st !! i); simpl in Hstep; [|done].
        simplify_eq. simpl. rewrite length_app. simpl.
        split; [lia|]. by destruct (Js.truthy (lookupDocumentId linked p)).
      - simplify_eq. simpl. rewrite length_app. simpl.
        split; [lia|]. by destruct (Js.truthy (lookupDocumentId linked p)). }
    destruct Hst1 as [-> ->].
    destruct (Js.truthy (lookupDocumentId linked p)) eqn:Ht.
    + rewrite decide_False by done. simpl. lia.
    + rewrite decide_True by done. simpl. lia.
Qed.

(** X16. Each call tells one notification per payload, and [missingReceipts]
    counts the payloads whose invoice number leads to no document -- be
    they inserted or updated. *)
Theorem upsert_counts_missing_receipts_per_payload
    (incoming : list LexofficeTransactionPayload)
    (existing : list AccountingTransaction)
    (linked : gmap string string) (now : Js.Date) :
  ∃ r, upsertTransactionsFromLexoffice incoming existing linked now = Some r
    ∧ length (notifications r) = length incoming
    ∧ missingReceipts r
      = length (filter (λ p, Js.truthy (lookupDocumentId linked p) = false) incoming)
    ∧ missingReceipts r ≤ length incoming.
Proof.
  destruct (upsert_spec incoming existing linked now) as (r & Hrun & _).
  exists r. split; [done|].
  destruct (upsert_loop_counters _ _ _ _ _ _ Hrun) as [Hn Hm]. simpl in Hn, Hm.
  split_and!; [done|done|]. rewrite Hm. apply length_filter.
Qed.

(** A property of transactions that an update keeps is still there, at
    every old position, after the whole loop. *)
Lemma upsert_loop_keeps (P : AccountingTransaction → Prop) index_map linked now :
  (∀ tx p d s, P tx → P (updateExisting tx p d s now)) →
  ∀ incoming st st' i tx,
    upsert_loop index_map linked now st incoming = Some st' →
    updatedTransactions st !! i = Some tx → P tx →
    ∃ tx', updatedTransactions st' !! i = Some tx' ∧ P tx'.
Proof.
  intros Hkeep. induction incoming as [|p ps IH]; intros st st' i tx Hrun Hi HP.
  - unfold upsert_loop in Hrun. simpl in Hrun. simplify_eq. by exists tx.
  - rewrite upsert_loop_cons in Hrun.
    destruct (upsert_payload index_map linked now st p) as [st1|] eqn:Hstep;
      simpl in Hrun; [|done].
    assert (Hst1 : ∃ tx1, updatedTransactions st1 !! i = Some tx1 ∧ P tx1).
    { unfold upsert_payload in Hstep.
      destruct (index_map !! p_id p) as [j|].
      - destruct (updatedTransactions st !! j) as [ex|] eqn:Hj;
          simpl in Hstep; [|done].
        simplify_eq. simpl. destruct (decide (j = i)) as [->|Hne].
        + eexists. split.
          * apply list_lookup_insert_eq. by eapply lookup_lt_Some.
          * apply Hkeep. congruence.
        + exists tx. by rewrite list_lookup_insert_ne.
      - simplify_eq. simpl. exists tx. split; [|done].
        rewrite lookup_app_l; [done|]. by eapply lookup_lt_Some. }
    destruct Hst1 as (tx1 & Hi1 & HP1). by eapply IH.
Qed.

(** X17. An import never takes anything away from a transaction it already
    knew: at its old position the transaction keeps [notes] and
    [createdAt], and one that was linked to a document is still linked
    afterwards. *)
Theorem upsert_keeps_notes_creation_and_link
    (incoming : list LexofficeTransactionPayload)
    (existing : list AccountingTransaction)
    (linked : gmap string string) (now : Js.Date)
    (i : nat) (tx : AccountingTransaction) :
  existing !! i = Some tx →
  ∃ r tx',
    upsertTransactionsFromLexoffice incoming existing linked now = Some r
    ∧ updatedTransactions r !! i = Some tx'
    ∧ tx_notes tx' = tx_notes tx
    ∧ tx_createdAt tx' = tx_createdAt tx
    ∧ (is_Some (tx_documentId tx) → is_Some (tx_documentId tx')).
Proof.
  intros Hi.
  destruct (upsert_spec incoming existing linked now) as (r & Hrun & _).
  destruct (upsert_loop_keeps
              (λ t, tx_notes t = tx_notes tx ∧ tx_createdAt t = tx_createdAt tx
                    ∧ (is_Some (tx_documentId tx) → is_Some (tx_documentId t)))
              (indexByExternalId existing) linked now) with
    (incoming := incoming)
    (st := {| updatedTransactions := existing; notifications := [];
              imported := 0; updated := 0; skipped := 0; missingReceipts := 0 |})
    (st' := r) (i := i) (tx := tx) as (tx' & Hi' & Hn & Hc & Hl); try done.
  { intros t p d s (Hn & Hc & Hl). simpl. split_and!; [done|done|].
    intros Hsome. specialize (Hl Hsome). unfold nullish.
    destruct d; [by eexists|done]. }
  exists r, tx'. by split_and!.
Qed.

Lemma upsert_keeps_notes_creation_and_link_witness :
  ∃ r tx',
    upsertTransactionsFromLexoffice [payload "A" None] linkedTransactions
      invoiceMap epoch = Some r
    ∧ updatedTransactions r !! 0 = Some tx'
    ∧ tx_notes tx' = tx_notes (transaction "tx-A" (Some "A") (Some "D1") COMPLETE)
    ∧ tx_createdAt tx'
      = tx_createdAt (transaction "tx-A" (Some "A") (Some "D1") COMPLETE)
    ∧ (is_Some (tx_documentId (transaction "tx-A" (Some "A") (Some "D1") COMPLETE))
       → is_Some (tx_documentId tx')).
Proof.
  apply (upsert_keeps_notes_creation_and_link [payload "A" None] linkedTransactions
           invoiceMap epoch 0).
  reflexivity.
Defined.

(** Behind the old list the loop only ever appends: what stands at a
    position past the old length was built by [newTransaction]. *)
Lemma upsert_loop_appends index_map linked now (batch : list LexofficeTransactionPayload) n :
  (∀ e i, index_map !! e = Some i → i < n) →
  ∀ incoming st st',
    (∀ p, p ∈ incoming → p ∈ batch) →
    n ≤ length (updatedTransactions st) →
    (∀ j tx, n ≤ j → updatedTransactions st !! j = Some tx →
       ∃ p, p ∈ batch
            ∧ tx = newTransaction p (lookupDocumentId linked p)
                     (statusOf (lookupDocumentId linked p)) now) →
    upsert_loop index_map linked now st incoming = Some st' →
    ∀ j tx, n ≤ j → updatedTransactions st' !! j = Some tx →
      ∃ p, p ∈ batch
           ∧ tx = newTransaction p (lookupDocumentId linked p)
                    (statusOf (lookupDocumentId linked p)) now.
Proof.
  intros Hcover. induction incoming as [|p ps IH]; intros st st' Hsub Hn Hinv Hrun.
  - unfold upsert_loop in Hrun. simpl in Hrun. by simplify_eq.
  - rewrite upsert_loop_cons in Hrun.
    destruct (upsert_payload index_map linked now st p) as [st1|] eqn:Hstep;
      simpl in Hrun; [|done].
    apply (IH st1 st'); [intros q Hq; apply Hsub; by right| | |done].
    + unfold upsert_payload in Hstep.
      destruct (index_map !! p_id p) as [i|].
      * destruct (updatedTransactions st !! i); simpl in Hstep; [|done].
        simplify_eq. simpl. by rewrite length_insert.
      * simplify_eq. simpl. rewrite length_app. lia.
    + intros j tx Hj Hlook. unfold upsert_payload in Hstep.
      destruct (index_map !! p_id p) as [i|] eqn:Hidx.
      * destruct (updatedTransactions st !! i); simpl in Hstep; [|done].
        simplify_eq. simpl in Hlook.
        rewrite list_lookup_insert_ne in Hlook.
        -- by apply (Hinv j).
        -- specialize (Hcover _ _ Hidx). lia.
      * simplify_eq. simpl in Hlook.
        apply lookup_app_Some in Hlook as [Hold|[Hlen Hnew]].
        -- by apply (Hinv j).
        -- apply list_lookup_singleton_Some in Hnew as [_ <-].
           exists p. split; [apply Hsub; left|done].
Qed.

(** X18. Every transaction the engine appends comes from a payload of the
    batch and has a status that agrees with its link: [COMPLETE] exactly
    when its [documentId] is a non-empty string; its source is the ledger
    provider and its id is [tx-<externalId>]. *)
Theorem upsert_inserts_agree_on_status
    (incoming : list LexofficeTransactionPayload)
    (existing : list AccountingTransaction)
    (linked : gmap string string) (now : Js.Date) :
  ∃ r, upsertTransactionsFromLexoffice incoming existing linked now = Some r
    ∧ ∀ j tx, length existing ≤ j → updatedTransactions r !! j = Some tx →
        (tx_status tx = COMPLETE ↔ Js.truthy (tx_documentId tx) = true)
        ∧ (tx_status tx = COMPLETE ∨ tx_status tx = MISSING_RECEIPT)
        ∧ tx_source tx = LEXOFFICE
        ∧ ∃ p, p ∈ incoming ∧ tx_externalId tx = Some (p_id p)
               ∧ tx_id tx = "tx-" +:+ p_id p
               ∧ tx_documentId tx = lookupDocumentId linked p.
Proof.
  destruct (upsert_spec incoming existing linked now) as (r & Hrun & _).
  exists r. split; [done|]. intros j tx Hj Hlook.
  destruct (upsert_loop_appends (indexByExternalId existing) linked now incoming
              (length existing)) with
    (incoming := incoming)
    (st := {| updatedTransactions := existing; notifications := [];
              imported := 0; updated := 0; skipped := 0; missingReceipts := 0 |})
    (st' := r) (j := j) (tx := tx) as (p & Hp & ->); try done.
  { intros e i Hi. destruct (indexByExternalId_Some existing e i Hi) as (t & Hl & _).
    by eapply lookup_lt_Some. }
  { simpl. intros k t Hk Hl. apply lookup_lt_Some in Hl. lia. }
  simpl. unfold statusOf.
  destruct (Js.truthy (lookupDocumentId linked p)); split_and!; try done;
    try (by left); try (by right); by exists p.
Qed.

End EngineTheorems.

(* ===================================================================== *)
(** ** The import handler: properties *)
(* ===================================================================== *)

Module ImportTheorems.
Import Types Lexoffice LexofficeFacts LexofficeLoop App LinkFacts SyncTheorems.
Import ImportFlow Scenarios MoreScenarios.

Lemma invoice_fold_snoc (l : list Document) (d : Document) :
  foldl invoice_step ∅ (l ++ [d]) = invoice_step (foldl invoice_step ∅ l) d.
Proof. by rewrite foldl_app. Qed.

Lemma invoice_fold_lookup (l : list Document) (n : string) :
  foldl invoice_step ∅ l !! n
  = if Js.truthy_string n
    then doc_id <$> last (filter (λ d, doc_invoiceNumber d = Some n) l)
    else None.
Proof.
  induction l as [|d l IH] using rev_ind.
  - simpl. rewrite lookup_empty. by destruct (Js.truthy_string n).
  - rewrite invoice_fold_snoc, filter_app. unfold invoice_step.
    rewrite filter_cons, filter_nil.
    destruct (doc_invoiceNumber d) as [m|] eqn:Hm.
    + destruct (decide (m = n)) as [->|Hne].
      * rewrite decide_True by done.
        destruct (Js.truthy_string n) eqn:Ht; simpl.
        -- by rewrite lookup_insert_eq, last_snoc.
        -- exact IH.
      * rewrite decide_False by congruence. rewrite app_nil_r.
        destruct (Js.truthy_string m); simpl; [|exact IH].
        rewrite lookup_insert_ne by done. exact IH.
    + rewrite decide_False by done. rewrite app_nil_r. exact IH.
Qed.

Lemma invoice_map_lookup
    (documents candidateDocuments : list Document) (n : string) :
  buildInvoiceMap documents candidateDocuments !! n
  = if Js.truthy_string n
    then doc_id <$> last (filter (λ d, doc_invoiceNumber d = Some n)
                            (documents ++ candidateDocuments))
    else None.
Proof.
  unfold buildInvoiceMap. rewrite <- foldl_app. apply invoice_fold_lookup.
Qed.

(** X19. The invoice lookup of an import answers, for a non-empty invoice
    number, the id of the last document that carries it -- the imported
    candidates coming after the documents at hand, so that a candidate
    wins over a local document with the same number; a number nobody
    carries, and the empty number, are not in the map. *)
Theorem buildInvoiceMap_lookup
    (documents candidateDocuments : list Document) (n : string) :
  buildInvoiceMap documents candidateDocuments !! n
  = if Js.truthy_string n
    then doc_id <$> last (filter (λ d, doc_invoiceNumber d = Some n)
                            (documents ++ candidateDocuments))
    else None.
Proof. apply invoice_map_lookup. Qed.

(** X20. A new provider transaction whose invoice number leads to a document
    of the list is imported as [COMPLETE] with that [documentId] and
    counted as no missing receipt; the transaction-side pass leaves it
    alone, and after the document-side pass (on documents whose current
    link lists have no repeated id) the document lists its id. *)
Theorem import_links_payload_to_its_document
    (p : LexofficeTransactionPayload) (existing : list AccountingTransaction)
    (linked : gmap string string) (now now' : Js.Date)
    (docs : list Document) (D : string) :
  (∀ tx, tx ∈ existing → tx_externalId tx ≠ Some (p_id p)) →
  lookupDocumentId linked p = Some D →
  D ≠ EmptyString →
  D ∈ doc_id <$> docs →
  (∀ doc, doc ∈ docs → NoDup (default [] (doc_linkedTransactionIds doc))) →
  ∃ r tx,
    upsertTransactionsFromLexoffice [p] existing linked now = Some r
    ∧ updatedTransactions r = existing ++ [tx]
    ∧ imported r = 1 ∧ updated r = 0 ∧ missingReceipts r = 0
    ∧ tx_id tx = "tx-" +:+ p_id p
    ∧ tx_status tx = COMPLETE
    ∧ tx_documentId tx = Some D
    ∧ syncTransactionLinks docs (updatedTransactions r) now' !! length existing
      = Some tx
    ∧ ∀ d, d ∈ syncDocumentLinks (updatedTransactions r) docs → doc_id d = D →
        tx_id tx ∈ default [] (doc_linkedTransactionIds d).
Proof.
  intros Hnew Hlook HD Hin Hnd.
  assert (Hidx : indexByExternalId existing !! p_id p = None)
    by (apply indexByExternalId_None; by right).
  assert (Htruthy : Js.truthy (Some D) = true) by (by destruct D).
  unfold upsertTransactionsFromLexoffice, upsert_loop. simpl.
  unfold upsert_payload. rewrite Hidx, Hlook. unfold statusOf. rewrite Htruthy.
  simpl. eexists _, _. split; [reflexivity|]. simpl.
  split_and!; try done.
  - rewrite syncTransactionLinks_map, list_lookup_fmap.
    rewrite lookup_app_r, Nat.sub_diag by done. simpl.
    unfold dangling. simpl. destruct D as [|a D]; [done|]. simpl.
    rewrite bool_decide_eq_false_2; [done|].
    intros Hout. apply Hout. by apply elem_of_list_to_set.
  - intros d Hd Hid.
    apply (syncDocumentLinks_exact _ docs d Hnd Hd); [by rewrite Hid|].
    eexists. split; [apply elem_of_app; right; left|]. simpl. by rewrite Hid.
Qed.

Lemma import_links_payload_to_its_document_witness :
  ∃ r tx,
    upsertTransactionsFromLexoffice [payload "B" (Some "INV-1")] linkedTransactions
      invoiceMap epoch = Some r
    ∧ updatedTransactions r = linkedTransactions ++ [tx]
    ∧ imported r = 1 ∧ updated r = 0 ∧ missingReceipts r = 0
    ∧ tx_id tx = "tx-" +:+ p_id (payload "B" (Some "INV-1"))
    ∧ tx_status tx = COMPLETE
    ∧ tx_documentId tx = Some "D1"
    ∧ syncTransactionLinks linkedDocuments (updatedTransactions r) epoch
        !! length linkedTransactions
      = Some tx
    ∧ ∀ d, d ∈ syncDocumentLinks (updatedTransactions r) linkedDocuments →
        doc_id d = "D1" → tx_id tx ∈ default [] (doc_linkedTransactionIds d).
Proof.
  apply (import_links_payload_to_its_document (payload "B" (Some "INV-1"))
           linkedTransactions invoiceMap epoch epoch linkedDocuments "D1").
  - intros tx Htx. apply list_elem_of_singleton in Htx. subst tx. simpl. discriminate.
  - vm_compute. reflexivity.
  - discriminate.
  - vm_compute. left.
  - intros doc Hdoc. apply list_elem_of_singleton in Hdoc. subst doc. simpl.
    apply NoDup_singleton.
Defined.

(** X21. An import brings one transaction and one voucher document that both
    carry the invoice number of a document already in the list. The lookup
    then points at the imported candidate, which is not appended because
    its invoice number is known: the documents stay as they are, the new
    transaction is [COMPLETE] with a [documentId] that no document has,
    and the next transaction-side pass resets it to [MISSING_RECEIPT]. *)
Theorem import_candidate_with_a_known_invoice_number
    (yearOf monthOf : string → Z)
    (documents : list Document) (transactions : list AccountingTransaction)
    (p : LexofficeTransactionPayload) (c : LexofficeDocumentPayload)
    (n : string) (D : Document) (now now' : Js.Date) :
  n ≠ EmptyString →
  p_invoiceNumber p = Some n →
  dp_invoiceNumber c = Some n →
  D ∈ documents →
  doc_invoiceNumber D = Some n →
  "lexoffice-doc-" +:+ dp_id c ∉ doc_id <$> documents →
  (∀ tx, tx ∈ transactions → tx_externalId tx ≠ Some (p_id p)) →
  ∃ tx,
    handleImportFromLexoffice yearOf monthOf documents transactions
      {| ir_transactions := [p]; ir_documents := Some [c] |} now
    = Some (transactions ++ [tx], documents)
    ∧ tx_status tx = COMPLETE
    ∧ tx_documentId tx = Some ("lexoffice-doc-" +:+ dp_id c)
    ∧ syncTransactionLinks documents (transactions ++ [tx]) now'
        !! length transactions
      = Some (resetLink now' tx)
    ∧ tx_status (resetLink now' tx) = MISSING_RECEIPT
    ∧ tx_documentId (resetLink now' tx) = None.
Proof.
  intros Hn Hp Hc HD HDn Hfresh Hnew.
  set (cand := buildDocumentFromLexoffice yearOf monthOf c
                 DEFAULT_DIGITAL_STORAGE_ID now).
  assert (Htn : Js.truthy_string n = true) by (by destruct n).
  assert (Hmap : buildInvoiceMap documents [cand] !! n = Some (doc_id cand)).
  { rewrite invoice_map_lookup, Htn, filter_app, filter_cons, filter_nil.
    rewrite decide_True by done. by rewrite last_snoc. }
  assert (Hadd : additions documents [cand] = []).
  { unfold additions. rewrite filter_cons, filter_nil.
    rewrite decide_False; [done|].
    unfold isAddition.
    destruct (bool_decide (doc_id cand ∈ _)); [done|].
    simpl. rewrite Hc, Htn. simpl.
    rewrite bool_decide_eq_true_2; [done|].
    apply elem_of_list_to_set, list_elem_of_omap. exists D. split; [done|].
    by rewrite HDn; simpl; rewrite Htn. }
  assert (Hidx : indexByExternalId transactions !! p_id p = None)
    by (apply indexByExternalId_None; by right).
  unfold handleImportFromLexoffice. simpl. fold cand. rewrite Hadd, app_nil_r.
  unfold upsertTransactionsFromLexoffice, upsert_loop. simpl.
  unfold upsert_payload. rewrite Hidx. unfold lookupDocumentId.
  rewrite Hp, Htn, Hmap. simpl.
  eexists. split; [reflexivity|]. simpl.
  split_and!; try done.
  rewrite syncTransactionLinks_map, list_lookup_fmap.
  rewrite lookup_app_r, Nat.sub_diag by done. simpl.
  unfold dangling at 1. simpl.
  rewrite bool_decide_eq_true_2; [done|].
  intros Hin. apply Hfresh. by apply elem_of_list_to_set in Hin.
Qed.

Lemma import_candidate_with_a_known_invoice_number_witness :
  ∃ tx,
    handleImportFromLexoffice sampleYear sampleMonth linkedDocuments
      linkedTransactions
      {| ir_transactions := [payload "B" (Some "INV-1")];
         ir_documents := Some [voucherCopy] |} epoch
    = Some (linkedTransactions ++ [tx], linkedDocuments)
    ∧ tx_status tx = COMPLETE
    ∧ tx_documentId tx = Some ("lexoffice-doc-" +:+ dp_id voucherCopy)
    ∧ syncTransactionLinks linkedDocuments (linkedTransactions ++ [tx]) epoch
        !! length linkedTransactions
      = Some (resetLink epoch tx)
    ∧ tx_status (resetLink epoch tx) = MISSING_RECEIPT
    ∧ tx_documentId (resetLink epoch tx) = None.
Proof.
  apply (import_candidate_with_a_known_invoice_number sampleYear sampleMonth
           linkedDocuments linkedTransactions (payload "B" (Some "INV-1"))
           voucherCopy "INV-1" (document "D1" (Some "INV-1") (Some ["tx-A"]))
           epoch epoch).
  - discriminate.
  - reflexivity.
  - reflexivity.
  - left.
  - reflexivity.
  - vm_compute. intros H. apply list_elem_of_singleton in H. discriminate H.
  - intros tx Htx. apply list_elem_of_singleton in Htx. subst tx. simpl. discriminate.
Defined.

End ImportTheorems.

(* ===================================================================== *)
(** ** The analysis normaliser: further properties *)
(* ===================================================================== *)

Module WarningTheorems.
Import Types Gemini GeminiFacts Scenarios.

Lemma iff_of_bool_decide (P : Prop) `{Decision P} (b : bool) :
  bool_decide P = b → (P ↔ b = true).
Proof. intros <-. symmetry. apply bool_decide_eq_true. Qed.

(** X22. The warnings that come back are the caller's warnings, in their
    order, followed by at most five of the fixed texts; the amount text is
    among the added ones exactly when the total is missing or not
    positive, the quality text exactly when the average is below 75 --
    whatever the caller's warnings say. *)
Theorem deriveDefaultWarnings_only_appends
    (result : GeminiAnalysisResult) (avg : Js.number) :
  ∃ added,
    deriveDefaultWarnings result avg = default [] (warnings result) ++ added
    ∧ length added ≤ 5
    ∧ Forall (λ w, w ∈ [W_ORDER; W_EMAIL; W_NUMBER; W_AMOUNT; W_QUALITY]) added
    ∧ (W_AMOUNT ∈ added
       ↔ negb (Js.truthy_number (totalAmount result))
         || Js.le (totalAmount result) (Js.num 0) = true)
    ∧ (W_QUALITY ∈ added ↔ Js.lt avg (Js.num 75) = true).
Proof.
  unfold deriveDefaultWarnings, pushWhen.
  destruct (negb (Js.truthy_number (totalAmount result))
            || Js.le (totalAmount result) (Js.num 0));
  destruct (Js.lt avg (Js.num 75));
  repeat (match goal with
          | |- context [if ?b then _ else _] => destruct b
          end);
  rewrite <- ?app_assoc; simpl;
  (eexists; split; [try reflexivity; symmetry; apply app_nil_r|];
   split; [simpl; lia|];
   split; [repeat (apply List.Forall_cons;
                     [cbv beta; apply (bool_decide_unpack _); vm_compute; exact I|]);
           apply List.Forall_nil|];
   split; apply (iff_of_bool_decide _); vm_compute; reflexivity).
Qed.

Lemma mentions_app (ws extra : list string) (needle : string) :
  mentions ws needle = true → mentions (ws ++ extra) needle = true.
Proof.
  unfold mentions. rewrite existsb_app. intros ->. done.
Qed.

Lemma mentions_pushWhen (c : bool) (w : string) (ws : list string) needle :
  mentions ws needle = true → mentions (pushWhen c w ws) needle = true.
Proof. unfold pushWhen. destruct c; [apply mentions_app|done]. Qed.

Lemma mentions_snoc_self (ws : list string) (w needle : string) :
  Js.includes w needle = true → mentions (ws ++ [w]) needle = true.
Proof.
  intros H. unfold mentions. rewrite existsb_app. simpl. rewrite H.
  by rewrite orb_true_r.
Qed.

(** After the derivation the list speaks of every guarded condition that
    holds. *)
Lemma deriveDefaultWarnings_mentions result avg :
  (isOrderConfirmation result && negb (isInvoice result) = true →
   mentions (deriveDefaultWarnings result avg) "Bestell" = true)
  ∧ (isEmailBody result && negb (isInvoice result) = true →
     mentions (deriveDefaultWarnings result avg) "E-Mail" = true)
  ∧ (negb (Js.truthy_string (invoiceNumber result)) = true →
     mentions (deriveDefaultWarnings result avg) "Rechnungsnummer" = true).
Proof.
  unfold deriveDefaultWarnings.
  set (w0 := default [] (warnings result)).
  set (c1 := isOrderConfirmation result && negb (isInvoice result)).
  set (c2 := isEmailBody result && negb (isInvoice result)).
  set (c3 := negb (Js.truthy_string (invoiceNumber result))).
  set (w1 := pushWhen (c1 && negb (mentions w0 "Bestell")) W_ORDER w0).
  set (w2 := pushWhen (c2 && negb (mentions w1 "E-Mail")) W_EMAIL w1).
  set (w3 := pushWhen (c3 && negb (mentions w2 "Rechnungsnummer")) W_NUMBER w2).
  assert (H1 : c1 = true → mentions w1 "Bestell" = true).
  { intros Hc. subst w1. rewrite Hc. simpl.
    destruct (mentions w0 "Bestell") eqn:Hm; simpl; [done|].
    apply mentions_snoc_self. vm_compute. reflexivity. }
  assert (H2 : c2 = true → mentions w2 "E-Mail" = true).
  { intros Hc. subst w2. rewrite Hc. simpl.
    destruct (mentions w1 "E-Mail") eqn:Hm; simpl; [done|].
    apply mentions_snoc_self. vm_compute. reflexivity. }
  assert (H3 : c3 = true → mentions w3 "Rechnungsnummer" = true).
  { intros Hc. subst w3. rewrite Hc. simpl.
    destruct (mentions w2 "Rechnungsnummer") eqn:Hm; simpl; [done|].
    apply mentions_snoc_self. vm_compute. reflexivity. }
  split_and!; intros Hc.
  - do 2 apply mentions_pushWhen. subst w3 w2.
    do 2 apply mentions_pushWhen. by apply H1.
  - do 2 apply mentions_pushWhen. subst w3.
    apply mentions_pushWhen. by apply H2.
  - do 2 apply mentions_pushWhen. by apply H3.
Qed.

(** X23. Normalising an outcome of the normaliser again repeats none of the
    three guarded warnings (order confirmation, e-mail, invoice number):
    each of them occurs as often after the second run as after the
    first. *)
Theorem guarded_warnings_are_not_repeated
    (result : GeminiAnalysisResult) (w : string) :
  w ∈ [W_ORDER; W_EMAIL; W_NUMBER] →
  length (filter (λ x, x = w)
            (default [] (warnings (ensureExtendedAnalysisData
                                     (ensureExtendedAnalysisData result)))))
  = length (filter (λ x, x = w)
              (default [] (warnings (ensureExtendedAnalysisData result)))).
Proof.
  intros Hw.
  set (once := ensureExtendedAnalysisData result).
  assert (Hflags : isOrderConfirmation once = isOrderConfirmation result
                   ∧ isInvoice once = isInvoice result
                   ∧ isEmailBody once = isEmailBody result
                   ∧ invoiceNumber once = invoiceNumber result) by done.
  destruct Hflags as (Ho & Hi & He & Hn).
  assert (Hws : ∃ avg, warnings once = Some (deriveDefaultWarnings result avg))
    by (eexists; reflexivity).
  destruct Hws as (avg & Hws).
  destruct (deriveDefaultWarnings_mentions result avg) as (M1 & M2 & M3).
  change (warnings (ensureExtendedAnalysisData once))
    with (Some (deriveDefaultWarnings once
                  (default Js.NaN (averageConfidence
                                     (ensureExtendedAnalysisData once))))).
  rewrite Hws. simpl.
  unfold deriveDefaultWarnings at 1. rewrite Hws, Ho, Hi, He, Hn. simpl.
  set (ws := deriveDefaultWarnings result avg) in *.
  assert (G1 : pushWhen (isOrderConfirmation result && negb (isInvoice result)
                         && negb (mentions ws "Bestell")) W_ORDER ws = ws).
  { unfold pushWhen.
    destruct (isOrderConfirmation result && negb (isInvoice result)) eqn:Hc;
      [|done]. by rewrite M1. }
  rewrite G1.
  assert (G2 : pushWhen (isEmailBody result && negb (isInvoice result)
                         && negb (mentions ws "E-Mail")) W_EMAIL ws = ws).
  { unfold pushWhen.
    destruct (isEmailBody result && negb (isInvoice result)) eqn:Hc; [|done].
    by rewrite M2. }
  rewrite G2.
  assert (G3 : pushWhen (negb (Js.truthy_string (invoiceNumber result))
                         && negb (mentions ws "Rechnungsnummer")) W_NUMBER ws = ws).
  { unfold pushWhen.
    destruct (negb (Js.truthy_string (invoiceNumber result))) eqn:Hc; [|done].
    by rewrite M3. }
  rewrite G3.
  assert (Ha : W_AMOUNT ≠ w ∧ W_QUALITY ≠ w).
  { repeat (apply elem_of_cons in Hw as [->|Hw]; [split; discriminate|]).
    by apply elem_of_nil in Hw. }
  destruct Ha as [Ha Hq].
  unfold pushWhen.
  repeat (match goal with
          | |- context [if ?b then _ else _] => destruct b
          end);
  rewrite ?filter_app, ?length_app, ?filter_cons, ?filter_nil;
  rewrite ?(decide_False (P := W_AMOUNT = w)) by done;
  rewrite ?(decide_False (P := W_QUALITY = w)) by done; simpl; lia.
Qed.

Lemma guarded_warnings_are_not_repeated_witness :
  length (filter (λ x, x = W_NUMBER)
            (default [] (warnings (ensureExtendedAnalysisData
                                     (ensureExtendedAnalysisData rawAnalysis)))))
  = length (filter (λ x, x = W_NUMBER)
              (default [] (warnings (ensureExtendedAnalysisData rawAnalysis)))).
Proof.
  apply (guarded_warnings_are_not_repeated rawAnalysis W_NUMBER).
  right. right. left.
Defined.

End WarningTheorems.

Module NumberFacts.

Lemma Qfloor_unique (z : Z) (x : Q) :
  (inject_Z z <= x)%Q → (x < inject_Z (z + 1))%Q → Qfloor x = z.
Proof.
  intros Hlo Hhi.
  pose proof (Qfloor_le x) as Hfl.
  pose proof (Qlt_floor x) as Hfu.
  assert (H1 : (inject_Z (Qfloor x) < inject_Z (z + 1))%Q)
    by (eapply Qle_lt_trans; eassumption).
  assert (H2 : (inject_Z z < inject_Z (Qfloor x + 1))%Q)
    by (eapply Qle_lt_trans; eassumption).
  rewrite <- Zlt_Qlt in H1, H2. lia.
Qed.

Lemma Qabs_of_nonneg (q : Q) : (0 <= q)%Q → Qabs q = q.
Proof.
  destruct q as [a b]. unfold Qle, Qabs. simpl. intros H.
  rewrite Z.abs_eq by lia. reflexivity.
Qed.

Lemma Qfloor_half (z : Z) : Qfloor (inject_Z z + (1 # 2)) = z.
Proof.
  apply Qfloor_unique.
  - lra.
  - rewrite inject_Z_plus. change (inject_Z 1) with 1%Q. lra.
Qed.

Lemma Math_round_integer (z : Z) : Js.Math_round (Js.num z) = Js.num z.
Proof. unfold Js.Math_round, Js.num. by rewrite Qfloor_half. Qed.

Lemma hundredths_nonneg (q : Q) : (0 ≤ Js.hundredths (Qabs q))%Z.
Proof.
  unfold Js.hundredths.
  change 0%Z with (Qfloor 0).
  apply Qfloor_resp_le.
  pose proof (Qabs_nonneg q). lra.
Qed.

Lemma hundredths_of_hundredth (h : Z) (q : Q) :
  (q == inject_Z h / 100)%Q → Js.hundredths q = h.
Proof.
  intros Hq. unfold Js.hundredths.
  apply Qfloor_unique.
  - rewrite Hq. field_simplify. lra.
  - rewrite Hq, inject_Z_plus. change (inject_Z 1) with 1%Q.
    field_simplify. lra.
Qed.

Lemma Number_toFixed2_pos (h : Z) :
  (0 ≤ h)%Z →
  Js.Number_toFixed2 (Js.Fin (Qred (inject_Z h / 100)))
  = Js.Fin (Qred (inject_Z h / 100)).
Proof.
  intros Hh. unfold Js.Number_toFixed2.
  assert (Hpos : (0 <= Qred (inject_Z h / 100))%Q).
  { rewrite Qred_correct. apply Qle_shift_div_l; [reflexivity|].
    rewrite Qmult_0_l. change 0%Q with (inject_Z 0). by rewrite <- Zle_Qle. }
  assert (Hb : Qle_bool 0 (Qred (inject_Z h / 100)) = true)
    by by apply Qle_bool_iff.
  rewrite Hb.
  rewrite (hundredths_of_hundredth h); [done|].
  rewrite Qabs_pos by done. apply Qred_correct.
Qed.

Lemma Number_toFixed2_neg (h : Z) :
  (0 ≤ h)%Z →
  Js.Number_toFixed2 (Js.Fin (Qred (- (inject_Z h / 100))))
  = Js.Fin (Qred (- (inject_Z h / 100))).
Proof.
  intros Hh.
  destruct (decide (h = 0%Z)) as [->|Hnz]; [reflexivity|].
  unfold Js.Number_toFixed2.
  assert (Hneg : (Qred (- (inject_Z h / 100)) < 0)%Q).
  { rewrite Qred_correct.
    assert (0 < inject_Z h / 100)%Q; [|lra].
    apply Qlt_shift_div_l; [reflexivity|].
    rewrite Qmult_0_l. change 0%Q with (inject_Z 0).
    rewrite <- Zlt_Qlt. lia. }
  assert (Hb : Qle_bool 0 (Qred (- (inject_Z h / 100))) = false).
  { destruct (Qle_bool 0 (Qred (- (inject_Z h / 100)))) eqn:Hb; [|done].
    apply Qle_bool_iff in Hb. lra. }
  rewrite Hb.
  rewrite (hundredths_of_hundredth h); [done|].
  rewrite Qabs_neg by lra. rewrite Qred_correct. lra.
Qed.

(** Rounding to two decimals a second time changes nothing. *)
Lemma Number_toFixed2_twice (n : Js.number) :
  Js.Number_toFixed2 (Js.Number_toFixed2 n) = Js.Number_toFixed2 n.
Proof.
  destruct n as [| | |q]; try reflexivity.
  unfold Js.Number_toFixed2 at 2 3.
  pose proof (hundredths_nonneg q) as Hh.
  destruct (Qle_bool 0 q).
  - by apply Number_toFixed2_pos.
  - by apply Number_toFixed2_neg.
Qed.

End NumberFacts.

Module NormaliserFacts.
Import Types Gemini GeminiFacts NumberFacts.

Lemma clampConfidence_fixed (n : Js.number) :
  clamped n → clampConfidence (Some n) = n.
Proof.
  intros (z & -> & Hz).
  change (clampConfidence (Some (Js.num z)))
    with (Js.Math_max (Js.num 10)
            (Js.Math_min (Js.num 100) (Js.Math_round (Js.num z)))).
  rewrite Math_round_integer.
  unfold Js.Math_max, Js.Math_min, Js.num, Js.le. simpl.
  rewrite Qle_bool_inject.
  destruct (100 <=? z)%Z eqn:H100; simpl.
  - assert (z = 100%Z) as -> by lia. reflexivity.
  - rewrite Qle_bool_inject.
    destruct (10 <=? z)%Z eqn:H10; simpl; [done|lia].
Qed.

Lemma describeConfidence_truthy (value : Js.number) :
  Js.truthy_string (describeConfidence value) = true.
Proof.
  unfold describeConfidence.
  repeat (match goal with |- context [if ?b then _ else _] => destruct b end);
    reflexivity.
Qed.

Lemma synchronizeField_description result field :
  fc_confidenceDescription (synchronizeField result field)
  = fc_confidenceDescription field.
Proof.
  unfold synchronizeField.
  repeat (match goal with |- context [if ?b then _ else _] => destruct b end);
    reflexivity.
Qed.

(** Synchronising a field a second time with the same result changes
    nothing. *)
Lemma synchronizeField_twice result field :
  synchronizeField result (synchronizeField result field)
  = synchronizeField result field.
Proof.
  destruct field as [name value c d].
  unfold synchronizeField; simpl.
  repeat (match goal with
          | |- context [String.eqb name ?k] =>
              let E := fresh "E" in
              destruct (String.eqb name k) eqn:E; simpl; rewrite ?E
          end);
    first [reflexivity | discriminate].
Qed.

(** A field as the normaliser hands it out: an integer confidence from
    10 to 100 and a description that is not empty. *)
Lemma ensure_fields result :
  ∃ fields,
    fieldConfidences (ensureExtendedAnalysisData result) = Some fields
    ∧ 0 < length fields
    ∧ Forall (λ field,
        (∃ n, fc_confidence field = Some n ∧ clamped n)
        ∧ (∃ d, fc_confidenceDescription field = Some d
                ∧ Js.truthy_string d = true)
        ∧ synchronizeField result field = field) fields
    ∧ averageConfidence (ensureExtendedAnalysisData result)
      = Some (match averageConfidence result with
              | Some n => Js.Number_toFixed2 n
              | None =>
                  Js.Number_toFixed2
                    (Js.div_count (sumConfidence fields) (length fields))
              end).
Proof.
  eexists. split; [reflexivity|].
  assert (Hlen : 0 < length (synchronizeField result <$>
            match fieldConfidences result with
            | Some (f :: fs) => clampField <$> (f :: fs)
            | _ => buildDefaultFieldConfidences result
            end)).
  { rewrite length_fmap.
    destruct (fieldConfidences result) as [[|f fs]|]; simpl; lia. }
  split; [exact Hlen|]. split.
  - apply Forall_fmap, Forall_forall. intros field Hin. simpl.
    rewrite synchronizeField_confidence, synchronizeField_description,
      synchronizeField_twice.
    split_and!; [| |reflexivity].
    + destruct (fieldConfidences result) as [[|f fs]|]; simpl in Hin.
      * repeat (apply elem_of_cons in Hin as [->|Hin];
                [eexists; split; [reflexivity|apply clampConfidence_clamped]|]).
        by apply elem_of_nil in Hin.
      * change (field ∈ clampField <$> (f :: fs)) in Hin.
        apply list_elem_of_fmap in Hin as (f0 & -> & _). simpl.
        eexists; split; [reflexivity|apply clampConfidence_clamped].
      * repeat (apply elem_of_cons in Hin as [->|Hin];
                [eexists; split; [reflexivity|apply clampConfidence_clamped]|]).
        by apply elem_of_nil in Hin.
    + destruct (fieldConfidences result) as [[|f fs]|]; simpl in Hin.
      * repeat (apply elem_of_cons in Hin as [->|Hin];
                [eexists; split; [reflexivity|apply describeConfidence_truthy]|]).
        by apply elem_of_nil in Hin.
      * change (field ∈ clampField <$> (f :: fs)) in Hin.
        apply list_elem_of_fmap in Hin as (f0 & -> & _). simpl.
        destruct (fc_confidenceDescription f0) as [d|].
        -- destruct (Js.truthy_string d) eqn:Hd.
           ++ by exists d.
           ++ eexists; split; [reflexivity|apply describeConfidence_truthy].
        -- eexists; split; [reflexivity|apply describeConfidence_truthy].
      * repeat (apply elem_of_cons in Hin as [->|Hin];
                [eexists; split; [reflexivity|apply describeConfidence_truthy]|]).
        by apply elem_of_nil in Hin.
  - unfold ensureExtendedAnalysisData. cbn [averageConfidence].
    rewrite (bool_decide_eq_true_2 _ Hlen). reflexivity.
Qed.

Lemma clampField_fixed (field : OcrFieldConfidence) :
  (∃ n, fc_confidence field = Some n ∧ clamped n) →
  (∃ d, fc_confidenceDescription field = Some d ∧ Js.truthy_string d = true) →
  clampField field = field.
Proof.
  destruct field as [name value c d]. simpl.
  intros (n & -> & Hn) (d' & -> & Hd).
  unfold clampField.
  cbn [fc_field fc_value fc_confidence fc_confidenceDescription].
  rewrite Hd, clampConfidence_fixed by done.
  reflexivity.
Qed.

Lemma fmap_fixed {A} (f : A → A) (l : list A) :
  Forall (λ x, f x = x) l → f <$> l = l.
Proof.
  induction 1 as [|x l Hx _ IH]; [done|]. rewrite fmap_cons. by rewrite Hx, IH.
Qed.

(** The running sum over fields with confidences from 10 to 100. *)
Lemma sum_bounds (fields : list OcrFieldConfidence) (a : Q) :
  Forall (λ field, ∃ n, fc_confidence field = Some n ∧ clamped n) fields →
  ∃ s,
    foldl (λ sum field, Js.add sum (default Js.NaN (fc_confidence field)))
          (Js.Fin a) fields = Js.Fin s
    ∧ (a + 10 * inject_Z (Z.of_nat (length fields)) <= s)%Q
    ∧ (s <= a + 100 * inject_Z (Z.of_nat (length fields)))%Q.
Proof.
  intros Hall. revert a.
  induction Hall as [|field fields (n & Hc & z & -> & Hz) _ IH]; intros a.
  - exists a. split; [done|]. change (inject_Z (Z.of_nat (length []))) with 0%Q.
    split; lra.
  - simpl foldl. rewrite Hc. simpl default.
    change (Js.add (Js.Fin a) (Js.num z))
      with (Js.Fin (Qred (a + inject_Z z))).
    destruct (IH (Qred (a + inject_Z z))) as (s & Hs & Hlo & Hhi).
    exists s. split; [exact Hs|].
    rewrite Qred_correct in Hlo, Hhi.
    rewrite length_cons, Nat2Z.inj_succ, <- Z.add_1_r, inject_Z_plus.
    change (inject_Z 1) with 1%Q.
    assert (H10 : (inject_Z 10 <= inject_Z z)%Q) by (rewrite <- Zle_Qle; lia).
    assert (H100 : (inject_Z z <= inject_Z 100)%Q) by (rewrite <- Zle_Qle; lia).
    change (inject_Z 10) with 10%Q in H10.
    change (inject_Z 100) with 100%Q in H100.
    split; lra.
Qed.

Lemma ensure_twice (result : GeminiAnalysisResult) :
  let once := ensureExtendedAnalysisData result in
  let twice := ensureExtendedAnalysisData once in
  fieldConfidences twice = fieldConfidences once
  ∧ averageConfidence twice = averageConfidence once
  ∧ suggestedStorageLocationId twice = suggestedStorageLocationId once
  ∧ default [] (warnings once) `prefix_of` default [] (warnings twice).
Proof.
  intros once twice.
  destruct (ensure_fields result) as (fields & Hf & Hlen & Hall & Havg).
  destruct (ensure_fields once) as (fields2 & Hf2 & _ & _ & Havg2).
  fold once in Hf, Havg. fold twice in Hf2, Havg2.
  split_and!.
  - rewrite Hf. subst twice. unfold ensureExtendedAnalysisData at 1.
    cbn [fieldConfidences]. rewrite Hf.
    destruct fields as [|g gs]; [simpl in Hlen; lia|].
    f_equal. rewrite <- list_fmap_compose. apply fmap_fixed.
    eapply Forall_impl; [exact Hall|].
    intros field (Hc & Hd & Hs). simpl.
    rewrite clampField_fixed by done. exact Hs.
  - rewrite Havg2, Havg. simpl. f_equal.
    destruct (averageConfidence result); apply Number_toFixed2_twice.
  - subst twice once. simpl.
    destruct (suggestedStorageLocationId result) as [s|]; [|reflexivity].
    destruct (Js.truthy_string s) eqn:Hs; [by rewrite Hs|reflexivity].
  - apply (deriveDefaultWarnings_keeps once).
Qed.

(** The integer scores behind a list of clamped confidences. *)
Lemma scores_of (fields : list OcrFieldConfidence) :
  Forall (λ field, ∃ n, fc_confidence field = Some n ∧ clamped n) fields →
  ∃ scores : list Z,
    fc_confidence <$> fields = (λ z, Some (Js.num z)) <$> scores
    ∧ Forall (λ z, 10 ≤ z ≤ 100)%Z scores.
Proof.
  induction 1 as [|field fields (n & Hc & z & -> & Hz) _ (scores & Hs & Hall)].
  - by exists [].
  - exists (z :: scores). rewrite !fmap_cons, Hc, Hs. split; [done|].
    by constructor.
Qed.

(** The running sum is the sum of the scores. *)
Lemma sum_exact (scores : list Z) :
  ∀ (fields : list OcrFieldConfidence) (a : Q),
    fc_confidence <$> fields = (λ z, Some (Js.num z)) <$> scores →
    ∃ s,
      foldl (λ sum field, Js.add sum (default Js.NaN (fc_confidence field)))
            (Js.Fin a) fields = Js.Fin s
      ∧ (s == a + inject_Z (foldr Z.add 0%Z scores))%Q.
Proof.
  induction scores as [|z scores IH]; intros fields a Hconf.
  - destruct fields; [|done]. exists a. split; [done|]. simpl.
    change (inject_Z 0) with 0%Q. lra.
  - destruct fields as [|field fields]; [done|].
    rewrite !fmap_cons in Hconf. injection Hconf as Hc Hrest.
    simpl foldl. rewrite Hc. simpl default.
    change (Js.add (Js.Fin a) (Js.num z)) with (Js.Fin (Qred (a + inject_Z z))).
    destruct (IH fields (Qred (a + inject_Z z)) Hrest) as (s & Hs & Heq).
    exists s. split; [exact Hs|].
    rewrite Heq, Qred_correct. simpl foldr. rewrite inject_Z_plus. lra.
Qed.

(** Without a supplied field list the fields carry the seven default
    scores. *)
Lemma default_scores (result : GeminiAnalysisResult) :
  fieldConfidences result = None ∨ fieldConfidences result = Some [] →
  ∃ fields,
    fieldConfidences (ensureExtendedAnalysisData result) = Some fields
    ∧ fc_confidence <$> fields
      = (λ z, Some (Js.num z))
        <$> [ if Js.truthy_string (vendor result) then 92 else 65;
              if Js.truthy_string (invoiceNumber result) then 88 else 60;
              if Js.truthy_string (documentDate result) then 87 else 60;
              if Js.truthy_number (totalAmount result) then 90 else 58;
              if Js.truthy_number (vatAmount result) then 82 else 55;
              86;
              if Js.truthy_string (taxCategory result)
                 && negb (String.eqb (taxCategory result) "Sonstiges")
              then 78 else 65 ]%Z.
Proof.
  intros Hnone.
  assert (Hf : fieldConfidences (ensureExtendedAnalysisData result)
               = Some (synchronizeField result
                         <$> buildDefaultFieldConfidences result)).
  { unfold ensureExtendedAnalysisData. cbn [fieldConfidences].
    by destruct Hnone as [-> | ->]. }
  eexists. split; [exact Hf|].
  rewrite <- list_fmap_compose.
  unfold buildDefaultFieldConfidences. rewrite <- list_fmap_compose.
  rewrite !fmap_cons, fmap_nil. unfold compose.
  rewrite !synchronizeField_confidence.
  destruct (Js.truthy_string (vendor result)),
    (Js.truthy_string (invoiceNumber result)),
    (Js.truthy_string (documentDate result)),
    (Js.truthy_number (totalAmount result)),
    (Js.truthy_number (vatAmount result)),
    (Js.truthy_string (taxCategory result)
     && negb (String.eqb (taxCategory result) "Sonstiges"));
    vm_compute; reflexivity.
Qed.

Lemma scores_inj (xs ys : list Z) :
  (λ z, Some (Js.num z)) <$> xs = (λ z, Some (Js.num z)) <$> ys → xs = ys.
Proof.
  revert ys. induction xs as [|x xs IH]; intros [|y ys] H; try done.
  rewrite !fmap_cons in H. injection H as Hx Hrest.
  f_equal; [exact Hx|by apply IH].
Qed.

End NormaliserFacts.

Module NormaliserTheorems.
Import Types Gemini GeminiFacts NumberFacts NormaliserFacts Scenarios.

(** X24. Normalising an outcome of the normaliser again changes neither its
    field confidences nor its average confidence nor its storage
    suggestion (the extracted values are copied through by the code as
    they are): of the computed parts only the warnings can still grow. *)
Theorem ensureExtendedAnalysisData_settles (result : GeminiAnalysisResult) :
  let once := ensureExtendedAnalysisData result in
  let twice := ensureExtendedAnalysisData once in
  fieldConfidences twice = fieldConfidences once
  ∧ averageConfidence twice = averageConfidence once
  ∧ suggestedStorageLocationId twice = suggestedStorageLocationId once
  ∧ default [] (warnings once) `prefix_of` default [] (warnings twice).
Proof. apply ensure_twice. Qed.

(** X25. When the caller supplies no average confidence, the outcome
    carries a number of hundredths [h / 100] that is the mean of its field
    confidences -- integer scores from 10 to 100 -- rounded to two
    decimals: it differs from the mean by at most half a hundredth, and so
    lies between 10 and 100. When the caller supplies no field confidences
    either, as the analysis does, the scores are the seven default scores
    and [h] is their mean in hundredths, rounded half up. *)
Theorem computed_average_is_the_rounded_mean
    (result : GeminiAnalysisResult) :
  averageConfidence result = None →
  ∃ (fields : list OcrFieldConfidence) (scores : list Z) (h : Z),
    fieldConfidences (ensureExtendedAnalysisData result) = Some fields
    ∧ fc_confidence <$> fields = (λ z, Some (Js.num z)) <$> scores
    ∧ scores ≠ []
    ∧ Forall (λ z, 10 ≤ z ≤ 100)%Z scores
    ∧ averageConfidence (ensureExtendedAnalysisData result)
      = Some (Js.Fin (Qred (inject_Z h / 100)))
    ∧ (inject_Z h - (1 # 2)
       <= 100 * (inject_Z (foldr Z.add 0%Z scores)
                 / inject_Z (Z.of_nat (length scores))))%Q
    ∧ (100 * (inject_Z (foldr Z.add 0%Z scores)
              / inject_Z (Z.of_nat (length scores)))
       <= inject_Z h + (1 # 2))%Q
    ∧ (1000 ≤ h ≤ 10000)%Z
    ∧ (fieldConfidences result = None ∨ fieldConfidences result = Some [] →
       scores
       = [ if Js.truthy_string (vendor result) then 92 else 65;
           if Js.truthy_string (invoiceNumber result) then 88 else 60;
           if Js.truthy_string (documentDate result) then 87 else 60;
           if Js.truthy_number (totalAmount result) then 90 else 58;
           if Js.truthy_number (vatAmount result) then 82 else 55;
           86;
           if Js.truthy_string (taxCategory result)
              && negb (String.eqb (taxCategory result) "Sonstiges")
           then 78 else 65 ]%Z
       ∧ h = Qfloor (100 * (inject_Z (foldr Z.add 0%Z scores)
                            / inject_Z (Z.of_nat (length scores)))
                     + (1 # 2))).
Proof.
  intros Hnone.
  destruct (ensure_fields result) as (fields & Hf & Hlen & Hall & Havg).
  rewrite Hnone in Havg.
  assert (Hconf : Forall (λ field, ∃ n, fc_confidence field = Some n ∧ clamped n)
                    fields)
    by (eapply Forall_impl; [exact Hall|]; by intros field (Hc & _)).
  destruct (scores_of fields Hconf) as (scores & Hscores & Hrange).
  assert (Hn : length fields = length scores).
  { apply (f_equal length) in Hscores. by rewrite !length_fmap in Hscores. }
  destruct (sum_bounds fields 0 Hconf) as (s & Hs & Hlo & Hhi).
  destruct (sum_exact scores fields 0 Hscores) as (s' & Hs' & Hsum).
  rewrite Hs in Hs'. injection Hs' as <-.
  unfold sumConfidence in Havg. change (Js.num 0) with (Js.Fin 0) in Havg.
  rewrite Hs in Havg.
  rewrite Hn in Havg, Hlo, Hhi.
  destruct (length scores) as [|k] eqn:Hk; [lia|].
  set (N := inject_Z (Z.of_nat (S k))) in *.
  assert (HN : (0 < N)%Q).
  { subst N. change 0%Q with (inject_Z 0). rewrite <- Zlt_Qlt. lia. }
  change (Js.div_count (Js.Fin s) (S k)) with (Js.Fin (Qred (s / N))) in Havg.
  set (total := inject_Z (foldr Z.add 0%Z scores)) in *.
  set (m := Qred (s / N)) in *.
  assert (Hmean : (m == total / N)%Q).
  { subst m. rewrite Qred_correct, Hsum. field. lra. }
  assert (Hm : (10 <= m)%Q ∧ (m <= 100)%Q).
  { subst m. rewrite Qred_correct. split.
    - apply Qle_shift_div_l; [exact HN|]. lra.
    - apply Qle_shift_div_r; [exact HN|]. lra. }
  destruct Hm as [Hm10 Hm100].
  assert (Hsign : Qle_bool 0 m = true) by (apply Qle_bool_iff; lra).
  change (Js.Number_toFixed2 (Js.Fin m))
    with (if Qle_bool 0 m
          then Js.Fin (Qred (inject_Z (Js.hundredths (Qabs m)) / 100))
          else Js.Fin (Qred (- (inject_Z (Js.hundredths (Qabs m)) / 100))))
    in Havg.
  rewrite Hsign, Qabs_of_nonneg in Havg by lra.
  unfold Js.hundredths in Havg.
  assert (Hh1 : (1000 ≤ Qfloor (m * 100 + (1 # 2)))%Z).
  { rewrite <- (Qfloor_Z 1000). apply Qfloor_resp_le.
    change (inject_Z 1000) with 1000%Q. lra. }
  assert (Hh2 : (Qfloor (m * 100 + (1 # 2)) ≤ 10000)%Z).
  { pose proof (Qfloor_resp_le (m * 100 + (1 # 2)) (inject_Z 10000 + (1 # 2)))
      as Hle.
    rewrite Qfloor_half in Hle. apply Hle.
    change (inject_Z 10000) with 10000%Q. lra. }
  pose proof (Qfloor_le (m * 100 + (1 # 2))) as Hfl.
  pose proof (Qlt_floor (m * 100 + (1 # 2))) as Hfu.
  rewrite inject_Z_plus in Hfu. change (inject_Z 1) with 1%Q in Hfu.
  assert (Hexact : Qfloor (m * 100 + (1 # 2))
                   = Qfloor (100 * (total / N) + (1 # 2))).
  { apply Qfloor_comp. rewrite Hmean. ring. }
  set (h := Qfloor (m * 100 + (1 # 2))) in *.
  exists fields, scores, h. rewrite !Hk. fold N total.
  split; [exact Hf|]. split; [exact Hscores|].
  split; [by intros ->|]. split; [exact Hrange|].
  split; [exact Havg|].
  split; [rewrite <- Hmean; lra|].
  split; [rewrite <- Hmean; lra|].
  split; [lia|].
  intros Hdefault. split; [|exact Hexact].
  destruct (default_scores result Hdefault) as (fields' & Hf' & Hscores').
  rewrite Hf in Hf'. injection Hf' as <-.
  apply scores_inj. by rewrite <- Hscores, Hscores'.
Qed.

Lemma computed_average_witness :
  ∃ fields,
    fieldConfidences (ensureExtendedAnalysisData rawAnalysis) = Some fields
    ∧ fc_confidence <$> fields
      = (λ z, Some (Js.num z)) <$> [92; 88; 87; 58; 55; 86; 65]%Z
    ∧ averageConfidence (ensureExtendedAnalysisData rawAnalysis)
      = Some (Js.Fin (Qred (inject_Z 7586 / 100))).
Proof.
  destruct (computed_average_is_the_rounded_mean rawAnalysis eq_refl)
    as (fields & scores & h & Hf & Hscores & _ & _ & Havg & _ & _ & _ & Hdefault).
  destruct (Hdefault (or_introl eq_refl)) as [Hs Hh].
  exists fields. split; [exact Hf|].
  rewrite Hs in Hscores, Hh. split; [exact Hscores|].
  rewrite Hh in Havg. exact Havg.
Defined.

End NormaliserTheorems.

(* ===================================================================== *)
(** ** User rules, duplicate detection and file names (geminiService.ts) *)
(* ===================================================================== *)

Module RuleFacts.
Import Types Gemini GeminiMore.

Section Host.
Variable trim : string → string.
Variable toLowerCase : string → string.

Lemma applyRules_find (result : GeminiAnalysisResult) (rules : list Rule) :
  applyRules trim toLowerCase result rules
  = match find (ruleMatches trim toLowerCase result) rules with
    | Some rule => withRule result rule
    | None => result
    end.
Proof.
  induction rules as [|rule rest IH]; [done|]. simpl.
  by destruct (ruleMatches trim toLowerCase result rule).
Qed.

End Host.

Lemma lowerAscii_alnum (a : Ascii.ascii) :
  JsText.isAlnum a = true → JsText.isLowerAlnum (JsText.lowerAscii a) = true.
Proof.
  destruct a as [[] [] [] [] [] [] [] []]; vm_compute; intros H;
    first [reflexivity | discriminate H].
Qed.

Lemma keepAlnum_all (s : string) :
  JsText.all JsText.isAlnum (JsText.keepAlnum s) = true.
Proof.
  induction s as [|a s IH]; [done|]. simpl.
  destruct (JsText.isAlnum a) eqn:Ha; [|exact IH].
  simpl. by rewrite Ha, IH.
Qed.

Lemma lowerAlnum_all (s : string) :
  JsText.all JsText.isAlnum s = true →
  JsText.all JsText.isLowerAlnum (JsText.lowerAlnum s) = true.
Proof.
  induction s as [|a s IH]; [done|]. simpl.
  intros [Ha Hs]%andb_true_iff.
  by rewrite lowerAscii_alnum, IH.
Qed.

End RuleFacts.

Module RuleTheorems.
Import Types Gemini GeminiMore RuleFacts NormaliserFacts Scenarios MoreScenarios.

Section Host.
Variable trim : string → string.
Variable toLowerCase : string → string.
Variable codeUnits : string → nat.
Variable dateStringOfIso : string → string.
Variable toDateString : Js.Date → string.

(** X26. The first rule that matches decides: when no rule before [rule]
    matches and [rule] does, the result takes the invoice type and the
    category of [rule], whatever rules come after it. *)
Theorem applyRules_first_match_wins
    (result : GeminiAnalysisResult) (before after : list Rule) (rule : Rule) :
  (∀ r, r ∈ before → ruleMatches trim toLowerCase result r = false) →
  ruleMatches trim toLowerCase result rule = true →
  applyRules trim toLowerCase result (before ++ rule :: after)
  = withRule result rule.
Proof.
  intros Hbefore Hrule.
  induction before as [|r before IH]; simpl.
  - by rewrite Hrule.
  - rewrite (Hbefore r) by left.
    apply IH. intros r' Hr'. apply Hbefore. by right.
Qed.

(** X27. Applying the rules to a result they have been applied to changes
    nothing: the rules read the vendor and the text only, and a matching
    rule writes the invoice type and the category only. *)
Theorem applyRules_twice (result : GeminiAnalysisResult) (rules : list Rule) :
  applyRules trim toLowerCase (applyRules trim toLowerCase result rules) rules
  = applyRules trim toLowerCase result rules
  ∧ vendor (applyRules trim toLowerCase result rules) = vendor result
  ∧ textContent (applyRules trim toLowerCase result rules) = textContent result
  ∧ totalAmount (applyRules trim toLowerCase result rules) = totalAmount result
  ∧ invoiceNumber (applyRules trim toLowerCase result rules)
    = invoiceNumber result.
Proof.
  rewrite (applyRules_find trim toLowerCase result rules).
  destruct (find (ruleMatches trim toLowerCase result) rules) as [rule|] eqn:Hfind.
  - split; [|done].
    rewrite applyRules_find.
    change (ruleMatches trim toLowerCase (withRule result rule))
      with (ruleMatches trim toLowerCase result).
    by rewrite Hfind.
  - split; [|done].
    by rewrite applyRules_find, Hfind.
Qed.

Lemma findsDuplicate_spec (analysis : GeminiAnalysisResult)
    (existingDocuments : list Document) :
  findsDuplicate trim toLowerCase codeUnits dateStringOfIso toDateString
    analysis existingDocuments = true
  ↔ ∃ doc, doc ∈ existingDocuments
           ∧ (invoiceNumberClash trim toLowerCase codeUnits analysis doc = true
              ∨ amountDateClash dateStringOfIso toDateString analysis doc = true).
Proof.
  induction existingDocuments as [|doc rest IH]; simpl.
  - split; [done|]. intros (doc & Hin & _). by apply elem_of_nil in Hin.
  - destruct (invoiceNumberClash trim toLowerCase codeUnits analysis doc) eqn:H1.
    { split; [|done]. intros _. exists doc. split; [left|by left]. }
    destruct (amountDateClash dateStringOfIso toDateString analysis doc) eqn:H2.
    { split; [|done]. intros _. exists doc. split; [left|by right]. }
    rewrite IH. split.
    + intros (d & Hin & Hd). exists d. split; [by right|done].
    + intros (d & Hin & Hd). apply elem_of_cons in Hin as [->|Hin].
      * rewrite H1, H2 in Hd. by destruct Hd.
      * by exists d.
Qed.

(** X28. The status is "possible duplicate" exactly when some document at
    hand clashes with the analysis (same invoice number, or same printed
    amount on the same day), wherever it stands in the list. Otherwise the
    status follows the flags: "invoice missing" needs an order
    confirmation that is no invoice, "screenshot" an e-mail body that is
    neither; the function answers with no other status than these and
    [OK]. *)
Theorem getDocumentStatusFromAnalysis_cases
    (analysis : GeminiAnalysisResult) (existingDocuments : list Document) :
  let status :=
    getDocumentStatusFromAnalysis trim toLowerCase codeUnits dateStringOfIso
      toDateString analysis existingDocuments in
  (status = POTENTIAL_DUPLICATE
   ↔ ∃ doc, doc ∈ existingDocuments
            ∧ (invoiceNumberClash trim toLowerCase codeUnits analysis doc = true
               ∨ amountDateClash dateStringOfIso toDateString analysis doc
                 = true))
  ∧ (status = MISSING_INVOICE →
     isOrderConfirmation analysis = true ∧ isInvoice analysis = false)
  ∧ (status = SCREENSHOT →
     isEmailBody analysis = true ∧ isInvoice analysis = false
     ∧ isOrderConfirmation analysis = false)
  ∧ (isInvoice analysis = true → status = POTENTIAL_DUPLICATE ∨ status = OK)
  ∧ status ∈ [POTENTIAL_DUPLICATE; MISSING_INVOICE; SCREENSHOT; OK].
Proof.
  intros status. subst status. unfold getDocumentStatusFromAnalysis.
  rewrite <- findsDuplicate_spec.
  destruct (findsDuplicate _ _ _ _ _ analysis existingDocuments).
  - split_and!; try done; [by left|left].
  - destruct (isOrderConfirmation analysis), (isInvoice analysis),
      (isEmailBody analysis); simpl;
      (split_and!; try done; try (by right);
       repeat constructor).
Qed.

End Host.

Lemma applyRules_first_match_wins_witness :
  applyRules sampleTrim sampleLower rawAnalysis
    ([gardenRule] ++ toolRule :: [textRule])
  = withRule rawAnalysis toolRule.
Proof.
  apply (applyRules_first_match_wins sampleTrim sampleLower rawAnalysis
           [gardenRule] [textRule] toolRule).
  - intros r Hr. apply list_elem_of_singleton in Hr. subst r.
    vm_compute. reflexivity.
  - vm_compute. reflexivity.
Defined.

(** X29. The vendor part of a suggested file name is never empty and holds
    lower-case letters and digits only; a vendor without any letter or
    digit shows as "unbekannt". *)
Theorem cleanVendor_is_a_lowercase_word (vendor : string) :
  Js.truthy_string (cleanVendor vendor) = true
  ∧ JsText.all JsText.isLowerAlnum (cleanVendor vendor) = true
  ∧ (JsText.keepAlnum vendor = EmptyString → cleanVendor vendor = "unbekannt").
Proof.
  unfold cleanVendor.
  set (kept := JsText.keepAlnum (or_string vendor "unbekannt")).
  assert (Hall : JsText.all JsText.isLowerAlnum (JsText.lowerAlnum kept) = true)
    by apply lowerAlnum_all, keepAlnum_all.
  split_and!.
  - unfold or_string at 1.
    by destruct (Js.truthy_string (JsText.lowerAlnum kept)) eqn:Ht.
  - unfold or_string at 1.
    by destruct (Js.truthy_string (JsText.lowerAlnum kept)).
  - intros Hnone. subst kept. unfold or_string at 2.
    destruct (Js.truthy_string vendor); [by rewrite Hnone|reflexivity].
Qed.

(** X30. The metadata built from an analysis that went through the normaliser
    before -- as the upload dialog does with the outcome of the analysis --
    carries the same field list and the same average confidence as the
    metadata built from the analysis itself; the field list is not empty,
    so the fallbacks (85, no fields) are never used. *)
Theorem buildOcrMetadataFromAnalysis_after_normalising
    (analysis : GeminiAnalysisResult) (now : Js.Date) :
  let direct := buildOcrMetadataFromAnalysis analysis now in
  let again :=
    buildOcrMetadataFromAnalysis (ensureExtendedAnalysisData analysis) now in
  ocr_fields again = ocr_fields direct
  ∧ ocr_averageConfidence again = ocr_averageConfidence direct
  ∧ ocr_pageCount again = ocr_pageCount direct
  ∧ ocr_fields direct ≠ []
  ∧ Some (ocr_fields direct)
    = fieldConfidences (ensureExtendedAnalysisData analysis)
  ∧ Some (ocr_averageConfidence direct)
    = averageConfidence (ensureExtendedAnalysisData analysis).
Proof.
  intros direct again. subst direct again. unfold buildOcrMetadataFromAnalysis.
  cbn [ocr_fields ocr_averageConfidence ocr_pageCount].
  destruct (ensure_twice analysis) as (Hf & Ha & _).
  rewrite Hf, Ha.
  destruct (ensure_fields analysis) as (fields & Hfields & Hlen & _ & Havg).
  rewrite Hfields, Havg. simpl.
  split_and!; try done.
  intros ->. simpl in Hlen. lia.
Qed.

End RuleTheorems.
